(** * fast_fscanf_mem: a memory-based formatted scanner

    Shallow embedding of [src/fast_fscanf.cpp].  Positions are byte offsets
    relative to the start of the caller's buffer, kept in [Z] so that the
    pointer differences of the source ([ms.end - ms.ptr]) are exact.
    The format is the list of characters of a C string (reading past its
    last character yields the terminating NUL).  The caller's variadic
    output pointers are a list of typed slots indexed by the [va_list]
    position. *)

From Stdlib Require Import ZArith Ascii String List Bool Lia.
Import ListNotations.
Open Scope Z_scope.

(** ** <cctype>, "C" locale *)

Module CType.

Definition code (c : ascii) : Z := Z.of_N (N_of_ascii c).

Definition isspace (c : ascii) : bool :=
  (code c =? 32) || ((9 <=? code c) && (code c <=? 13)).

Definition isdigit (c : ascii) : bool :=
  (48 <=? code c) && (code c <=? 57).

Definition isxdigit (c : ascii) : bool :=
  isdigit c
  || ((97 <=? code c) && (code c <=? 102))
  || ((65 <=? code c) && (code c <=? 70)).

End CType.
Import CType.

Definition NUL : ascii := Ascii.zero.
Definition chr (c d : ascii) : bool := Ascii.eqb c d.

Definition str (s : string) : list ascii := list_ascii_of_string s.

(** ** The scanner struct and its primitives *)

(** [ptr] and [end_] are the two pointers of [struct MemScanner], as offsets
    from [buffer].  [hist] is ghost state: every value ever assigned to
    [ptr], newest first.  No function of the program reads it. *)
Record MemScanner := mkMS { ptr : Z; end_ : Z; hist : list Z }.

Definition set_ptr (ms : MemScanner) (p : Z) : MemScanner :=
  {| ptr := p; end_ := end_ ms; hist := p :: hist ms |}.

Definition ms_eof (ms : MemScanner) : bool := ptr ms >=? end_ ms.

(** The decrement test of [ms_ungetc], as written in the source. *)
Definition ungetc_test (ms : MemScanner) : bool :=
  ptr ms >? end_ ms - (end_ ms - ptr ms).

Definition ms_ungetc (ms : MemScanner) : MemScanner :=
  let ms1 := if ptr ms >? end_ ms then set_ptr ms (end_ ms) else ms in
  if ungetc_test ms1 then set_ptr ms1 (ptr ms1 - 1) else ms1.

Section Buffer.

(** The memory the caller's [buffer] pointer designates.  It may hold more
    bytes than the [size] the caller passes. *)
Variable buffer : list ascii.

Definition deref (p : Z) : ascii := nth (Z.to_nat p) buffer NUL.

Definition ms_peek (ms : MemScanner) : ascii :=
  if ms_eof ms then NUL else deref (ptr ms).

Definition ms_getc (ms : MemScanner) : ascii * MemScanner :=
  if ms_eof ms then (NUL, ms)
  else (deref (ptr ms), set_ptr ms (ptr ms + 1)).

(** The [while] loops over the buffer run on fuel; their wrappers supply the
    number of bytes left, which the loop condition exhausts first. *)
Definition remaining (ms : MemScanner) : nat := Z.to_nat (end_ ms - ptr ms).

Fixpoint skip_whitespace_loop (fuel : nat) (ms : MemScanner) : MemScanner :=
  match fuel with
  | O => ms
  | S f =>
      if negb (ms_eof ms) && isspace (deref (ptr ms))
      then skip_whitespace_loop f (set_ptr ms (ptr ms + 1))
      else ms
  end.

Definition ms_skip_whitespace (ms : MemScanner) : MemScanner :=
  skip_whitespace_loop (remaining ms) ms.

(** ** Token scanners *)

(** [readChar]: the character stored through [out], if any. *)
Definition readChar (ms : MemScanner) : option ascii * MemScanner :=
  if ms_eof ms then (None, ms)
  else let '(c, ms') := ms_getc ms in (Some c, ms').

(** [dest] is the list of characters stored so far, [dest[0..count)]; the
    terminator written after them is implicit. *)
Fixpoint readString_loop (fuel : nat) (width : Z) (dest : list ascii)
    (ms : MemScanner) : list ascii * MemScanner :=
  match fuel with
  | O => (dest, ms)
  | S f =>
      if ms_eof ms then (dest, ms)
      else
        let c := ms_peek ms in
        if isspace c then (dest, ms)
        else
          let ms' := snd (ms_getc ms) in
          let count := Z.of_nat (length dest) in
          let dest' := if count <? width - 1 then dest ++ [c] else dest in
          readString_loop f width dest' ms'
  end.

(** Returns the flag [count > 0], the characters stored in [dest] and the
    scanner.  [dest] is a non-null pointer in every call of the source. *)
Definition readString (ms : MemScanner) (width : Z)
    : bool * list ascii * MemScanner :=
  let width := if width <=? 0 then 1024 * 1024 else width in
  let ms := ms_skip_whitespace ms in
  let '(dest, ms') := readString_loop (remaining ms) width [] ms in
  (0 <? Z.of_nat (length dest), dest, ms').

Definition push_tok (bufSize : Z) (outBuf : list ascii) (c : ascii)
    : list ascii :=
  if Z.of_nat (length outBuf) <? bufSize - 1 then outBuf ++ [c] else outBuf.

Fixpoint readInteger_loop (fuel : nat) (base bufSize : Z)
    (outBuf : list ascii) (gotDigit : bool) (ms : MemScanner)
    : bool * list ascii * MemScanner :=
  match fuel with
  | O => (gotDigit, outBuf, ms)
  | S f =>
      if ms_eof ms then (gotDigit, outBuf, ms)
      else
        let c := ms_peek ms in
        let valid :=
          if base =? 10 then isdigit c
          else if base =? 16 then isxdigit c
          else false in
        if negb valid then (gotDigit, outBuf, ms)
        else
          let ms' := snd (ms_getc ms) in
          readInteger_loop f base bufSize (push_tok bufSize outBuf c) true ms'
  end.

Definition readIntegerToken (ms : MemScanner) (allowSign : bool)
    (base bufSize : Z) : bool * list ascii * MemScanner :=
  if bufSize <? 2 then (false, [], ms)
  else
    let ms := ms_skip_whitespace ms in
    let '(outBuf, ms) :=
      if allowSign then
        let c := ms_peek ms in
        if chr c "+" || chr c "-" then ([c], snd (ms_getc ms))
        else ([], ms)
      else ([], ms) in
    readInteger_loop (remaining ms) base bufSize outBuf false ms.

Record FloatSt := mkFS {
  fs_out : list ascii; fs_gotAny : bool;
  fs_seenExponent : bool; fs_seenDot : bool }.

Definition float_last_is_e (outBuf : list ascii) : bool :=
  match rev outBuf with
  | [] => false
  | c :: _ => chr c "e" || chr c "E"
  end.

(** One classification of the peeked character: the updated flags and
    whether the character is [valid]. *)
Definition float_classify (st : FloatSt) (c : ascii) : FloatSt * bool :=
  if isdigit c then
    (mkFS (fs_out st) true (fs_seenExponent st) (fs_seenDot st), true)
  else if negb (fs_seenDot st) && chr c "." then
    (mkFS (fs_out st) true (fs_seenExponent st) true, true)
  else if negb (fs_seenExponent st) && (chr c "e" || chr c "E") then
    (mkFS (fs_out st) true true (fs_seenDot st), true)
  else if (chr c "+" || chr c "-") && fs_seenExponent st then
    if float_last_is_e (fs_out st) then
      (mkFS (fs_out st) true (fs_seenExponent st) (fs_seenDot st), true)
    else (st, false)
  else (st, false).

Fixpoint readFloat_loop (fuel : nat) (bufSize : Z) (st : FloatSt)
    (ms : MemScanner) : FloatSt * MemScanner :=
  match fuel with
  | O => (st, ms)
  | S f =>
      if ms_eof ms then (st, ms)
      else
        let c := ms_peek ms in
        let '(st1, valid) := float_classify st c in
        if negb valid then (st1, ms)
        else
          let ms' := snd (ms_getc ms) in
          let st2 := mkFS (push_tok bufSize (fs_out st1) c) (fs_gotAny st1)
                          (fs_seenExponent st1) (fs_seenDot st1) in
          readFloat_loop f bufSize st2 ms'
  end.

Definition readFloatToken (ms : MemScanner) (bufSize : Z)
    : bool * list ascii * MemScanner :=
  if bufSize <? 2 then (false, [], ms)
  else
    let ms := ms_skip_whitespace ms in
    let c := ms_peek ms in
    let '(st, ms) :=
      if chr c "+" || chr c "-" then
        (mkFS [c] true false false, snd (ms_getc ms))
      else (mkFS [] false false false, ms) in
    let '(st', ms') := readFloat_loop (remaining ms) bufSize st ms in
    (fs_gotAny st', fs_out st', ms').

End Buffer.

(** ** Library conversions used by the interpreter

    [std::from_chars], [strtod]/[strtold] and [atoi] belong to the C and C++
    standard libraries; they are modelled from the standards' wording, in the
    "C" locale.  [long] and [unsigned long] are 64 bits wide (LP64). *)

Module Conv.

Definition LONG_BITS : Z := 64.

(** Two's-complement narrowing, as performed by the casts [(short)val],
    [(int)val], [(unsigned short)val] and [(unsigned int)val]. *)
Definition wrap_unsigned (bits v : Z) : Z := v mod 2 ^ bits.

Definition wrap_signed (bits v : Z) : Z :=
  let u := v mod 2 ^ bits in
  if u <? 2 ^ (bits - 1) then u else u - 2 ^ bits.

Definition digit_val (c : ascii) : option Z :=
  let n := code c in
  if (48 <=? n) && (n <=? 57) then Some (n - 48)
  else if (97 <=? n) && (n <=? 122) then Some (n - 97 + 10)
  else if (65 <=? n) && (n <=? 90) then Some (n - 65 + 10)
  else None.

(** Value and length of the longest prefix of [l] made of digits of [base]. *)
Fixpoint digits_prefix (base acc : Z) (n : nat) (l : list ascii) : Z * nat :=
  match l with
  | [] => (acc, n)
  | c :: r =>
      match digit_val c with
      | Some d =>
          if d <? base then digits_prefix base (acc * base + d) (S n) r
          else (acc, n)
      | None => (acc, n)
      end
  end.

(** [std::from_chars] into a [long]: a minus sign is the only sign accepted;
    [None] stands for [invalid_argument] and for [result_out_of_range], in
    both of which the destination is left unmodified. *)
Definition from_chars_long (tok : list ascii) (base : Z) : option Z :=
  let '(neg, body) :=
    match tok with
    | c :: r => if chr c "-" then (true, r) else (false, tok)
    | [] => (false, tok)
    end in
  let '(v, n) := digits_prefix base 0 0 body in
  match n with
  | O => None
  | S _ =>
      let r := if neg then - v else v in
      if (- 2 ^ (LONG_BITS - 1) <=? r) && (r <=? 2 ^ (LONG_BITS - 1) - 1)
      then Some r else None
  end.

(** [std::from_chars] into an [unsigned long]: no sign is accepted. *)
Definition from_chars_ulong (tok : list ascii) (base : Z) : option Z :=
  let '(v, n) := digits_prefix base 0 0 tok in
  match n with
  | O => None
  | S _ => if v <=? 2 ^ LONG_BITS - 1 then Some v else None
  end.

Fixpoint span_digits (l : list ascii) : list ascii * list ascii :=
  match l with
  | [] => ([], [])
  | c :: r =>
      if isdigit c then let '(d, rest) := span_digits r in (c :: d, rest)
      else ([], l)
  end.

(** The decimal floating literal that is the longest prefix of [tok]:
    sign, digits, optional point and digits (one digit at least in all),
    optional exponent with one digit at least.  [None] when [tok] has no such
    prefix.  A floating value is identified with the literal it is converted
    from; rounding to the binary format is not modelled. *)
Definition float_prefix (allowPlus : bool) (tok : list ascii)
    : option (list ascii) :=
  let '(sign, body) :=
    match tok with
    | c :: r =>
        if chr c "-" || (allowPlus && chr c "+") then ([c], r) else ([], tok)
    | [] => ([], tok)
    end in
  let '(ip, r1) := span_digits body in
  let '(dot, fp, r2) :=
    match r1 with
    | c :: r =>
        if chr c "." then let '(d, rest) := span_digits r in ([c], d, rest)
        else ([], [], r1)
    | [] => ([], [], r1)
    end in
  match ip ++ fp with
  | [] => None
  | _ :: _ =>
      let expo :=
        match r2 with
        | e :: r =>
            if chr e "e" || chr e "E" then
              let '(es, r3) :=
                match r with
                | c :: r' =>
                    if chr c "+" || chr c "-" then ([c], r') else ([], r)
                | [] => ([], r)
                end in
              match fst (span_digits r3) with
              | [] => []
              | ds => e :: es ++ ds
              end
            else []
        | [] => []
        end in
      Some (sign ++ ip ++ dot ++ fp ++ expo)
  end.

(** [strtod] and [strtold]: conversion happened iff [endp != tok].  The
    tokens handed over hold only signs, digits, points and exponent markers,
    so the hexadecimal, infinity and NaN forms never apply. *)
Definition strtod (tok : list ascii) : option (list ascii) :=
  float_prefix true tok.

(** [std::from_chars] for [double], [chars_format::general]: as [strtod]
    with no plus sign.  A literal out of the range of [double] is answered
    by [result_out_of_range] there and then converted by the [strtod]
    fallback of the caller; with values identified with their literals the
    two routes store the same slot. *)
Definition from_chars_double (tok : list ascii) : option (list ascii) :=
  float_prefix false tok.

(** [atoi] on a string of at most fifteen digits, narrowed to [int]. *)
Definition atoi (s : list ascii) : Z :=
  wrap_signed 32 (fst (digits_prefix 10 0 0 s)).

End Conv.
Import Conv.

(** ** Output slots *)

Inductive Value : Type :=
| VShort (v : Z) | VInt (v : Z) | VLong (v : Z)
| VUShort (v : Z) | VUInt (v : Z) | VULong (v : Z)
| VFloat (lit : list ascii) | VDouble (lit : list ascii)
| VLongDouble (lit : list ascii)
| VChar (c : ascii)
| VString (s : list ascii).

(** [*p = v] for the pointer at position [i] of the argument list.  The
    caller passes one pointer per conversion; a position past the list
    designates no slot of the model. *)
Fixpoint store (i : nat) (v : Value) (slots : list Value) {struct slots}
    : list Value :=
  match slots, i with
  | [], _ => []
  | _ :: r, O => v :: r
  | x :: r, S j => x :: store j v r
  end.

(** ** The directive interpreter *)

(** The locals of [fast_fscanf_mem] that live across loop iterations: the
    scanner, the position in the [va_list], [matchedCount], and the caller's
    variables the variadic pointers designate. *)
Record Scan := mkScan {
  sc_ms : MemScanner;
  sc_va : nat;
  sc_matched : Z;
  sc_slots : list Value }.

Inductive Outcome : Type :=
| Continue (s : Scan) (format : list ascii)
| Break (s : Scan).

(** [*format] and [format++] on the characters of a C string. *)
Definition cur (format : list ascii) : ascii := hd NUL format.
Definition advance (format : list ascii) : list ascii := tl format.

Definition LF : ascii := "010"%char.

Fixpoint skip_precision (format : list ascii) : list ascii :=
  match format with
  | [] => []
  | c :: r => if chr c "." || isdigit c then skip_precision r else format
  end.

Fixpoint gather_width (widthStr : list ascii) (format : list ascii)
    : list ascii * list ascii :=
  match format with
  | [] => (widthStr, [])
  | c :: r =>
      if isdigit c && (Z.of_nat (length widthStr) <? 15)
      then gather_width (widthStr ++ [c]) r
      else (widthStr, format)
  end.

Section Interpreter.

Variable buffer : list ascii.

Definition with_ms (s : Scan) (ms : MemScanner) : Scan :=
  mkScan ms (sc_va s) (sc_matched s) (sc_slots s).

(** [va_arg(args, T)] for a pointer type [T]: the index of the slot the
    pointer designates, and the advanced argument list. *)
Definition va_arg (s : Scan) : nat * Scan :=
  (sc_va s, mkScan (sc_ms s) (S (sc_va s)) (sc_matched s) (sc_slots s)).

Definition assign (s : Scan) (p : nat) (v : Value) : Scan :=
  mkScan (sc_ms s) (sc_va s) (sc_matched s) (store p v (sc_slots s)).

Definition conv_d (isShort isLong : bool) (s : Scan) : bool * Scan :=
  let '(got, tok, ms) := readIntegerToken buffer (sc_ms s) true 10 128 in
  let s := with_ms s ms in
  if got then
    let '(p, s) := va_arg s in
    if isShort then
      match from_chars_long tok 10 with
      | Some val => (true, assign s p (VShort (wrap_signed 16 val)))
      | None => (false, s)
      end
    else if isLong then
      match from_chars_long tok 10 with
      | Some val => (true, assign s p (VLong val))
      | None => (false, s)
      end
    else
      match from_chars_long tok 10 with
      | Some val => (true, assign s p (VInt (wrap_signed 32 val)))
      | None => (false, s)
      end
  else (false, s).

Definition conv_unsigned (base : Z) (isShort isLong : bool) (s : Scan)
    : bool * Scan :=
  let '(got, tok, ms) := readIntegerToken buffer (sc_ms s) false base 128 in
  let s := with_ms s ms in
  if got then
    let '(p, s) := va_arg s in
    if isShort then
      match from_chars_ulong tok base with
      | Some val => (true, assign s p (VUShort (wrap_unsigned 16 val)))
      | None => (false, s)
      end
    else if isLong then
      match from_chars_ulong tok base with
      | Some val => (true, assign s p (VULong val))
      | None => (false, s)
      end
    else
      match from_chars_ulong tok base with
      | Some val => (true, assign s p (VUInt (wrap_unsigned 32 val)))
      | None => (false, s)
      end
  else (false, s).

(** [case 'u'] and [case 'x'] differ in the base alone. *)
Definition conv_u := conv_unsigned 10.
Definition conv_x := conv_unsigned 16.

Definition conv_f (isLong isLongDouble : bool) (s : Scan) : bool * Scan :=
  let '(got, tok, ms) := readFloatToken buffer (sc_ms s) 256 in
  let s := with_ms s ms in
  if got then
    let '(p, s) := va_arg s in
    if isLongDouble then
      match strtod tok with
      | Some val => (true, assign s p (VLongDouble val))
      | None => (false, s)
      end
    else if isLong then
      match from_chars_double tok with
      | Some tmp => (true, assign s p (VDouble tmp))
      | None =>
          match strtod tok with
          | Some val => (true, assign s p (VDouble val))
          | None => (false, s)
          end
      end
    else
      match from_chars_double tok with
      | Some tmp => (true, assign s p (VFloat tmp))
      | None =>
          match strtod tok with
          | Some val => (true, assign s p (VFloat val))
          | None => (false, s)
          end
      end
  else (false, s).

Definition conv_c (s : Scan) : bool * Scan :=
  let '(p, s) := va_arg s in
  match readChar buffer (sc_ms s) with
  | (Some c, ms) => (true, assign (with_ms s ms) p (VChar c))
  | (None, ms) => (false, with_ms s ms)
  end.

Definition conv_s (strWidth : Z) (s : Scan) : bool * Scan :=
  let '(p, s) := va_arg s in
  let '(got, dest, ms) :=
    readString buffer (sc_ms s) (if 0 <? strWidth then strWidth else 1024) in
  let s := with_ms s ms in
  if got then (true, assign s p (VString dest)) else (false, s).

(** The [switch (spec)]. *)
Definition convert (spec : ascii) (isShort isLong isLongDouble : bool)
    (strWidth : Z) (s : Scan) : bool * Scan :=
  if chr spec "d" then conv_d isShort isLong s
  else if chr spec "u" then conv_u isShort isLong s
  else if chr spec "x" then conv_x isShort isLong s
  else if chr spec "f" || chr spec "g" || chr spec "e"
  then conv_f isLong isLongDouble s
  else if chr spec "c" then conv_c s
  else if chr spec "s" then conv_s strWidth s
  else (false, s).

(** The body of the strict newline branch. *)
Fixpoint newline_loop (fuel : nat) (ms : MemScanner) : MemScanner :=
  match fuel with
  | O => ms
  | S f =>
      if ms_eof ms then ms
      else
        let '(c, ms') := ms_getc buffer ms in
        if chr c LF then ms'
        else if negb (isspace c) then ms_ungetc ms'
        else newline_loop f ms'
  end.

(** One iteration of the main [while] loop, entered with [*format] not NUL. *)
Definition step (s : Scan) (format : list ascii) : Outcome :=
  if chr (cur format) "%" then
    let format := advance format in
    let format := skip_precision format in
    let '(isShort, isLong, isLongDouble, format) :=
      if chr (cur format) "h" then (true, false, false, advance format)
      else if chr (cur format) "l" then (false, true, false, advance format)
      else if chr (cur format) "L" then (false, false, true, advance format)
      else (false, false, false, format) in
    let '(strWidth, format) :=
      if isdigit (cur format) then
        let '(widthStr, format) := gather_width [] format in
        (atoi widthStr, format)
      else (0, format) in
    let spec := cur format in
    if chr spec NUL then Break s
    else
      let format := advance format in
      let '(success, s) :=
        convert spec isShort isLong isLongDouble strWidth s in
      if success then
        Continue (mkScan (sc_ms s) (sc_va s) (sc_matched s + 1) (sc_slots s))
                 format
      else Break s
  else if isspace (cur format) then
    Continue (with_ms s (ms_skip_whitespace buffer (sc_ms s))) (advance format)
  else if chr (cur format) LF then
    let format := advance format in
    Continue (with_ms s (newline_loop (remaining (sc_ms s)) (sc_ms s))) format
  else
    let ms := ms_skip_whitespace buffer (sc_ms s) in
    let expected := cur format in
    let format := advance format in
    if ms_eof ms then Break (with_ms s ms)
    else
      let '(c, ms) := ms_getc buffer ms in
      if negb (chr c expected) then Break (with_ms s (ms_ungetc ms))
      else Continue (with_ms s ms) format.

(** the main [while] loop: every iteration consumes a character of the format,
    so fuel equal to its length is never exhausted ([None]). *)
Fixpoint scan_loop (fuel : nat) (s : Scan) (format : list ascii)
    : option Scan :=
  if chr (cur format) NUL then Some s
  else
    match fuel with
    | O => None
    | S f =>
        match step s format with
        | Continue s' format' => scan_loop f s' format'
        | Break s' => Some s'
        end
    end.

Definition scan_init (size offset : Z) (slots : list Value) : Scan :=
  mkScan (mkMS offset size [offset]) 0 0 slots.

Definition fast_fscanf_run (size offset : Z) (format : list ascii)
    (slots : list Value) : option Scan :=
  scan_loop (length format) (scan_init size offset slots) format.

(** The result of a call: the return value, the value left in [*offset],
    and the caller's variables. *)
Definition fast_fscanf_mem (size offset : Z) (format : list ascii)
    (slots : list Value) : option (Z * Z * list Value) :=
  match fast_fscanf_run size offset format slots with
  | Some s => Some (sc_matched s, ptr (sc_ms s), sc_slots s)
  | None => None
  end.

End Interpreter.

(** ** Predicates and auxiliary definitions of the proofs *)

(** [advances ms ms']: [ms'] is reached from [ms] by increments of [ptr],
    each taken while [ptr] is before [end_]. *)
Inductive advances : MemScanner -> MemScanner -> Prop :=
| adv_refl (ms : MemScanner) : advances ms ms
| adv_next (ms ms' : MemScanner) :
    ptr ms < end_ ms ->
    advances (set_ptr ms (ptr ms + 1)) ms' ->
    advances ms ms'.

(** [hi; hi - 1; ...], [k] entries. *)
Fixpoint countdown (hi : Z) (k : nat) : list Z :=
  match k with
  | O => []
  | S k' => hi :: countdown (hi - 1) k'
  end.

(** A history, newest entry first, never goes backward in time. *)
Fixpoint nondecreasing (h : list Z) : Prop :=
  match h with
  | newer :: (older :: _) as r => older <= newer /\ nondecreasing r
  | _ => True
  end.

(** [f'] is what remains of [f] after some characters were passed. *)
Definition suffix (f' f : list ascii) : Prop :=
  exists pre : list ascii, f = pre ++ f'.

(** The number of ['%'] in a format: each opens one conversion directive. *)
Definition directives (format : list ascii) : nat :=
  count_occ ascii_dec format "%"%char.

(** What a conversion may do: advance the cursor, and store through the
    next variadic pointer exactly when it reports success. *)
Definition conv_effect (s : Scan) (r : bool * Scan) : Prop :=
  advances (sc_ms s) (sc_ms (snd r)) /\
  sc_matched (snd r) = sc_matched s /\
  if fst r then
    ms_eof (sc_ms s) = false /\
    sc_va (snd r) = S (sc_va s) /\
    exists v : Value, sc_slots (snd r) = store (sc_va s) v (sc_slots s)
  else sc_slots (snd r) = sc_slots s.

(** What one iteration may do. *)
Definition step_effect (s : Scan) (format : list ascii) (o : Outcome)
    : Prop :=
  match o with
  | Continue s' format' =>
      suffix format' (advance format) /\
      advances (sc_ms s) (sc_ms s') /\
      ((sc_va s' = sc_va s /\ sc_matched s' = sc_matched s /\
        sc_slots s' = sc_slots s) \/
       (sc_va s' = S (sc_va s) /\ sc_matched s' = sc_matched s + 1 /\
        chr (cur format) "%" = true /\ ms_eof (sc_ms s) = false /\
        exists v : Value, sc_slots s' = store (sc_va s) v (sc_slots s)))
  | Break s' =>
      advances (sc_ms s) (sc_ms s') /\
      sc_matched s' = sc_matched s /\
      sc_slots s' = sc_slots s
  end.

(** [*p0 = v0; *p1 = v1; ...] through consecutive variadic pointers. *)
Fixpoint store_from (i : nat) (vals : list Value) (slots : list Value)
    : list Value :=
  match vals with
  | [] => slots
  | v :: r => store_from (S i) r (store i v slots)
  end.

(** The flags and width read between ['%'] and the type letter, with the
    format left at the type letter. *)
Definition directive_header (format : list ascii)
    : bool * bool * bool * Z * list ascii :=
  let format := skip_precision format in
  let '(isShort, isLong, isLongDouble, format) :=
    if chr (cur format) "h" then (true, false, false, advance format)
    else if chr (cur format) "l" then (false, true, false, advance format)
    else if chr (cur format) "L" then (false, false, true, advance format)
    else (false, false, false, format) in
  let '(strWidth, format) :=
    if isdigit (cur format) then
      let '(widthStr, format) := gather_width [] format in
      (atoi widthStr, format)
    else (0, format) in
  (isShort, isLong, isLongDouble, strWidth, format).

Definition step_conversion (buffer : list ascii) (s : Scan)
    (h : bool * bool * bool * Z * list ascii) : Outcome :=
  let '(isShort, isLong, isLongDouble, strWidth, format) := h in
  let spec := cur format in
  if chr spec NUL then Break s
  else
    let '(success, s) :=
      convert buffer spec isShort isLong isLongDouble strWidth s in
    if success then
      Continue (mkScan (sc_ms s) (sc_va s) (sc_matched s + 1) (sc_slots s))
               (advance format)
    else Break s.







(** Two memories that hold the same [size] first bytes. *)
Definition agree (size : Z) (b1 b2 : list ascii) : Prop :=
  forall p : Z, 0 <= p < size -> deref b1 p = deref b2 p.

(** A scanner of a buffer of [size] bytes, at a non-negative offset. *)
Definition within (size : Z) (ms : MemScanner) : Prop :=
  end_ ms = size /\ 0 <= ptr ms.

Definition SP : ascii := " "%char.

(** Equal characters, or a newline on the left where the right has a
    space. *)
Definition nl_as_sp (a b : ascii) : Prop := a = b \/ (a = LF /\ b = SP).

Definition same_outcome (o1 o2 : Outcome) : Prop :=
  match o1, o2 with
  | Continue s1 f1, Continue s2 f2 => s1 = s2 /\ Forall2 nl_as_sp f1 f2
  | Break s1, Break s2 => s1 = s2
  | _, _ => False
  end.

(** The character at which [ms_skip_whitespace] stops is a sign. *)
Definition sign_next (buffer : list ascii) (ms : MemScanner) : Prop :=
  ms_peek buffer (ms_skip_whitespace buffer ms) = "+"%char \/
  ms_peek buffer (ms_skip_whitespace buffer ms) = "-"%char.

(** The spellings of the unsigned decimal and hexadecimal directives. *)
Definition unsigned_directive (d : list ascii) : Prop :=
  In d [str "%u"; str "%hu"; str "%lu"; str "%x"; str "%hx"; str "%lx"].

(** The record format of the usage example, with [%x] and [%s] as in the
    scenario, and one record in that format. *)
Definition record_format : list ascii :=
  str ":%x[%hd]( %hd %hu %d %x %lx %f %Lf %s %hd/%hd/%hd %hd:%hd:%hd"
  ++ [LF].

Definition record_buffer : list ascii :=
  str ":1a[5]( 3 7 42 ff 2b3 1.5 2.25 tok 01/02/2024 09:30:00" ++ [LF].

(** [token_at buffer ms tok]: [tok] is the run of characters that starts at
    the cursor and ends before the next whitespace character or at the end
    of the buffer. *)
Inductive token_at (buffer : list ascii) : MemScanner -> list ascii -> Prop :=
| token_eof (ms : MemScanner) :
    ms_eof ms = true -> token_at buffer ms []
| token_space (ms : MemScanner) :
    ms_eof ms = false ->
    isspace (deref buffer (ptr ms)) = true ->
    token_at buffer ms []
| token_char (ms : MemScanner) (tok : list ascii) :
    ms_eof ms = false ->
    isspace (deref buffer (ptr ms)) = false ->
    token_at buffer (set_ptr ms (ptr ms + 1)) tok ->
    token_at buffer ms (deref buffer (ptr ms) :: tok).

(** ** Predicates of the further properties *)

(** The test [valid] of [readIntegerToken] for a character [c]. *)
Definition digit_of (base : Z) (c : ascii) : bool :=
  if base =? 10 then isdigit c
  else if base =? 16 then isxdigit c
  else false.

(** The width [readString] works with: its first statement replaces a
    width that is not positive. *)
Definition effective_width (width : Z) : Z :=
  if width <=? 0 then 1024 * 1024 else width.

(** The characters [readFloatToken] can capture. *)
Definition float_char (c : ascii) : bool :=
  isdigit c || chr c "." || chr c "e" || chr c "E" || chr c "+" || chr c "-".

(** A slot holds a value of its C type: [short] and [unsigned short] are
    16 bits wide, [int] and [unsigned int] 32, [long] and [unsigned long]
    [LONG_BITS]. *)
Definition in_range (v : Value) : Prop :=
  match v with
  | VShort z => - 2 ^ 15 <= z < 2 ^ 15
  | VInt z => - 2 ^ 31 <= z < 2 ^ 31
  | VLong z => - 2 ^ (LONG_BITS - 1) <= z < 2 ^ (LONG_BITS - 1)
  | VUShort z => 0 <= z < 2 ^ 16
  | VUInt z => 0 <= z < 2 ^ 32
  | VULong z => 0 <= z < 2 ^ LONG_BITS
  | _ => True
  end.

(** The type letters the [switch] of the interpreter has a case for. *)
Definition supported (spec : ascii) : bool :=
  chr spec "d" || chr spec "u" || chr spec "x" || chr spec "f"
  || chr spec "g" || chr spec "e" || chr spec "c" || chr spec "s".

(** The spellings of the signed decimal directive. *)
Definition signed_directive (d : list ascii) : Prop :=
  In d [str "%d"; str "%hd"; str "%ld"].

(** What the loop of [readFloatToken] keeps true of the captured text and
    the two flags. *)
Definition float_inv (bufSize : Z) (st : FloatSt) : Prop :=
  Forall (fun c => float_char c = true) (fs_out st) /\
  (count_occ ascii_dec (fs_out st) "."%char
   <= if fs_seenDot st then 1 else 0)%nat /\
  (count_occ ascii_dec (fs_out st) "e"%char
   + count_occ ascii_dec (fs_out st) "E"%char
   <= if fs_seenExponent st then 1 else 0)%nat /\
  Z.of_nat (length (fs_out st)) <= Z.max 1 (bufSize - 1).

(** The main loop run to the end of the format: [Some] of the final state
    when every iteration went on, [None] as soon as one halts the scan. *)
Fixpoint scan_through (buffer : list ascii) (fuel : nat) (s : Scan)
    (format : list ascii) : option Scan :=
  match format with
  | [] => Some s
  | _ :: _ =>
      if chr (cur format) NUL then None
      else
        match fuel with
        | O => None
        | S f =>
            match step buffer s format with
            | Continue s' format' => scan_through buffer f s' format'
            | Break _ => None
            end
        end
  end.

(** Two scanners at the same place of the same buffer. *)
Definition same_pos (a b : MemScanner) : Prop :=
  ptr a = ptr b /\ end_ a = end_ b.

(** The state [s] of a call, seen from a call [s0] that starts where [m]
    directives have been matched and the output pointers [pre] used. *)
Definition shifted (pre : list Value) (m : Z) (s s0 : Scan) : Prop :=
  same_pos (sc_ms s) (sc_ms s0) /\
  sc_va s = (length pre + sc_va s0)%nat /\
  sc_matched s = m + sc_matched s0 /\
  sc_slots s = pre ++ sc_slots s0.


(** Two memories that hold the same bytes from [lo] up to [size]. *)
Definition agree_from (lo size : Z) (b1 b2 : list ascii) : Prop :=
  forall p : Z, lo <= p < size -> deref b1 p = deref b2 p.

(** A scanner of a buffer of [size] bytes, at [lo] or after. *)
Definition within_from (lo size : Z) (ms : MemScanner) : Prop :=
  end_ ms = size /\ lo <= ptr ms.

(** ** [src/fscanfasta.c]: the reader over a file or a memory buffer

    [struct MyIO] in memory mode: [io_ptr] and [io_end] are the pointers
    [ptr] and [end] as offsets from [io->buffer].  What the functions do in
    file mode, through the stream [io->fp], is a parameter of the model. *)

Record MyIO := mkIO { useFile : bool; io_ptr : Z; io_end : Z }.

Definition io_set_ptr (io : MyIO) (p : Z) : MyIO :=
  mkIO (useFile io) p (io_end io).

Definition DQUOTE : ascii := "034"%char.

Definition is_quote (c : ascii) : bool := chr c "'" || chr c DQUOTE.

(** The string a C character array holds: its characters before the first
    NUL. *)
Fixpoint c_string (l : list ascii) : list ascii :=
  match l with
  | [] => []
  | c :: r => if chr c NUL then [] else c :: c_string r
  end.

(** [stripQuotes] on the string [str], a non-null pointer: [memmove] of
    [len] bytes from [str + 1] drops the first character, and writing NUL
    at [len - 1] drops the last. *)
Definition stripQuotes (str : list ascii) : list ascii :=
  let len := length str in
  if Nat.eqb len 0 then str
  else
    let '(str, len) :=
      if is_quote (nth 0 str NUL) then (tl str, (len - 1)%nat)
      else (str, len) in
    if Nat.ltb 0 len then
      let len := length str in
      if Nat.ltb 0 len && is_quote (nth (len - 1) str NUL)
      then firstn (len - 1) str
      else str
    else str.

Section FileOrMemory.

Variable buffer : list ascii.

(** File mode: the line-skipping loop over [fgetc], and [fscanf] with [%s]
    ([None] unless it returns 1). *)
Variable file_skip_line : MyIO -> bool * MyIO.
Variable file_scan_string : MyIO -> option (list ascii) * MyIO.

Definition io_remaining (io : MyIO) : nat := Z.to_nat (io_end io - io_ptr io).

Fixpoint skip_line_loop (fuel : nat) (io : MyIO) : MyIO :=
  match fuel with
  | O => io
  | S f =>
      if (io_ptr io <? io_end io) && negb (chr (deref buffer (io_ptr io)) LF)
      then skip_line_loop f (io_set_ptr io (io_ptr io + 1))
      else io
  end.

Definition ioSkipLine (io : MyIO) : bool * MyIO :=
  if useFile io then file_skip_line io
  else
    let io := skip_line_loop (io_remaining io) io in
    let io :=
      if (io_ptr io <? io_end io) && chr (deref buffer (io_ptr io)) LF
      then io_set_ptr io (io_ptr io + 1)
      else io in
    (io_ptr io <? io_end io, io).

Fixpoint io_skip_space_loop (fuel : nat) (io : MyIO) : MyIO :=
  match fuel with
  | O => io
  | S f =>
      if (io_ptr io <? io_end io) && isspace (deref buffer (io_ptr io))
      then io_skip_space_loop f (io_set_ptr io (io_ptr io + 1))
      else io
  end.

(** The copy loop of [ioReadToken]: [out] is [outBuffer[0..i)]. *)
Fixpoint read_token_loop (fuel : nat) (maxLen : Z) (out : list ascii)
    (io : MyIO) : list ascii * MyIO :=
  match fuel with
  | O => (out, io)
  | S f =>
      if (io_ptr io <? io_end io)
         && negb (isspace (deref buffer (io_ptr io)))
         && (Z.of_nat (length out) <? maxLen - 1)
      then read_token_loop f maxLen (out ++ [deref buffer (io_ptr io)])
             (io_set_ptr io (io_ptr io + 1))
      else (out, io)
  end.

(** [ioReadToken] with a non-null [outBuffer] of [maxLen] bytes: the flag
    returned, the string left in [outBuffer] ([None] when the buffer is not
    written), and the reader. *)
Definition ioReadToken (io : MyIO) (maxLen : Z)
    : bool * option (list ascii) * MyIO :=
  if maxLen <? 1 then (false, None, io)
  else if useFile io then
    match file_scan_string io with
    | (Some out, io) => (true, Some (stripQuotes out), io)
    | (None, io) => (false, Some [], io)
    end
  else
    let io := io_skip_space_loop (io_remaining io) io in
    if io_ptr io >=? io_end io then (false, Some [], io)
    else
      let '(out, io) := read_token_loop (io_remaining io) maxLen [] io in
      (0 <? Z.of_nat (length out), Some (stripQuotes (c_string out)), io).

End FileOrMemory.

(** The text begins with the mantissa of a decimal literal: a digit, or a
    point followed by a digit. *)
Definition starts_mantissa (body : list ascii) : bool :=
  match body with
  | [] => false
  | c :: r =>
      isdigit c
      || (chr c "." && match r with d :: _ => isdigit d | [] => false end)
  end.

(** The token is an optional sign followed by such a mantissa. *)
Definition has_mantissa (tok : list ascii) : bool :=
  match tok with
  | [] => false
  | c :: r =>
      if chr c "-" || chr c "+" then starts_mantissa r
      else starts_mantissa tok
  end.

(** * Proofs *)

(** ** The cursor only advances, one character at a time *)

Lemma advances_trans (a b c : MemScanner) :
  advances a b -> advances b c -> advances a c.
Proof.
  induction 1 as [ms | ms ms' Hlt _ IH]; intro Hbc.
  - exact Hbc.
  - apply adv_next; [exact Hlt | apply IH, Hbc].
Qed.

Lemma advances_one (ms : MemScanner) :
  ptr ms < end_ ms -> advances ms (set_ptr ms (ptr ms + 1)).
Proof. intro H. apply adv_next; [exact H | apply adv_refl]. Qed.

Lemma countdown_snoc (hi : Z) (k : nat) :
  countdown hi (S k) = countdown hi k ++ [hi - Z.of_nat k].
Proof.
  revert hi. induction k as [| k IH]; intro hi.
  - simpl. f_equal. lia.
  - change (countdown hi (S (S k))) with (hi :: countdown (hi - 1) (S k)).
    rewrite IH. simpl. do 3 f_equal. lia.
Qed.

Lemma advances_end (ms ms' : MemScanner) :
  advances ms ms' -> end_ ms' = end_ ms.
Proof. induction 1 as [| ms ms' _ _ IH]; [reflexivity | exact IH]. Qed.

Lemma advances_hist (ms ms' : MemScanner) :
  advances ms ms' ->
  exists k : nat,
    ptr ms' = ptr ms + Z.of_nat k /\
    hist ms' = countdown (ptr ms') k ++ hist ms /\
    (ptr ms <= end_ ms -> ptr ms' <= end_ ms).
Proof.
  induction 1 as [ms | ms ms' Hlt _ IH].
  - exists O. simpl. repeat split; [lia | tauto].
  - destruct IH as (k & Hp & Hh & Hle). simpl in Hp, Hh, Hle.
    exists (S k). repeat split.
    + lia.
    + rewrite Hh, countdown_snoc, <- app_assoc. simpl.
      f_equal. f_equal. lia.
    + intros _. apply Hle. lia.
Qed.

Lemma advances_le (ms ms' : MemScanner) :
  advances ms ms' -> ptr ms <= ptr ms'.
Proof.
  intro H. destruct (advances_hist _ _ H) as (k & Hp & _). lia.
Qed.

Lemma ungetc_test_false (ms : MemScanner) : ungetc_test ms = false.
Proof. unfold ungetc_test. rewrite Z.gtb_ltb. apply Z.ltb_ge. lia. Qed.

Lemma ms_ungetc_in_range (ms : MemScanner) :
  ptr ms <= end_ ms -> ms_ungetc ms = ms.
Proof.
  intro H. unfold ms_ungetc.
  replace (ptr ms >? end_ ms) with false
    by (symmetry; rewrite Z.gtb_ltb; apply Z.ltb_ge; lia).
  now rewrite ungetc_test_false.
Qed.

Lemma ms_eof_false (ms : MemScanner) :
  ms_eof ms = false -> ptr ms < end_ ms.
Proof. unfold ms_eof. rewrite Z.geb_leb. intro H. apply Z.leb_gt, H. Qed.

Lemma ms_eof_true (ms : MemScanner) :
  ms_eof ms = true -> end_ ms <= ptr ms.
Proof. unfold ms_eof. rewrite Z.geb_leb. intro H. apply Z.leb_le, H. Qed.

Lemma remaining_eof (ms : MemScanner) :
  ms_eof ms = true -> remaining ms = O.
Proof. intro H. apply ms_eof_true in H. unfold remaining. lia. Qed.

Section ScannerFacts.

Variable buffer : list ascii.

Lemma ms_getc_not_eof (ms : MemScanner) :
  ms_eof ms = false ->
  ms_getc buffer ms = (deref buffer (ptr ms), set_ptr ms (ptr ms + 1)).
Proof. intro H. unfold ms_getc. now rewrite H. Qed.

Lemma ms_getc_advances (ms : MemScanner) :
  advances ms (snd (ms_getc buffer ms)).
Proof.
  unfold ms_getc. destruct (ms_eof ms) eqn:E; simpl.
  - apply adv_refl.
  - apply advances_one, ms_eof_false, E.
Qed.

Lemma skip_whitespace_loop_advances (fuel : nat) (ms : MemScanner) :
  advances ms (skip_whitespace_loop buffer fuel ms).
Proof.
  revert ms. induction fuel as [| f IH]; intro ms; simpl.
  - apply adv_refl.
  - destruct (ms_eof ms) eqn:E; simpl; [apply adv_refl |].
    destruct (isspace (deref buffer (ptr ms))); [| apply adv_refl].
    apply adv_next; [apply ms_eof_false, E | apply IH].
Qed.

Lemma ms_skip_whitespace_advances (ms : MemScanner) :
  advances ms (ms_skip_whitespace buffer ms).
Proof. apply skip_whitespace_loop_advances. Qed.

Lemma readString_loop_advances (fuel : nat) (w : Z) (dest : list ascii)
    (ms : MemScanner) :
  advances ms (snd (readString_loop buffer fuel w dest ms)).
Proof.
  revert dest ms. induction fuel as [| f IH]; intros dest ms; simpl.
  - apply adv_refl.
  - destruct (ms_eof ms) eqn:E; [apply adv_refl |].
    destruct (isspace (ms_peek buffer ms)); [apply adv_refl |].
    eapply advances_trans; [apply ms_getc_advances | apply IH].
Qed.

Lemma readString_advances (ms : MemScanner) (w : Z) :
  advances ms (snd (readString buffer ms w)).
Proof.
  unfold readString.
  destruct (readString_loop _ _ _ _ _) as [dest ms'] eqn:E. simpl.
  eapply advances_trans; [apply ms_skip_whitespace_advances |].
  change ms' with (snd (dest, ms')). rewrite <- E.
  apply readString_loop_advances.
Qed.

Lemma readInteger_loop_advances (fuel : nat) (base bufSize : Z)
    (outBuf : list ascii) (got : bool) (ms : MemScanner) :
  advances ms (snd (readInteger_loop buffer fuel base bufSize outBuf got ms)).
Proof.
  revert outBuf got ms.
  induction fuel as [| f IH]; intros outBuf got ms; simpl.
  - apply adv_refl.
  - destruct (ms_eof ms); [apply adv_refl |].
    destruct (negb _); [apply adv_refl |].
    eapply advances_trans; [apply ms_getc_advances | apply IH].
Qed.

Lemma readIntegerToken_advances (ms : MemScanner) (allowSign : bool)
    (base bufSize : Z) :
  advances ms (snd (readIntegerToken buffer ms allowSign base bufSize)).
Proof.
  unfold readIntegerToken.
  destruct (bufSize <? 2); [apply adv_refl |].
  eapply advances_trans; [apply ms_skip_whitespace_advances |].
  destruct allowSign.
  - destruct (chr _ _ || chr _ _).
    + eapply advances_trans;
        [apply ms_getc_advances | apply readInteger_loop_advances].
    + apply readInteger_loop_advances.
  - apply readInteger_loop_advances.
Qed.

Lemma readFloat_loop_advances (fuel : nat) (bufSize : Z) (st : FloatSt)
    (ms : MemScanner) :
  advances ms (snd (readFloat_loop buffer fuel bufSize st ms)).
Proof.
  revert st ms. induction fuel as [| f IH]; intros st ms; simpl.
  - apply adv_refl.
  - destruct (ms_eof ms); [apply adv_refl |].
    destruct (float_classify st (ms_peek buffer ms)) as [st1 valid].
    destruct valid; simpl; [| apply adv_refl].
    eapply advances_trans; [apply ms_getc_advances | apply IH].
Qed.

Lemma readFloatToken_advances (ms : MemScanner) (bufSize : Z) :
  advances ms (snd (readFloatToken buffer ms bufSize)).
Proof.
  unfold readFloatToken.
  destruct (bufSize <? 2); [apply adv_refl |].
  eapply advances_trans; [apply ms_skip_whitespace_advances |].
  destruct (chr _ _ || chr _ _).
  - destruct (readFloat_loop _ _ _ _ _) as [st' ms'] eqn:E. simpl.
    eapply advances_trans; [apply ms_getc_advances |].
    change ms' with (snd (st', ms')). rewrite <- E.
    apply readFloat_loop_advances.
  - destruct (readFloat_loop _ _ _ _ _) as [st' ms'] eqn:E. simpl.
    change ms' with (snd (st', ms')). rewrite <- E.
    apply readFloat_loop_advances.
Qed.

Lemma readChar_advances (ms : MemScanner) :
  advances ms (snd (readChar buffer ms)).
Proof.
  unfold readChar. destruct (ms_eof ms) eqn:E; [apply adv_refl |].
  rewrite (ms_getc_not_eof _ E). simpl.
  apply advances_one, ms_eof_false, E.
Qed.

Lemma newline_loop_advances (fuel : nat) (ms : MemScanner) :
  advances ms (newline_loop buffer fuel ms).
Proof.
  revert ms. induction fuel as [| f IH]; intro ms; simpl.
  - apply adv_refl.
  - destruct (ms_eof ms) eqn:E; [apply adv_refl |].
    rewrite (ms_getc_not_eof _ E).
    pose proof (ms_eof_false _ E) as Hlt.
    destruct (chr _ LF); [apply advances_one, Hlt |].
    destruct (negb _).
    + rewrite ms_ungetc_in_range by (simpl; lia).
      apply advances_one, Hlt.
    + apply adv_next; [exact Hlt | apply IH].
Qed.

(** The fuel the wrappers supply is enough: a loop over the buffer gives
    the same result on any fuel that is at least the number of bytes left,
    so it is its condition, not the fuel, that ends it. *)
Lemma remaining_zero_eof (ms : MemScanner) :
  (remaining ms <= 0)%nat -> ms_eof ms = true.
Proof.
  unfold remaining, ms_eof. intro H. rewrite Z.geb_leb. apply Z.leb_le. lia.
Qed.

Lemma remaining_next (ms : MemScanner) (f : nat) :
  (remaining ms <= S f)%nat ->
  (remaining (set_ptr ms (ptr ms + 1)) <= f)%nat.
Proof. unfold remaining. simpl. lia. Qed.

Lemma remaining_getc (ms : MemScanner) (f : nat) :
  ms_eof ms = false ->
  (remaining ms <= S f)%nat ->
  (remaining (snd (ms_getc buffer ms)) <= f)%nat.
Proof.
  intros E H. rewrite (ms_getc_not_eof _ E). simpl snd.
  apply remaining_next, H.
Qed.

Lemma skip_whitespace_loop_fuel (f1 f2 : nat) (ms : MemScanner) :
  (remaining ms <= f1)%nat -> (remaining ms <= f2)%nat ->
  skip_whitespace_loop buffer f1 ms = skip_whitespace_loop buffer f2 ms.
Proof.
  revert f2 ms. induction f1 as [| f1 IH]; intros [| f2] ms H1 H2; simpl;
    try reflexivity;
    try (rewrite (remaining_zero_eof ms) by assumption; reflexivity).
  destruct (ms_eof ms); simpl; [reflexivity |].
  destruct (isspace _); [| reflexivity].
  apply IH; apply remaining_next; assumption.
Qed.

Lemma readString_loop_fuel (f1 f2 : nat) (w : Z) (dest : list ascii)
    (ms : MemScanner) :
  (remaining ms <= f1)%nat -> (remaining ms <= f2)%nat ->
  readString_loop buffer f1 w dest ms = readString_loop buffer f2 w dest ms.
Proof.
  revert f2 dest ms.
  induction f1 as [| f1 IH]; intros [| f2] dest ms H1 H2; simpl;
    try reflexivity;
    try (rewrite (remaining_zero_eof ms) by assumption; reflexivity).
  destruct (ms_eof ms) eqn:E; [reflexivity |].
  destruct (isspace _); [reflexivity |].
  apply IH; apply remaining_getc; assumption.
Qed.

Lemma readInteger_loop_fuel (f1 f2 : nat) (base bufSize : Z)
    (outBuf : list ascii) (got : bool) (ms : MemScanner) :
  (remaining ms <= f1)%nat -> (remaining ms <= f2)%nat ->
  readInteger_loop buffer f1 base bufSize outBuf got ms =
  readInteger_loop buffer f2 base bufSize outBuf got ms.
Proof.
  revert f2 outBuf got ms.
  induction f1 as [| f1 IH]; intros [| f2] outBuf got ms H1 H2; simpl;
    try reflexivity;
    try (rewrite (remaining_zero_eof ms) by assumption; reflexivity).
  destruct (ms_eof ms) eqn:E; [reflexivity |].
  destruct (negb _); [reflexivity |].
  apply IH; apply remaining_getc; assumption.
Qed.

Lemma readFloat_loop_fuel (f1 f2 : nat) (bufSize : Z) (st : FloatSt)
    (ms : MemScanner) :
  (remaining ms <= f1)%nat -> (remaining ms <= f2)%nat ->
  readFloat_loop buffer f1 bufSize st ms =
  readFloat_loop buffer f2 bufSize st ms.
Proof.
  revert f2 st ms.
  induction f1 as [| f1 IH]; intros [| f2] st ms H1 H2; simpl;
    try reflexivity;
    try (rewrite (remaining_zero_eof ms) by assumption; reflexivity).
  destruct (ms_eof ms) eqn:E; [reflexivity |].
  destruct (float_classify _ _) as [st1 valid].
  destruct (negb valid); [reflexivity |].
  apply IH; apply remaining_getc; assumption.
Qed.

Lemma newline_loop_fuel (f1 f2 : nat) (ms : MemScanner) :
  (remaining ms <= f1)%nat -> (remaining ms <= f2)%nat ->
  newline_loop buffer f1 ms = newline_loop buffer f2 ms.
Proof.
  revert f2 ms. induction f1 as [| f1 IH]; intros [| f2] ms H1 H2; simpl;
    try reflexivity;
    try (rewrite (remaining_zero_eof ms) by assumption; reflexivity).
  destruct (ms_eof ms) eqn:E; [reflexivity |].
  rewrite (ms_getc_not_eof _ E).
  destruct (chr _ LF); [reflexivity |].
  destruct (negb _); [reflexivity |].
  apply IH; apply remaining_next; assumption.
Qed.

(** Where [ms_skip_whitespace] stops, the buffer is at its end or the
    character is not whitespace. *)
Lemma skip_whitespace_loop_stops (fuel : nat) (ms : MemScanner) :
  (remaining ms <= fuel)%nat ->
  let ms' := skip_whitespace_loop buffer fuel ms in
  ms_eof ms' = true \/ isspace (deref buffer (ptr ms')) = false.
Proof.
  revert ms. induction fuel as [| f IH]; intros ms H; simpl.
  - left. apply remaining_zero_eof, H.
  - destruct (ms_eof ms) eqn:E; simpl; [now left |].
    destruct (isspace _) eqn:Sp; [| now right].
    apply IH, remaining_next, H.
Qed.

(** [readString] with a positive width [w] stores the first [w - 1]
    characters of the token and moves the cursor past the whole token. *)
Lemma readString_loop_token (fuel : nat) (w : Z) (dest tok : list ascii)
    (ms : MemScanner) :
  token_at buffer ms tok ->
  (remaining ms <= fuel)%nat ->
  exists ms' : MemScanner,
    readString_loop buffer fuel w dest ms =
    (dest ++ firstn (Z.to_nat (w - 1 - Z.of_nat (length dest))) tok, ms') /\
    ptr ms' = ptr ms + Z.of_nat (length tok).
Proof.
  intro T. revert fuel dest.
  induction T as [ms E | ms E Sp | ms tok E Sp T IH]; intros fuel dest Hf.
  - exists ms. rewrite firstn_nil, app_nil_r. simpl.
    split; [| lia]. destruct fuel; simpl; [reflexivity | now rewrite E].
  - exists ms. rewrite firstn_nil, app_nil_r. simpl.
    split; [| lia]. destruct fuel; simpl; [reflexivity |].
    unfold ms_peek. now rewrite E, Sp.
  - destruct fuel as [| f].
    { apply remaining_zero_eof in Hf. congruence. }
    simpl. unfold ms_peek. rewrite E, Sp, (ms_getc_not_eof _ E). simpl snd.
    pose proof (remaining_next ms f Hf) as Hf'.
    destruct (Z.of_nat (length dest) <? w - 1) eqn:C.
    + apply Z.ltb_lt in C.
      destruct (IH f (dest ++ [deref buffer (ptr ms)]) Hf')
        as (ms' & Hrun & Hp).
      exists ms'. rewrite Hrun. simpl in Hp. split; [| simpl length; lia].
      rewrite <- app_assoc. simpl. do 2 f_equal.
      rewrite length_app. simpl length.
      replace (Z.to_nat (w - 1 - Z.of_nat (length dest)))
        with (S (Z.to_nat (w - 1 - Z.of_nat (length dest + 1)))) by lia.
      reflexivity.
    + apply Z.ltb_ge in C.
      destruct (IH f dest Hf') as (ms' & Hrun & Hp).
      exists ms'. rewrite Hrun. simpl in Hp. split; [| simpl length; lia].
      replace (Z.to_nat (w - 1 - Z.of_nat (length dest))) with O by lia.
      reflexivity.
Qed.

Lemma readString_token (ms : MemScanner) (w : Z) (tok : list ascii) :
  0 < w ->
  token_at buffer (ms_skip_whitespace buffer ms) tok ->
  exists ms' : MemScanner,
    readString buffer ms w =
    (0 <? Z.of_nat (length (firstn (Z.to_nat (w - 1)) tok)),
     firstn (Z.to_nat (w - 1)) tok, ms') /\
    ptr ms' = ptr (ms_skip_whitespace buffer ms) + Z.of_nat (length tok).
Proof.
  intros Hw T. unfold readString.
  replace (w <=? 0) with false by (symmetry; apply Z.leb_gt, Hw).
  cbv zeta.
  destruct (readString_loop_token _ w [] _ _ T (le_n _)) as (ms' & Hrun & Hp).
  exists ms'. rewrite Hrun. simpl app. simpl length.
  rewrite Z.sub_0_r. split; [reflexivity | exact Hp].
Qed.

(** At the end of the buffer nothing moves and no scanner succeeds. *)
Lemma advances_eof (ms ms' : MemScanner) :
  advances ms ms' -> ms_eof ms = true -> ms' = ms.
Proof.
  intros [| ? ? Hlt _] E; [reflexivity |].
  apply ms_eof_true in E. lia.
Qed.

Lemma ms_skip_whitespace_eof (ms : MemScanner) :
  ms_eof ms = true -> ms_skip_whitespace buffer ms = ms.
Proof.
  intro E. unfold ms_skip_whitespace. now rewrite (remaining_eof _ E).
Qed.

Lemma ms_peek_eof (ms : MemScanner) :
  ms_eof ms = true -> ms_peek buffer ms = NUL.
Proof. intro E. unfold ms_peek. now rewrite E. Qed.

Lemma readIntegerToken_eof (ms : MemScanner) (allowSign : bool) (base : Z) :
  ms_eof ms = true ->
  readIntegerToken buffer ms allowSign base 128 = (false, [], ms).
Proof.
  intro E. unfold readIntegerToken. simpl (128 <? 2).
  rewrite (ms_skip_whitespace_eof _ E), (ms_peek_eof _ E).
  change (chr NUL "+" || chr NUL "-") with false.
  destruct allowSign; now rewrite (remaining_eof _ E).
Qed.

Lemma readFloatToken_eof (ms : MemScanner) :
  ms_eof ms = true -> readFloatToken buffer ms 256 = (false, [], ms).
Proof.
  intro E. unfold readFloatToken. simpl (256 <? 2).
  rewrite (ms_skip_whitespace_eof _ E), (ms_peek_eof _ E).
  change (chr NUL "+" || chr NUL "-") with false. cbv beta iota zeta.
  now rewrite (remaining_eof _ E).
Qed.

Lemma readChar_eof (ms : MemScanner) :
  ms_eof ms = true -> readChar buffer ms = (None, ms).
Proof. intro E. unfold readChar. now rewrite E. Qed.

Lemma readString_eof (ms : MemScanner) (w : Z) :
  ms_eof ms = true -> readString buffer ms w = (false, [], ms).
Proof.
  intro E. unfold readString. cbv zeta.
  rewrite (ms_skip_whitespace_eof _ E). now rewrite (remaining_eof _ E).
Qed.

End ScannerFacts.

(** ** Facts about the walk over the format *)


Lemma chr_eq (c d : ascii) : chr c d = true -> c = d.
Proof. apply Ascii.eqb_eq. Qed.

Lemma suffix_refl (f : list ascii) : suffix f f.
Proof. now exists []. Qed.

Lemma suffix_trans (f g h : list ascii) :
  suffix f g -> suffix g h -> suffix f h.
Proof.
  intros [p Hp] [q Hq]. exists (q ++ p). now rewrite Hq, Hp, app_assoc.
Qed.

Lemma suffix_advance (f : list ascii) : suffix (advance f) f.
Proof.
  destruct f as [| c r]; [apply suffix_refl | now exists [c]].
Qed.

Lemma suffix_skip_precision (f : list ascii) : suffix (skip_precision f) f.
Proof.
  induction f as [| c r IH]; simpl; [apply suffix_refl |].
  destruct (chr c "." || isdigit c); [| apply suffix_refl].
  eapply suffix_trans; [exact IH | now exists [c]].
Qed.

Lemma suffix_gather_width (w f : list ascii) :
  suffix (snd (gather_width w f)) f.
Proof.
  revert w. induction f as [| c r IH]; intro w; simpl;
    [apply suffix_refl |].
  destruct (isdigit c && _); simpl; [| apply suffix_refl].
  eapply suffix_trans; [apply IH | now exists [c]].
Qed.

Lemma suffix_length (f' f : list ascii) :
  suffix f' f -> (length f' <= length f)%nat.
Proof. intros [p ->]. rewrite length_app. lia. Qed.

Lemma suffix_directives (f' f : list ascii) :
  suffix f' f -> (directives f' <= directives f)%nat.
Proof. intros [p ->]. unfold directives. rewrite count_occ_app. lia. Qed.

Lemma cur_advance (format : list ascii) :
  chr (cur format) NUL = false -> format = cur format :: advance format.
Proof.
  destruct format as [| c r]; simpl; [| reflexivity].
  intro H. vm_compute in H. discriminate H.
Qed.

Section InterpreterFacts.

Variable buffer : list ascii.

Lemma conv_d_effect (isShort isLong : bool) (s : Scan) :
  conv_effect s (conv_d buffer isShort isLong s).
Proof.
  unfold conv_effect, conv_d.
  pose proof (readIntegerToken_advances buffer (sc_ms s) true 10 128) as A.
  pose proof (readIntegerToken_eof buffer (sc_ms s) true 10) as E.
  destruct (readIntegerToken _ _ _ _ _) as [[got tok] ms]. simpl in A.
  destruct got; simpl; [| repeat split; assumption].
  destruct (ms_eof (sc_ms s)); [now specialize (E eq_refl) |].
  destruct isShort, isLong, (from_chars_long tok 10);
    simpl; repeat split; eauto.
Qed.

Lemma conv_unsigned_effect (base : Z) (isShort isLong : bool) (s : Scan) :
  conv_effect s (conv_unsigned buffer base isShort isLong s).
Proof.
  unfold conv_effect, conv_unsigned.
  pose proof (readIntegerToken_advances buffer (sc_ms s) false base 128) as A.
  pose proof (readIntegerToken_eof buffer (sc_ms s) false base) as E.
  destruct (readIntegerToken _ _ _ _ _) as [[got tok] ms]. simpl in A.
  destruct got; simpl; [| repeat split; assumption].
  destruct (ms_eof (sc_ms s)); [now specialize (E eq_refl) |].
  destruct isShort, isLong, (from_chars_ulong tok base);
    simpl; repeat split; eauto.
Qed.

Lemma conv_f_effect (isLong isLongDouble : bool) (s : Scan) :
  conv_effect s (conv_f buffer isLong isLongDouble s).
Proof.
  unfold conv_effect, conv_f.
  pose proof (readFloatToken_advances buffer (sc_ms s) 256) as A.
  pose proof (readFloatToken_eof buffer (sc_ms s)) as E.
  destruct (readFloatToken _ _ _) as [[got tok] ms]. simpl in A.
  destruct got; simpl; [| repeat split; assumption].
  destruct (ms_eof (sc_ms s)); [now specialize (E eq_refl) |].
  destruct isLongDouble, isLong, (from_chars_double tok), (strtod tok);
    simpl; repeat split; eauto.
Qed.

Lemma conv_c_effect (s : Scan) : conv_effect s (conv_c buffer s).
Proof.
  unfold conv_effect, conv_c. simpl.
  pose proof (readChar_advances buffer (sc_ms s)) as A.
  pose proof (readChar_eof buffer (sc_ms s)) as E.
  destruct (readChar _ _) as [[c |] ms]; simpl in *;
    [| repeat split; eauto].
  destruct (ms_eof (sc_ms s)); [now specialize (E eq_refl) |].
  repeat split; eauto.
Qed.

Lemma conv_s_effect (w : Z) (s : Scan) : conv_effect s (conv_s buffer w s).
Proof.
  unfold conv_effect, conv_s. simpl.
  pose proof (readString_advances buffer (sc_ms s)
                (if 0 <? w then w else 1024)) as A.
  pose proof (readString_eof buffer (sc_ms s)
                (if 0 <? w then w else 1024)) as E.
  destruct (readString _ _ _) as [[got dest] ms]. simpl in A.
  destruct got; simpl; [| repeat split; eauto].
  destruct (ms_eof (sc_ms s)); [now specialize (E eq_refl) |].
  repeat split; eauto.
Qed.

Lemma convert_effect (spec : ascii) (isShort isLong isLongDouble : bool)
    (w : Z) (s : Scan) :
  conv_effect s (convert buffer spec isShort isLong isLongDouble w s).
Proof.
  unfold convert.
  destruct (chr spec "d"); [apply conv_d_effect |].
  destruct (chr spec "u"); [apply conv_unsigned_effect |].
  destruct (chr spec "x"); [apply conv_unsigned_effect |].
  destruct (chr spec "f" || chr spec "g" || chr spec "e");
    [apply conv_f_effect |].
  destruct (chr spec "c"); [apply conv_c_effect |].
  destruct (chr spec "s"); [apply conv_s_effect |].
  repeat split; simpl; auto using adv_refl.
Qed.

Lemma step_effect_holds (s : Scan) (format : list ascii) :
  step_effect s format (step buffer s format).
Proof.
  unfold step.
  destruct (chr (cur format) "%") eqn:Epct.
  - pose proof (suffix_skip_precision (advance format)) as Hsp.
    set (f1 := skip_precision (advance format)) in *.
    assert (Hmod : forall f2 : list ascii,
      suffix f2 f1 ->
      forall a b c : bool,
      step_effect s format
        (let '(strWidth, format0) :=
           if isdigit (cur f2)
           then let '(widthStr, format0) := gather_width [] f2 in
                (atoi widthStr, format0)
           else (0, f2) in
         let spec := cur format0 in
         if chr spec NUL then Break s
         else
           let format1 := advance format0 in
           let '(success, s0) := convert buffer spec a b c strWidth s in
           if success
           then Continue (mkScan (sc_ms s0) (sc_va s0) (sc_matched s0 + 1)
                                 (sc_slots s0)) format1
           else Break s0)).
    { intros f2 Hf2 a b c.
      assert (Hw : forall (w : Z) (f3 : list ascii),
        suffix f3 f2 ->
        step_effect s format
          (let spec := cur f3 in
           if chr spec NUL then Break s
           else
             let format1 := advance f3 in
             let '(success, s0) := convert buffer spec a b c w s in
             if success
             then Continue (mkScan (sc_ms s0) (sc_va s0) (sc_matched s0 + 1)
                                   (sc_slots s0)) format1
             else Break s0)).
      { intros w f3 Hf3. cbv zeta.
        destruct (chr (cur f3) NUL).
        - simpl. auto using adv_refl.
        - pose proof (convert_effect (cur f3) a b c w s) as (A & M & R).
          destruct (convert _ _ _ _ _ _ _) as [ok s0]. simpl in A, M, R.
          destruct ok; simpl.
          + destruct R as (Hne & Hva & v & Hv).
            split.
            { eapply suffix_trans; [apply suffix_advance |].
              eapply suffix_trans; [exact Hf3 |].
              eapply suffix_trans; [exact Hf2 | exact Hsp]. }
            split; [exact A |]. right.
            repeat split; eauto. lia.
          + auto. }
      destruct (isdigit (cur f2)).
      - pose proof (suffix_gather_width [] f2) as Hg.
        destruct (gather_width [] f2) as [widthStr f3]. simpl in Hg.
        apply Hw, Hg.
      - apply Hw, suffix_refl. }
    destruct (chr (cur f1) "h"); [apply Hmod, suffix_advance |].
    destruct (chr (cur f1) "l"); [apply Hmod, suffix_advance |].
    destruct (chr (cur f1) "L"); [apply Hmod, suffix_advance |].
    apply Hmod, suffix_refl.
  - destruct (isspace (cur format)).
    { simpl. split; [apply suffix_refl |].
      split; [apply ms_skip_whitespace_advances | auto]. }
    destruct (chr (cur format) LF).
    { simpl. split; [apply suffix_refl |].
      split; [apply newline_loop_advances | auto]. }
    pose proof (ms_skip_whitespace_advances buffer (sc_ms s)) as A.
    set (ms1 := ms_skip_whitespace buffer (sc_ms s)) in *.
    destruct (ms_eof ms1) eqn:E; [simpl; auto |].
    rewrite (ms_getc_not_eof _ _ E).
    pose proof (ms_eof_false _ E) as Hp.
    assert (A2 : advances (sc_ms s) (set_ptr ms1 (ptr ms1 + 1))).
    { eapply advances_trans; [exact A | apply advances_one, Hp]. }
    destruct (negb _); simpl.
    + rewrite ms_ungetc_in_range by (simpl; lia). auto.
    + split; [apply suffix_refl |]. split; [exact A2 | auto].
Qed.

(** The loop returns, the cursor has only advanced, and [matchedCount] has
    grown by the number of stores made, one per conversion directive passed
    and in the order of the argument list. *)
Lemma scan_loop_effect (fuel : nat) (s : Scan) (format : list ascii) :
  (length format <= fuel)%nat ->
  exists (s' : Scan) (vals : list Value),
    scan_loop buffer fuel s format = Some s' /\
    advances (sc_ms s) (sc_ms s') /\
    sc_matched s' = sc_matched s + Z.of_nat (length vals) /\
    sc_slots s' = store_from (sc_va s) vals (sc_slots s) /\
    (length vals <= directives format)%nat /\
    (ms_eof (sc_ms s) = true -> vals = []).
Proof.
  revert s format. induction fuel as [| f IH]; intros s format Hlen.
  - destruct format; [| simpl in Hlen; lia].
    exists s, []. simpl. repeat split; auto using adv_refl; lia.
  - simpl. destruct (chr (cur format) NUL) eqn:Hnz.
    { exists s, []. simpl. repeat split; auto using adv_refl; lia. }
    pose proof (step_effect_holds s format) as Hst.
    pose proof (cur_advance format Hnz) as Hcur.
    destruct (step buffer s format) as [s1 format1 | s1]; simpl in Hst.
    + destruct Hst as (Hsuf & A & Hcase).
      assert (Hl1 : (length format1 <= f)%nat).
      { apply suffix_length in Hsuf. rewrite Hcur in Hlen. simpl in Hlen.
        lia. }
      destruct (IH s1 format1 Hl1)
        as (s' & vals & Hrun & A' & M & Sl & D & Ev).
      pose proof (suffix_directives _ _ Hsuf) as Hd.
      assert (Hd2 : (directives (advance format) <= directives format)%nat)
        by apply suffix_directives, suffix_advance.
      destruct Hcase as [(Hva & Hm & Hs) | (Hva & Hm & Hp & Hne & v & Hs)].
      * exists s', vals. rewrite Hrun.
        repeat split;
          [eapply advances_trans; eauto | lia | congruence | lia |].
        intro E. apply Ev. now rewrite (advances_eof _ _ A E).
      * exists s', (v :: vals). rewrite Hrun.
        repeat split; [| | | | congruence].
        -- eapply advances_trans; eauto.
        -- simpl length. lia.
        -- simpl. rewrite <- Hs, <- Hva. exact Sl.
        -- apply chr_eq in Hp. rewrite Hcur, Hp. unfold directives in *.
           simpl. destruct (ascii_dec "%" "%") as [_ | N];
             [| now elim N].
           simpl length. lia.
    + destruct Hst as (A & M & Sl).
      exists s1, []. simpl. repeat split; auto; lia.
Qed.

End InterpreterFacts.

(** ** Facts about stores and histories *)

Lemma store_length (i : nat) (v : Value) (slots : list Value) :
  length (store i v slots) = length slots.
Proof.
  revert i. induction slots as [| x r IH]; intro i; simpl; [reflexivity |].
  destruct i; simpl; [reflexivity | now rewrite IH].
Qed.

Lemma store_other (i j : nat) (v : Value) (slots : list Value) :
  j <> i -> nth_error (store i v slots) j = nth_error slots j.
Proof.
  revert i j. induction slots as [| x r IH]; intros i j Hne; simpl;
    [reflexivity |].
  destruct i, j; simpl; try reflexivity; try congruence.
  apply IH. congruence.
Qed.

Lemma store_from_length (i : nat) (vals slots : list Value) :
  length (store_from i vals slots) = length slots.
Proof.
  revert i slots. induction vals as [| v r IH]; intros i slots; simpl;
    [reflexivity |].
  now rewrite IH, store_length.
Qed.

Lemma store_from_other (i j : nat) (vals slots : list Value) :
  (j < i \/ i + length vals <= j)%nat ->
  nth_error (store_from i vals slots) j = nth_error slots j.
Proof.
  revert i slots. induction vals as [| v r IH]; intros i slots H; simpl;
    [reflexivity |].
  simpl in H. rewrite IH by lia. apply store_other. lia.
Qed.

Lemma countdown_bound (hi : Z) (k : nat) :
  Forall (fun p => p <= hi) (countdown hi k).
Proof.
  revert hi. induction k as [| k IH]; intro hi; simpl; constructor; [lia |].
  eapply Forall_impl; [| apply (IH (hi - 1))]. simpl. intros; lia.
Qed.

Lemma countdown_nondecreasing (hi : Z) (k : nat) :
  nondecreasing (countdown hi k ++ [hi - Z.of_nat k]).
Proof.
  revert hi. induction k as [| k IH]; intro hi; [exact I |].
  specialize (IH (hi - 1)).
  replace (hi - Z.of_nat (S k)) with (hi - 1 - Z.of_nat k) by lia.
  change (countdown hi (S k)) with (hi :: countdown (hi - 1) k).
  destruct k as [| k']; simpl in *; (split; [lia | exact IH]).
Qed.

(** Every call returns.  The cursor went from [offset] to the offset
    returned through consecutive positions; the return value counts the
    stores made, one per matched conversion and in argument order; at the end
    of the buffer nothing is matched and nothing moves. *)
Lemma run_effect (buffer : list ascii) (size offset : Z)
    (format : list ascii) (slots : list Value) :
  exists (s' : Scan) (vals : list Value) (k : nat),
    fast_fscanf_run buffer size offset format slots = Some s' /\
    ptr (sc_ms s') = offset + Z.of_nat k /\
    hist (sc_ms s') = countdown (offset + Z.of_nat k) k ++ [offset] /\
    (offset <= size -> offset + Z.of_nat k <= size) /\
    sc_matched s' = Z.of_nat (length vals) /\
    sc_slots s' = store_from 0 vals slots /\
    (length vals <= directives format)%nat /\
    (size <= offset -> vals = [] /\ k = O).
Proof.
  unfold fast_fscanf_run.
  destruct (scan_loop_effect buffer (length format)
              (scan_init size offset slots) format (le_n _))
    as (s' & vals & Hrun & A & M & Sl & D & Ev).
  destruct (advances_hist _ _ A) as (k & Hp & Hh & Hle).
  simpl in Hp, Hh, Hle, M, Sl, Ev.
  exists s', vals, k.
  split; [assumption |]. split; [assumption |].
  split; [rewrite <- Hp; assumption |].
  split; [rewrite <- Hp; exact Hle |].
  split; [rewrite M; lia |]. split; [assumption |]. split; [assumption |].
  intro H.
  assert (E : ms_eof (mkMS offset size [offset]) = true).
  { unfold ms_eof. simpl. rewrite Z.geb_leb. now apply Z.leb_le. }
  split; [exact (Ev E) |].
  pose proof (advances_eof _ _ A E) as Heq.
  rewrite Heq in Hp. simpl in Hp. lia.
Qed.

(** ** The conversion branch, in two parts *)

Lemma step_percent (buffer : list ascii) (s : Scan) (format : list ascii) :
  chr (cur format) "%" = true ->
  step buffer s format =
  step_conversion buffer s (directive_header (advance format)).
Proof.
  intro H. unfold step, step_conversion, directive_header. rewrite H.
  cbv zeta.
  destruct (chr (cur (skip_precision (advance format))) "h");
    [| destruct (chr (cur (skip_precision (advance format))) "l");
       [| destruct (chr (cur (skip_precision (advance format))) "L")]].
  all: match goal with
       | |- context [isdigit (cur ?f)] =>
           destruct (isdigit (cur f));
           [destruct (gather_width [] f) |]
       end; reflexivity.
Qed.

Lemma step_other (buffer : list ascii) (s : Scan) (format : list ascii) :
  chr (cur format) "%" = false ->
  step buffer s format =
  if isspace (cur format) then
    Continue (with_ms s (ms_skip_whitespace buffer (sc_ms s))) (advance format)
  else if chr (cur format) LF then
    Continue (with_ms s (newline_loop buffer (remaining (sc_ms s)) (sc_ms s)))
             (advance format)
  else
    let ms := ms_skip_whitespace buffer (sc_ms s) in
    if ms_eof ms then Break (with_ms s ms)
    else
      let '(c, ms) := ms_getc buffer ms in
      if negb (chr c (cur format)) then Break (with_ms s (ms_ungetc ms))
      else Continue (with_ms s ms) (advance format).
Proof. intro H. unfold step. now rewrite H. Qed.

(** ** Bytes at and after [size] are never read *)

Lemma within_advances (size : Z) (ms ms' : MemScanner) :
  within size ms -> advances ms ms' -> within size ms'.
Proof.
  intros [He Hp] A. split.
  - now rewrite (advances_end _ _ A).
  - pose proof (advances_le _ _ A). lia.
Qed.

Section Agreement.

Variables (size : Z) (b1 b2 : list ascii).
Hypothesis Hagree : agree size b1 b2.

Lemma ms_peek_agree (ms : MemScanner) :
  within size ms -> ms_peek b1 ms = ms_peek b2 ms.
Proof.
  intros [He Hp]. unfold ms_peek. destruct (ms_eof ms) eqn:E;
    [reflexivity |].
  apply Hagree. apply ms_eof_false in E. lia.
Qed.

Lemma ms_getc_agree (ms : MemScanner) :
  within size ms -> ms_getc b1 ms = ms_getc b2 ms.
Proof.
  intros [He Hp]. unfold ms_getc. destruct (ms_eof ms) eqn:E;
    [reflexivity |].
  f_equal. apply Hagree. apply ms_eof_false in E. lia.
Qed.

Lemma within_getc (ms : MemScanner) :
  within size ms -> within size (snd (ms_getc b2 ms)).
Proof. intro W. eapply within_advances, ms_getc_advances. exact W. Qed.

Lemma skip_whitespace_loop_agree (fuel : nat) (ms : MemScanner) :
  within size ms ->
  skip_whitespace_loop b1 fuel ms = skip_whitespace_loop b2 fuel ms.
Proof.
  revert ms. induction fuel as [| f IH]; intros ms W; simpl;
    [reflexivity |].
  destruct (ms_eof ms) eqn:E; simpl; [reflexivity |].
  destruct W as [He Hp]. pose proof (ms_eof_false _ E) as Hlt.
  rewrite (Hagree (ptr ms)) by lia.
  destruct (isspace _); [| reflexivity].
  apply IH. split; simpl; lia.
Qed.

Lemma ms_skip_whitespace_agree (ms : MemScanner) :
  within size ms -> ms_skip_whitespace b1 ms = ms_skip_whitespace b2 ms.
Proof. apply skip_whitespace_loop_agree. Qed.

Lemma within_skip (ms : MemScanner) :
  within size ms -> within size (ms_skip_whitespace b2 ms).
Proof.
  intro W. eapply within_advances, ms_skip_whitespace_advances. exact W.
Qed.

Lemma readString_loop_agree (fuel : nat) (w : Z) (dest : list ascii)
    (ms : MemScanner) :
  within size ms ->
  readString_loop b1 fuel w dest ms = readString_loop b2 fuel w dest ms.
Proof.
  revert dest ms. induction fuel as [| f IH]; intros dest ms W; simpl;
    [reflexivity |].
  destruct (ms_eof ms); [reflexivity |].
  rewrite (ms_peek_agree _ W), (ms_getc_agree _ W).
  destruct (isspace _); [reflexivity |].
  apply IH, within_getc, W.
Qed.

Lemma readString_agree (ms : MemScanner) (w : Z) :
  within size ms -> readString b1 ms w = readString b2 ms w.
Proof.
  intro W. unfold readString. cbv zeta.
  rewrite (ms_skip_whitespace_agree _ W).
  now rewrite (readString_loop_agree _ _ _ _ (within_skip _ W)).
Qed.

Lemma readInteger_loop_agree (fuel : nat) (base bufSize : Z)
    (outBuf : list ascii) (got : bool) (ms : MemScanner) :
  within size ms ->
  readInteger_loop b1 fuel base bufSize outBuf got ms =
  readInteger_loop b2 fuel base bufSize outBuf got ms.
Proof.
  revert outBuf got ms.
  induction fuel as [| f IH]; intros outBuf got ms W; simpl;
    [reflexivity |].
  destruct (ms_eof ms); [reflexivity |].
  rewrite (ms_peek_agree _ W), (ms_getc_agree _ W).
  destruct (negb _); [reflexivity |].
  apply IH, within_getc, W.
Qed.

Lemma readIntegerToken_agree (ms : MemScanner) (allowSign : bool)
    (base bufSize : Z) :
  within size ms ->
  readIntegerToken b1 ms allowSign base bufSize =
  readIntegerToken b2 ms allowSign base bufSize.
Proof.
  intro W. unfold readIntegerToken.
  destruct (bufSize <? 2); [reflexivity |]. cbv zeta.
  rewrite (ms_skip_whitespace_agree _ W).
  pose proof (within_skip _ W) as W1.
  rewrite (ms_peek_agree _ W1), (ms_getc_agree _ W1).
  destruct allowSign; [destruct (chr _ _ || chr _ _) |];
    apply readInteger_loop_agree;
    try exact W1; apply within_getc, W1.
Qed.

Lemma readFloat_loop_agree (fuel : nat) (bufSize : Z) (st : FloatSt)
    (ms : MemScanner) :
  within size ms ->
  readFloat_loop b1 fuel bufSize st ms = readFloat_loop b2 fuel bufSize st ms.
Proof.
  revert st ms. induction fuel as [| f IH]; intros st ms W; simpl;
    [reflexivity |].
  destruct (ms_eof ms); [reflexivity |].
  rewrite (ms_peek_agree _ W), (ms_getc_agree _ W).
  destruct (float_classify _ _) as [st1 valid].
  destruct (negb valid); [reflexivity |].
  apply IH, within_getc, W.
Qed.

Lemma readFloatToken_agree (ms : MemScanner) (bufSize : Z) :
  within size ms ->
  readFloatToken b1 ms bufSize = readFloatToken b2 ms bufSize.
Proof.
  intro W. unfold readFloatToken.
  destruct (bufSize <? 2); [reflexivity |]. cbv zeta.
  rewrite (ms_skip_whitespace_agree _ W).
  pose proof (within_skip _ W) as W1.
  rewrite (ms_peek_agree _ W1), (ms_getc_agree _ W1).
  destruct (chr _ _ || chr _ _).
  - now rewrite (readFloat_loop_agree _ _ _ _ (within_getc _ W1)).
  - now rewrite (readFloat_loop_agree _ _ _ _ W1).
Qed.

Lemma readChar_agree (ms : MemScanner) :
  within size ms -> readChar b1 ms = readChar b2 ms.
Proof.
  intro W. unfold readChar. now rewrite (ms_getc_agree _ W).
Qed.

Lemma newline_loop_agree (fuel : nat) (ms : MemScanner) :
  within size ms -> newline_loop b1 fuel ms = newline_loop b2 fuel ms.
Proof.
  revert ms. induction fuel as [| f IH]; intros ms W; simpl;
    [reflexivity |].
  destruct (ms_eof ms); [reflexivity |].
  rewrite (ms_getc_agree _ W).
  pose proof (within_getc _ W) as W1.
  destruct (ms_getc b2 ms) as [c ms']. simpl in W1.
  destruct (chr c LF); [reflexivity |].
  destruct (negb _); [reflexivity | apply IH, W1].
Qed.

Lemma convert_agree (spec : ascii) (isShort isLong isLongDouble : bool)
    (w : Z) (s : Scan) :
  within size (sc_ms s) ->
  convert b1 spec isShort isLong isLongDouble w s =
  convert b2 spec isShort isLong isLongDouble w s.
Proof.
  intro W.
  unfold convert, conv_u, conv_x, conv_d, conv_unsigned, conv_f, conv_c,
    conv_s, va_arg. cbv zeta. simpl sc_ms.
  rewrite !(readIntegerToken_agree _ _ _ _ W), (readFloatToken_agree _ _ W),
    (readChar_agree _ W), (readString_agree _ _ W).
  reflexivity.
Qed.

Lemma step_agree (s : Scan) (format : list ascii) :
  within size (sc_ms s) -> step b1 s format = step b2 s format.
Proof.
  intro W. destruct (chr (cur format) "%") eqn:E.
  - rewrite !(step_percent _ _ _ E). unfold step_conversion.
    destruct (directive_header _) as [[[[a b] c] w] f].
    now rewrite (convert_agree _ _ _ _ _ _ W).
  - rewrite !(step_other _ _ _ E). cbv zeta.
    rewrite (ms_skip_whitespace_agree _ W), (newline_loop_agree _ _ W).
    now rewrite (ms_getc_agree _ (within_skip _ W)).
Qed.

Lemma scan_loop_agree (fuel : nat) (s : Scan) (format : list ascii) :
  within size (sc_ms s) ->
  scan_loop b1 fuel s format = scan_loop b2 fuel s format.
Proof.
  revert s format. induction fuel as [| f IH]; intros s format W; simpl;
    [reflexivity |].
  destruct (chr (cur format) NUL); [reflexivity |].
  rewrite (step_agree _ _ W).
  pose proof (step_effect_holds b2 s format) as Hst.
  destruct (step b2 s format) as [s1 f1 | s1]; [| reflexivity].
  destruct Hst as (_ & A & _).
  apply IH. eapply within_advances; eassumption.
Qed.

End Agreement.

(** ** A newline of the format is a whitespace character of the format *)

Lemma nl_as_sp_cur (f1 f2 : list ascii) :
  Forall2 nl_as_sp f1 f2 -> nl_as_sp (cur f1) (cur f2).
Proof. intros [| a b r1 r2 H _]; [now left | exact H]. Qed.

Lemma nl_as_sp_advance (f1 f2 : list ascii) :
  Forall2 nl_as_sp f1 f2 -> Forall2 nl_as_sp (advance f1) (advance f2).
Proof. intros [| a b r1 r2 _ H]; [constructor | exact H]. Qed.

(** The tests the interpreter applies to a character of the format. *)
Lemma nl_as_sp_isdigit (a b : ascii) :
  nl_as_sp a b -> isdigit a = isdigit b.
Proof. intros [-> | [-> ->]]; reflexivity. Qed.

Lemma nl_as_sp_isspace (a b : ascii) :
  nl_as_sp a b -> isspace a = isspace b.
Proof. intros [-> | [-> ->]]; reflexivity. Qed.

Lemma nl_as_sp_chr (a b c : ascii) :
  nl_as_sp a b -> isspace c = false -> chr a c = chr b c.
Proof.
  intros [-> | [-> ->]] Hc; [reflexivity |].
  unfold chr. destruct (Ascii.eqb LF c) eqn:E1.
  - apply Ascii.eqb_eq in E1. subst c. discriminate Hc.
  - destruct (Ascii.eqb SP c) eqn:E2; [| reflexivity].
    apply Ascii.eqb_eq in E2. subst c. discriminate Hc.
Qed.

Lemma nl_as_sp_not_space (a b : ascii) :
  nl_as_sp a b -> isspace a = false -> a = b.
Proof. intros [-> | [-> ->]] H; [reflexivity | discriminate H]. Qed.

Lemma nl_as_sp_skip_precision (f1 f2 : list ascii) :
  Forall2 nl_as_sp f1 f2 ->
  Forall2 nl_as_sp (skip_precision f1) (skip_precision f2).
Proof.
  induction 1 as [| a b r1 r2 Hab Hr IH]; simpl; [constructor |].
  rewrite (nl_as_sp_chr a b "." Hab eq_refl), (nl_as_sp_isdigit a b Hab).
  destruct (chr b "." || isdigit b); [exact IH | now constructor].
Qed.

Lemma nl_as_sp_gather_width (w f1 f2 : list ascii) :
  Forall2 nl_as_sp f1 f2 ->
  fst (gather_width w f1) = fst (gather_width w f2) /\
  Forall2 nl_as_sp (snd (gather_width w f1)) (snd (gather_width w f2)).
Proof.
  intro H. revert w.
  induction H as [| a b r1 r2 Hab Hr IH]; intro w; simpl;
    [split; [reflexivity | constructor] |].
  rewrite (nl_as_sp_isdigit a b Hab).
  destruct (isdigit b) eqn:D; simpl; [| split; [reflexivity |]].
  - assert (a = b) as ->.
    { destruct Hab as [-> | [-> ->]]; [reflexivity | discriminate D]. }
    destruct (_ <? 15); [apply IH | split; [reflexivity |]].
    constructor; [now left | exact Hr].
  - now constructor.
Qed.

Lemma nl_as_sp_directive_header (f1 f2 : list ascii) :
  Forall2 nl_as_sp f1 f2 ->
  let '(a1, b1, c1, w1, r1) := directive_header f1 in
  let '(a2, b2, c2, w2, r2) := directive_header f2 in
  a1 = a2 /\ b1 = b2 /\ c1 = c2 /\ w1 = w2 /\ Forall2 nl_as_sp r1 r2.
Proof.
  intro H. unfold directive_header. cbv zeta.
  apply nl_as_sp_skip_precision in H.
  set (g1 := skip_precision f1) in *. set (g2 := skip_precision f2) in *.
  assert (Hw : forall h1 h2 : list ascii, Forall2 nl_as_sp h1 h2 ->
    forall a b c : bool,
    let '(a1, b1, c1, w1, r1) :=
      let '(strWidth, format) :=
        if isdigit (cur h1)
        then let '(widthStr, format) := gather_width [] h1 in
             (atoi widthStr, format)
        else (0, h1) in (a, b, c, strWidth, format) in
    let '(a2, b2, c2, w2, r2) :=
      let '(strWidth, format) :=
        if isdigit (cur h2)
        then let '(widthStr, format) := gather_width [] h2 in
             (atoi widthStr, format)
        else (0, h2) in (a, b, c, strWidth, format) in
    a1 = a2 /\ b1 = b2 /\ c1 = c2 /\ w1 = w2 /\ Forall2 nl_as_sp r1 r2).
  { intros h1 h2 Hh a b c.
    rewrite (nl_as_sp_isdigit _ _ (nl_as_sp_cur _ _ Hh)).
    destruct (isdigit (cur h2)); [| auto 6].
    destruct (nl_as_sp_gather_width [] _ _ Hh) as [Hf Hs].
    destruct (gather_width [] h1) as [w1 r1].
    destruct (gather_width [] h2) as [w2 r2].
    simpl in Hf, Hs. subst w2. auto 6. }
  pose proof (nl_as_sp_cur _ _ H) as Hc.
  rewrite (nl_as_sp_chr _ _ "h" Hc eq_refl),
    (nl_as_sp_chr _ _ "l" Hc eq_refl), (nl_as_sp_chr _ _ "L" Hc eq_refl).
  destruct (chr (cur g2) "h"); [apply Hw, nl_as_sp_advance, H |].
  destruct (chr (cur g2) "l"); [apply Hw, nl_as_sp_advance, H |].
  destruct (chr (cur g2) "L"); [apply Hw, nl_as_sp_advance, H |].
  apply Hw, H.
Qed.

Lemma convert_space (buffer : list ascii) (a b c : bool) (w : Z)
    (s : Scan) :
  convert buffer LF a b c w s = convert buffer SP a b c w s.
Proof. reflexivity. Qed.

Lemma nl_as_sp_step (buffer : list ascii) (s : Scan) (f1 f2 : list ascii) :
  Forall2 nl_as_sp f1 f2 ->
  same_outcome (step buffer s f1) (step buffer s f2).
Proof.
  intro H. pose proof (nl_as_sp_cur _ _ H) as Hc.
  pose proof (nl_as_sp_advance _ _ H) as Ha.
  pose proof (nl_as_sp_chr _ _ "%" Hc eq_refl) as Hp.
  destruct (chr (cur f2) "%") eqn:E.
  - rewrite (step_percent _ _ _ Hp), (step_percent _ _ _ E).
    pose proof (nl_as_sp_directive_header _ _ Ha) as Hh.
    destruct (directive_header (advance f1)) as [[[[a1 b1] c1] w1] r1].
    destruct (directive_header (advance f2)) as [[[[a2 b2] c2] w2] r2].
    destruct Hh as (-> & -> & -> & -> & Hr).
    unfold step_conversion. cbv zeta.
    pose proof (nl_as_sp_cur _ _ Hr) as Hs.
    rewrite (nl_as_sp_chr _ _ NUL Hs eq_refl).
    destruct (chr (cur r2) NUL); [simpl; reflexivity |].
    assert (Hconv : convert buffer (cur r1) a2 b2 c2 w2 s =
                    convert buffer (cur r2) a2 b2 c2 w2 s).
    { destruct Hs as [-> | [-> ->]]; [reflexivity | apply convert_space]. }
    rewrite Hconv. clear Hconv.
    destruct (convert _ _ _ _ _ _ _) as [ok s0].
    destruct ok; simpl; [| reflexivity].
    split; [reflexivity | apply nl_as_sp_advance, Hr].
  - rewrite (step_other _ _ _ Hp), (step_other _ _ _ E).
    rewrite (nl_as_sp_isspace _ _ Hc).
    destruct (isspace (cur f2)) eqn:Es; [simpl; auto |].
    assert (cur f1 = cur f2) as ->.
    { apply nl_as_sp_not_space; [exact Hc |].
      now rewrite (nl_as_sp_isspace _ _ Hc). }
    destruct (chr (cur f2) LF); [simpl; auto |]. cbv zeta.
    destruct (ms_eof _); [simpl; reflexivity |].
    destruct (ms_getc _ _) as [c ms].
    destruct (negb _); simpl; auto.
Qed.

Lemma nl_as_sp_scan_loop (buffer : list ascii) (fuel : nat) (s : Scan)
    (f1 f2 : list ascii) :
  Forall2 nl_as_sp f1 f2 ->
  scan_loop buffer fuel s f1 = scan_loop buffer fuel s f2.
Proof.
  revert s f1 f2. induction fuel as [| f IH]; intros s f1 f2 H; simpl;
    rewrite (nl_as_sp_chr _ _ NUL (nl_as_sp_cur _ _ H) eq_refl);
    [reflexivity |].
  destruct (chr (cur f2) NUL); [reflexivity |].
  pose proof (nl_as_sp_step buffer s _ _ H) as Hs.
  destruct (step buffer s f1) as [s1 g1 | s1],
           (step buffer s f2) as [s2 g2 | s2]; simpl in Hs;
    try contradiction.
  - destruct Hs as [-> Hg]. apply IH, Hg.
  - now subst.
Qed.

Lemma nl_as_sp_refl (f : list ascii) : Forall2 nl_as_sp f f.
Proof. induction f; constructor; [now left | assumption]. Qed.

(** ** Unsigned and hexadecimal conversions in front of a sign *)

Lemma readIntegerToken_sign (buffer : list ascii) (ms : MemScanner)
    (base : Z) :
  base = 10 \/ base = 16 ->
  sign_next buffer ms ->
  readIntegerToken buffer ms false base 128 =
  (false, [], ms_skip_whitespace buffer ms).
Proof.
  intros Hb Hs. unfold readIntegerToken, sign_next in *. simpl (128 <? 2).
  cbv beta iota zeta.
  set (ms1 := ms_skip_whitespace buffer ms) in *.
  destruct (remaining ms1) as [| f]; [reflexivity |].
  cbn [readInteger_loop].
  destruct (ms_eof ms1); [reflexivity |].
  destruct Hb as [-> | ->], Hs as [-> | ->]; reflexivity.
Qed.

Lemma conv_unsigned_sign (buffer : list ascii) (base : Z)
    (isShort isLong : bool) (s : Scan) :
  base = 10 \/ base = 16 ->
  sign_next buffer (sc_ms s) ->
  conv_unsigned buffer base isShort isLong s =
  (false, with_ms s (ms_skip_whitespace buffer (sc_ms s))).
Proof.
  intros Hb Hs. unfold conv_unsigned.
  now rewrite (readIntegerToken_sign _ _ _ Hb Hs).
Qed.

Lemma step_unsigned_sign (buffer : list ascii) (s : Scan)
    (d rest : list ascii) :
  unsigned_directive d ->
  sign_next buffer (sc_ms s) ->
  step buffer s (d ++ rest) =
  Break (with_ms s (ms_skip_whitespace buffer (sc_ms s))).
Proof.
  intros Hd Hs.
  assert (H10 := conv_unsigned_sign buffer 10).
  assert (H16 := conv_unsigned_sign buffer 16).
  unfold unsigned_directive in Hd. simpl in Hd.
  repeat (destruct Hd as [<- | Hd]); try contradiction;
    (rewrite step_percent by reflexivity);
    match goal with
    | |- step_conversion _ _ (directive_header ?f) = _ =>
        let h := eval vm_compute in (directive_header f) in
        change (directive_header f) with h
    end;
    unfold step_conversion; cbv zeta;
    match goal with
    | |- context [convert _ (cur (?c :: _)) ?a ?b _ _ _] =>
        change (cur (c :: rest)) with c
    end;
    match goal with
    | |- context [chr ?c NUL] => change (chr c NUL) with false
    end; cbv iota.
  1-3: change (convert buffer "u") with
         (fun a b (_ : bool) (_ : Z) => conv_unsigned buffer 10 a b);
       cbv beta; rewrite H10 by (auto; now left); reflexivity.
  all: change (convert buffer "x") with
         (fun a b (_ : bool) (_ : Z) => conv_unsigned buffer 16 a b);
       cbv beta; rewrite H16 by (auto; now right); reflexivity.
Qed.

(** ** What the code does at a literal mismatch and on a lone sign *)

(** A literal of the format that differs from the next non-whitespace
    character of the buffer halts the scan with the cursor past that
    character. *)
Lemma literal_mismatch_consumed (buffer : list ascii) (s : Scan)
    (expected : ascii) (rest : list ascii) :
  chr expected "%" = false ->
  isspace expected = false ->
  let ms1 := ms_skip_whitespace buffer (sc_ms s) in
  ms_eof ms1 = false ->
  chr (deref buffer (ptr ms1)) expected = false ->
  step buffer s (expected :: rest)
  = Break (with_ms s (set_ptr ms1 (ptr ms1 + 1))).
Proof.
  intros Hp Hsp ms1 E Hne.
  rewrite step_other by exact Hp.
  change (cur (expected :: rest)) with expected. rewrite Hsp.
  assert (Hlf : chr expected LF = false).
  { unfold chr. destruct (Ascii.eqb expected LF) eqn:El; [| reflexivity].
    apply Ascii.eqb_eq in El. subst expected. discriminate Hsp. }
  rewrite Hlf. cbv zeta. fold ms1. rewrite E, (ms_getc_not_eof _ _ E), Hne.
  simpl negb. cbv iota.
  rewrite ms_ungetc_in_range; [reflexivity |].
  apply ms_eof_false in E. simpl. lia.
Qed.

Lemma float_classify_gotAny (st : FloatSt) (c : ascii) :
  fs_gotAny st = true -> fs_gotAny (fst (float_classify st c)) = true.
Proof.
  intro H. unfold float_classify.
  destruct (isdigit c); [reflexivity |].
  destruct (negb (fs_seenDot st) && chr c "."); [reflexivity |].
  destruct (negb (fs_seenExponent st) && _); [reflexivity |].
  destruct ((chr c "+" || chr c "-") && _); [| exact H].
  destruct (float_last_is_e _); [reflexivity | exact H].
Qed.

Lemma readFloat_loop_gotAny (buffer : list ascii) (fuel : nat) (bufSize : Z)
    (st : FloatSt) (ms : MemScanner) :
  fs_gotAny st = true ->
  fs_gotAny (fst (readFloat_loop buffer fuel bufSize st ms)) = true.
Proof.
  revert st ms. induction fuel as [| f IH]; intros st ms H; simpl;
    [exact H |].
  destruct (ms_eof ms); [exact H |].
  pose proof (float_classify_gotAny st (ms_peek buffer ms) H) as Hc.
  destruct (float_classify st (ms_peek buffer ms)) as [st1 valid].
  simpl in Hc. destruct valid; simpl; [| exact Hc].
  apply IH. exact Hc.
Qed.

(** In front of a sign the float scanner reports success, whatever
    follows the sign. *)
Lemma readFloatToken_sign (buffer : list ascii) (ms : MemScanner) :
  sign_next buffer ms ->
  fst (fst (readFloatToken buffer ms 256)) = true.
Proof.
  intro Hs. unfold readFloatToken. simpl (256 <? 2). cbv beta iota zeta.
  assert (Hc : chr (ms_peek buffer (ms_skip_whitespace buffer ms)) "+"
               || chr (ms_peek buffer (ms_skip_whitespace buffer ms)) "-"
               = true).
  { destruct Hs as [-> | ->]; reflexivity. }
  rewrite Hc.
  match goal with
  | |- context [readFloat_loop buffer ?f ?b ?st ?m] =>
      pose proof (readFloat_loop_gotAny buffer f b st m eq_refl) as Hg;
      destruct (readFloat_loop buffer f b st m) as [st' ms']
  end.
  exact Hg.
Qed.

Lemma run_agree (size offset : Z) (b1 b2 format : list ascii)
    (slots : list Value) :
  agree size b1 b2 ->
  0 <= offset ->
  fast_fscanf_run b1 size offset format slots =
  fast_fscanf_run b2 size offset format slots.
Proof.
  intros Ha Ho. unfold fast_fscanf_run.
  apply scan_loop_agree with (size := size); [exact Ha |].
  split; simpl; [reflexivity | exact Ho].
Qed.

(** * The iterations of a call *)
















(** * The claims *)

(** C1.  On the record [":1a[5]( 3 7 42 ff 2b3 1.5 2.25 tok 01/02/2024
    09:30:00\n"], from offset 0 and with the sixteen-directive format of the
    scenario, the call returns 16, whatever the sixteen output variables
    held before; the first hexadecimal slot holds 0x1a, the bracketed [%hd]
    slot 5, the [%lx] slot 0x2b3 and the [%s] slot the string tok. *)
Theorem C1_record_scenario (slots : list Value) :
  length slots = 16%nat ->
  fast_fscanf_mem record_buffer (Z.of_nat (length record_buffer)) 0 record_format slots =
  Some (16, Z.of_nat (length record_buffer),
        [VUInt 0x1a; VShort 5; VShort 3; VUShort 7; VInt 42; VUInt 0xff;
         VULong 0x2b3; VFloat (str "1.5"); VLongDouble (str "2.25");
         VString (str "tok");
         VShort 1; VShort 2; VShort 2024; VShort 9; VShort 30; VShort 0]).
Proof.
  intro H.
  do 16 (destruct slots as [| ? slots]; [discriminate H |]).
  destruct slots; [| discriminate H].
  vm_compute. reflexivity.
Qed.

Lemma C1_record_scenario_witness :
  fast_fscanf_mem record_buffer 55 0 record_format (repeat (VChar NUL) 16) =
  Some (16, 55,
        [VUInt 26; VShort 5; VShort 3; VUShort 7; VInt 42; VUInt 255;
         VULong 691; VFloat (str "1.5"); VLongDouble (str "2.25");
         VString (str "tok");
         VShort 1; VShort 2; VShort 2024; VShort 9; VShort 30; VShort 0]).
Proof.
  exact (C1_record_scenario (repeat (VChar NUL) 16) eq_refl).
Defined.

(** C2.  The code at a literal mismatch: with format ["a"] on the buffer
    ["b"], and with format ["x=%d"] on ["y=1"], nothing matches and the
    offset returned is 1: the mismatching character has been consumed,
    since [ms_ungetc] does not step back. *)
Theorem C2_literal_mismatch_consumed :
  fast_fscanf_mem (str "b") 1 0 (str "a") [] = Some (0, 1, []) /\
  fast_fscanf_mem (str "y=1") 3 0 (str "x=%d") [VInt 7]
  = Some (0, 1, [VInt 7]).
Proof. split; vm_compute; reflexivity. Qed.



(** C4.  When the next non-whitespace character of the buffer is ['+'] or
    ['-'], the integer scanner called without sign permission, in base 10 or
    16, reports failure with an empty token and leaves the cursor on the
    sign; an iteration of the interpreter on [%u], [%hu], [%lu], [%x],
    [%hx] or [%lx] then halts the scan with [matchedCount] and the output
    slots as they were, and so does the rest of the call. *)
Theorem C4_unsigned_rejects_sign (buffer : list ascii) (s : Scan)
    (d rest : list ascii) :
  unsigned_directive d ->
  sign_next buffer (sc_ms s) ->
  let ms1 := ms_skip_whitespace buffer (sc_ms s) in
  readIntegerToken buffer (sc_ms s) false 10 128 = (false, [], ms1) /\
  readIntegerToken buffer (sc_ms s) false 16 128 = (false, [], ms1) /\
  step buffer s (d ++ rest) = Break (with_ms s ms1) /\
  scan_loop buffer (length (d ++ rest)) s (d ++ rest) =
  Some (with_ms s ms1).
Proof.
  intros Hd Hs ms1.
  split; [apply readIntegerToken_sign; [now left | exact Hs] |].
  split; [apply readIntegerToken_sign; [now right | exact Hs] |].
  pose proof (step_unsigned_sign buffer s d rest Hd Hs) as Hstep.
  split; [exact Hstep |].
  assert (Hc : chr (cur (d ++ rest)) NUL = false).
  { unfold unsigned_directive in Hd. simpl in Hd.
    repeat (destruct Hd as [<- | Hd]); try contradiction; reflexivity. }
  destruct (length (d ++ rest)) as [| f] eqn:El.
  - apply length_zero_iff_nil in El. rewrite El in Hc. discriminate Hc.
  - simpl. rewrite Hc, Hstep. reflexivity.
Qed.

Lemma C4_unsigned_rejects_sign_witness :
  fast_fscanf_mem (str " -5") 3 0 (str "%hu %d") [VUShort 9; VInt 9]
  = Some (0, 1, [VUShort 9; VInt 9]).
Proof.
  assert (Hd : unsigned_directive (str "%hu")).
  { unfold unsigned_directive. simpl. right. left. reflexivity. }
  assert (Hs : sign_next (str " -5")
                 (sc_ms (scan_init 3 0 [VUShort 9; VInt 9]))).
  { right. vm_compute. reflexivity. }
  pose proof (C4_unsigned_rejects_sign (str " -5")
                (scan_init 3 0 [VUShort 9; VInt 9]) (str "%hu") (str " %d")
                Hd Hs) as (_ & _ & _ & Hrun).
  unfold fast_fscanf_mem, fast_fscanf_run.
  change (str "%hu %d") with (str "%hu" ++ str " %d").
  rewrite Hrun. vm_compute. reflexivity.
Defined.

(** C5.  The code on a lone sign and on a lone point: [readFloatToken]
    reports success on ["+"], on ["-x"] and on ["."], having captured the
    sign or the point alone.  The directive [%f] on ["+"] still fails, in
    the numeric conversion. *)
Theorem C5_float_scanner_accepts_lone_sign :
  readFloatToken (str "+") (mkMS 0 1 [0]) 256
  = (true, str "+", mkMS 1 1 [1; 0]) /\
  readFloatToken (str "-x") (mkMS 0 2 [0]) 256
  = (true, str "-", mkMS 1 2 [1; 0]) /\
  readFloatToken (str ".") (mkMS 0 1 [0]) 256
  = (true, str ".", mkMS 1 1 [1; 0]) /\
  fast_fscanf_mem (str "+") 1 0 (str "%f") [VFloat []]
  = Some (0, 1, [VFloat []]).
Proof. repeat split; vm_compute; reflexivity. Qed.

(** Digits written between ['%'] and [s] are passed over by the precision
    loop: no width is read for the string. *)
Lemma width_digits_passed_over (ds rest : list ascii) :
  forallb isdigit ds = true ->
  directive_header (ds ++ "s"%char :: rest)
  = (false, false, false, 0, "s"%char :: rest).
Proof.
  intro H. unfold directive_header.
  assert (Hs : skip_precision (ds ++ "s"%char :: rest) = "s"%char :: rest).
  { induction ds as [| c r IH]; [reflexivity |].
    simpl in H. apply andb_prop in H as [Hc Hr].
    simpl. rewrite Hc, orb_true_r. apply IH, Hr. }
  rewrite Hs. reflexivity.
Qed.

(** C6.  The code on a width written before [s]: the digits that follow
    ['%'] are passed over as a precision, so the width read for the string
    is 0 and [readString] is given the cap 1024; [%3s] on ["abcdef gh"]
    stores all of ["abcdef"].  A width is read only after a length
    modifier: [%l3s] stores ["ab"] and moves past the whole token. *)
Theorem C6_string_width_passed_over :
  directive_header (str "3s") = (false, false, false, 0, str "s") /\
  fast_fscanf_mem (str "abcdef gh") 9 0 (str "%3s") [VString []]
  = Some (1, 6, [VString (str "abcdef")]) /\
  fast_fscanf_mem (str "abcdef gh") 9 0 (str "%l3s") [VString []]
  = Some (1, 6, [VString (str "ab")]).
Proof. repeat split; vm_compute; reflexivity. Qed.

(** C7.  A call on a buffer of length zero, or with the offset at the end
    of the buffer, returns 0 (and leaves offset and output slots as they
    were).  In a call with the offset at most [size], every value the
    cursor takes is at most [size], the offset returned included.  With a
    non-negative offset, the bytes the memory holds at and after [size]
    have no influence on the call: none of them is read. *)
Theorem C7_end_of_buffer (buffer : list ascii) (size offset : Z)
    (format : list ascii) (slots : list Value) :
  ((size = 0 /\ 0 <= offset) \/ offset = size ->
   fast_fscanf_mem buffer size offset format slots
   = Some (0, offset, slots)) /\
  (offset <= size ->
   exists s' : Scan,
     fast_fscanf_run buffer size offset format slots = Some s' /\
     fast_fscanf_mem buffer size offset format slots
     = Some (sc_matched s', ptr (sc_ms s'), sc_slots s') /\
     Forall (fun p => p <= size) (hist (sc_ms s')) /\
     ptr (sc_ms s') <= size) /\
  (0 <= offset ->
   forall buffer' : list ascii,
     agree size buffer buffer' ->
     fast_fscanf_mem buffer' size offset format slots
     = fast_fscanf_mem buffer size offset format slots).
Proof.
  destruct (run_effect buffer size offset format slots)
    as (s' & vals & k & Hrun & Hp & Hh & Hle & M & Sl & D & Heof).
  split; [| split].
  - intro H. assert (Hso : size <= offset) by lia.
    destruct (Heof Hso) as [-> ->].
    unfold fast_fscanf_mem. rewrite Hrun, M, Hp, Sl. simpl.
    now rewrite Z.add_0_r.
  - intro H. exists s'. split; [exact Hrun |].
    split; [unfold fast_fscanf_mem; now rewrite Hrun |].
    specialize (Hle H). split; [| lia].
    rewrite Hh. apply Forall_app. split.
    + eapply Forall_impl; [| apply countdown_bound]. simpl. intros; lia.
    + constructor; [lia | constructor].
  - intros Ho buffer' Ha. unfold fast_fscanf_mem.
    now rewrite (run_agree size offset buffer buffer' format slots Ha Ho).
Qed.

Lemma C7_end_of_buffer_witness :
  fast_fscanf_mem [] 0 0 (str "%d") [VInt 7] = Some (0, 0, [VInt 7]) /\
  fast_fscanf_mem (str "12") 2 2 (str "%d") [VInt 7]
  = Some (0, 2, [VInt 7]) /\
  (exists s' : Scan,
     fast_fscanf_run (str "12") 2 0 (str "%d%d") [VInt 7] = Some s' /\
     fast_fscanf_mem (str "12") 2 0 (str "%d%d") [VInt 7]
     = Some (sc_matched s', ptr (sc_ms s'), sc_slots s') /\
     Forall (fun p => p <= 2) (hist (sc_ms s')) /\
     ptr (sc_ms s') <= 2) /\
  fast_fscanf_mem (str "1234") 2 0 (str "%d%d") [VInt 7]
  = fast_fscanf_mem (str "12") 2 0 (str "%d%d") [VInt 7].
Proof.
  split; [| split; [| split]].
  - apply (proj1 (C7_end_of_buffer [] 0 0 (str "%d") [VInt 7])).
    left. split; [reflexivity | lia].
  - apply (proj1 (C7_end_of_buffer (str "12") 2 2 (str "%d") [VInt 7])).
    right. reflexivity.
  - apply (proj1 (proj2
             (C7_end_of_buffer (str "12") 2 0 (str "%d%d") [VInt 7]))).
    lia.
  - apply (proj2 (proj2
             (C7_end_of_buffer (str "12") 2 0 (str "%d%d") [VInt 7])));
      [lia |].
    intros p Hp. assert (Hc : p = 0 \/ p = 1) by lia.
    destruct Hc as [-> | ->]; reflexivity.
Defined.



(** C9.  The decrement test of [ms_ungetc] is false of every scanner, so
    [ms_ungetc] never steps back: it leaves a cursor that is within the
    buffer where it is.  In every call, the values the cursor takes,
    starting from the offset passed, never decrease, and the offset returned
    is at least the offset passed. *)
Theorem C9_cursor_never_moves_back (buffer : list ascii) (size offset : Z)
    (format : list ascii) (slots : list Value) :
  (forall ms : MemScanner, ungetc_test ms = false) /\
  (forall ms : MemScanner, ptr (ms_ungetc ms) = Z.min (ptr ms) (end_ ms)) /\
  exists s' : Scan,
    fast_fscanf_run buffer size offset format slots = Some s' /\
    fast_fscanf_mem buffer size offset format slots
    = Some (sc_matched s', ptr (sc_ms s'), sc_slots s') /\
    nondecreasing (hist (sc_ms s')) /\
    last (hist (sc_ms s')) offset = offset /\
    hd offset (hist (sc_ms s')) = ptr (sc_ms s') /\
    offset <= ptr (sc_ms s').
Proof.
  split; [exact ungetc_test_false |]. split.
  - intro ms. unfold ms_ungetc. destruct (ptr ms >? end_ ms) eqn:E.
    + rewrite ungetc_test_false. simpl.
      rewrite Z.gtb_ltb in E. apply Z.ltb_lt in E. lia.
    + rewrite ungetc_test_false.
      rewrite Z.gtb_ltb in E. apply Z.ltb_ge in E. lia.
  - destruct (run_effect buffer size offset format slots)
      as (s' & vals & k & Hrun & Hp & Hh & _).
    exists s'. split; [exact Hrun |].
    split; [unfold fast_fscanf_mem; now rewrite Hrun |].
    rewrite Hh, Hp. split; [| split; [| split]].
    + pose proof (countdown_nondecreasing (offset + Z.of_nat k) k) as H.
      replace (offset + Z.of_nat k - Z.of_nat k) with offset in H by lia.
      exact H.
    + now rewrite last_last.
    + destruct k; simpl; [lia | reflexivity].
    + lia.
Qed.

(** C10.  A newline of the format takes the whitespace branch of the
    interpreter: the iteration skips the whitespace of the buffer and goes
    on, exactly as for a space.  A call with a format that holds a newline
    returns the same count, offset and output slots as the call with that
    newline replaced by a space. *)
Theorem C10_newline_is_whitespace (buffer : list ascii) (size offset : Z)
    (f1 f2 : list ascii) (slots : list Value) (s : Scan) :
  step buffer s (LF :: f2)
  = Continue (with_ms s (ms_skip_whitespace buffer (sc_ms s))) f2 /\
  step buffer s (LF :: f2) = step buffer s (SP :: f2) /\
  fast_fscanf_mem buffer size offset (f1 ++ LF :: f2) slots
  = fast_fscanf_mem buffer size offset (f1 ++ SP :: f2) slots.
Proof.
  split; [reflexivity |]. split; [reflexivity |].
  unfold fast_fscanf_mem, fast_fscanf_run.
  replace (length (f1 ++ SP :: f2)) with (length (f1 ++ LF :: f2))
    by (rewrite !length_app; reflexivity).
  rewrite (nl_as_sp_scan_loop buffer _ _ (f1 ++ LF :: f2) (f1 ++ SP :: f2));
    [reflexivity |].
  apply Forall2_app; [apply nl_as_sp_refl |].
  constructor; [right; now split | apply nl_as_sp_refl].
Qed.

(** * Further properties of the scanners *)

Lemma skip_whitespace_loop_skipped (buffer : list ascii) (fuel : nat)
    (ms : MemScanner) (p : Z) :
  ptr ms <= p < ptr (skip_whitespace_loop buffer fuel ms) ->
  isspace (deref buffer p) = true.
Proof.
  revert ms. induction fuel as [| f IH]; intros ms H; simpl in H; [lia |].
  destruct (ms_eof ms); simpl in H; [lia |].
  destruct (isspace (deref buffer (ptr ms))) eqn:Sp; [| lia].
  destruct (Z.eq_dec p (ptr ms)) as [-> | Hne]; [exact Sp |].
  apply (IH (set_ptr ms (ptr ms + 1))). simpl. lia.
Qed.

(** X1.  [ms_skip_whitespace] passes whitespace characters only, stops at the
    end of the buffer or on a character that is not whitespace, stays within
    the buffer, and a second call in a row changes nothing. *)
Theorem ms_skip_whitespace_spec (buffer : list ascii) (ms : MemScanner) :
  let ms' := ms_skip_whitespace buffer ms in
  (forall p : Z, ptr ms <= p < ptr ms' -> isspace (deref buffer p) = true) /\
  (ms_eof ms' = true \/ isspace (deref buffer (ptr ms')) = false) /\
  ptr ms <= ptr ms' /\
  (ptr ms <= end_ ms -> ptr ms' <= end_ ms) /\
  ms_skip_whitespace buffer ms' = ms'.
Proof.
  intro ms'.
  assert (Hstop : ms_eof ms' = true \/ isspace (deref buffer (ptr ms')) = false)
    by apply (skip_whitespace_loop_stops buffer _ ms (le_n _)).
  pose proof (ms_skip_whitespace_advances buffer ms) as A. fold ms' in A.
  split; [intros p Hp; eapply skip_whitespace_loop_skipped; exact Hp |].
  split; [exact Hstop |].
  split; [apply advances_le, A |].
  split.
  - destruct (advances_hist _ _ A) as (k & _ & _ & Hle). exact Hle.
  - unfold ms_skip_whitespace at 1. destruct (remaining ms'); [reflexivity |].
    simpl. destruct Hstop as [-> | ->]; [reflexivity |].
    now rewrite andb_false_r.
Qed.

Lemma ms_skip_whitespace_spec_witness :
  isspace (deref (str "  7") 1) = true /\
  ptr (ms_skip_whitespace (str "  7") (mkMS 0 3 [0])) <= 3.
Proof.
  pose proof (ms_skip_whitespace_spec (str "  7") (mkMS 0 3 [0])) as H.
  cbv zeta in H. destruct H as (Hsk & _ & _ & Hle & _).
  split.
  - apply (Hsk 1). vm_compute. split; [discriminate | reflexivity].
  - apply Hle. vm_compute. discriminate.
Defined.

(** ** [readString] *)

Lemma token_at_exists (buffer : list ascii) (ms : MemScanner) :
  exists tok : list ascii, token_at buffer ms tok.
Proof.
  remember (remaining ms) as n eqn:Hn.
  assert (Hle : (remaining ms <= n)%nat) by lia. clear Hn.
  revert ms Hle. induction n as [| n IH]; intros ms Hle.
  - exists []. apply token_eof, remaining_zero_eof, Hle.
  - destruct (ms_eof ms) eqn:E; [exists []; now apply token_eof |].
    destruct (isspace (deref buffer (ptr ms))) eqn:Sp;
      [exists []; now apply token_space |].
    destruct (IH (set_ptr ms (ptr ms + 1)) (remaining_next ms n Hle))
      as [tok T].
    exists (deref buffer (ptr ms) :: tok). now apply token_char.
Qed.

Lemma token_at_no_space (buffer : list ascii) (ms : MemScanner)
    (tok : list ascii) :
  token_at buffer ms tok -> Forall (fun c => isspace c = false) tok.
Proof. induction 1; constructor; assumption. Qed.

Lemma token_at_chars (buffer : list ascii) (ms : MemScanner)
    (tok : list ascii) :
  token_at buffer ms tok ->
  tok = map (fun i => deref buffer (ptr ms + Z.of_nat i))
            (seq 0 (length tok)).
Proof.
  induction 1 as [ms E | ms E Sp | ms tok E Sp T IH]; try reflexivity.
  simpl. f_equal; [f_equal; lia |].
  rewrite <- seq_shift, map_map. rewrite IH at 1. simpl.
  apply map_ext. intro i. f_equal. lia.
Qed.

Lemma token_at_nil (buffer : list ascii) (ms : MemScanner)
    (tok : list ascii) :
  token_at buffer ms tok ->
  (ms_eof ms = true \/ isspace (deref buffer (ptr ms)) = true) ->
  tok = [].
Proof.
  intros [? E | ? E Sp | ? ? E Sp T] Hs; try reflexivity.
  destruct Hs; congruence.
Qed.

Lemma Forall_firstn_keep (A : Type) (P : A -> Prop) (n : nat) (l : list A) :
  Forall P l -> Forall P (firstn n l).
Proof.
  intro H. revert n. induction H as [| x l Hx _ IH]; intros [| n]; simpl;
    constructor; auto.
Qed.

Lemma readString_effective (buffer : list ascii) (ms : MemScanner) (w : Z) :
  readString buffer ms w = readString buffer ms (effective_width w) /\
  0 < effective_width w.
Proof.
  unfold readString, effective_width.
  destruct (w <=? 0) eqn:E; [split; [reflexivity | lia] |].
  rewrite E. split; [reflexivity | apply Z.leb_gt, E].
Qed.

(** X2.  [readString] takes the token that starts at the next non-whitespace
    character: the run of buffer characters up to the next whitespace or the
    end of the buffer.  It stores the first [width - 1] characters of the
    token ([1024 * 1024 - 1] when the width is not positive), leaves the
    cursor after the whole token and reports whether it stored anything. *)
Theorem readString_takes_token (buffer : list ascii) (ms : MemScanner)
    (width : Z) :
  exists (tok : list ascii) (ms' : MemScanner),
    let ms1 := ms_skip_whitespace buffer ms in
    let dest := firstn (Z.to_nat (effective_width width - 1)) tok in
    token_at buffer ms1 tok /\
    tok = map (fun i => deref buffer (ptr ms1 + Z.of_nat i))
              (seq 0 (length tok)) /\
    Forall (fun c => isspace c = false) tok /\
    readString buffer ms width = (0 <? Z.of_nat (length dest), dest, ms') /\
    ptr ms' = ptr ms1 + Z.of_nat (length tok).
Proof.
  destruct (token_at_exists buffer (ms_skip_whitespace buffer ms))
    as [tok T].
  destruct (readString_effective buffer ms width) as [-> Hpos].
  destruct (readString_token buffer ms _ tok Hpos T) as (ms' & Hrun & Hp).
  exists tok, ms'. cbv zeta.
  split; [exact T |]. split; [apply token_at_chars, T |].
  split; [eapply token_at_no_space, T |]. split; assumption.
Qed.

(** X3.  What [readString] stores fits a destination of [width] bytes with its
    terminator and holds no whitespace; it reports success exactly when the
    buffer is not exhausted after the leading whitespace and the width
    leaves room for one character at least. *)
Theorem readString_fits_destination (buffer : list ascii) (ms : MemScanner)
    (width : Z) :
  let '(got, dest, ms') := readString buffer ms width in
  Z.of_nat (length dest) < effective_width width /\
  Forall (fun c => isspace c = false) dest /\
  got = negb (ms_eof (ms_skip_whitespace buffer ms))
        && (1 <? effective_width width).
Proof.
  destruct (readString_takes_token buffer ms width)
    as (tok & ms' & T & _ & Hns & -> & _).
  destruct (readString_effective buffer ms width) as [_ Hpos].
  set (w := effective_width width) in *.
  split; [rewrite length_firstn; lia |].
  split; [apply Forall_firstn_keep, Hns |].
  rewrite length_firstn.
  destruct (ms_skip_whitespace_spec buffer ms) as (_ & Hstop & _).
  destruct (ms_eof (ms_skip_whitespace buffer ms)) eqn:E.
  - rewrite (token_at_nil _ _ _ T (or_introl E)). simpl.
    rewrite Nat.min_0_r. reflexivity.
  - destruct Hstop as [Hs | Hs]; [congruence |].
    destruct T as [ms1 E1 | ms1 E1 Sp | ms1 tok E1 Sp T]; try congruence.
    simpl negb. simpl andb. simpl length.
    destruct (1 <? w) eqn:W.
    + apply Z.ltb_lt in W. apply Z.ltb_lt. lia.
    + apply Z.ltb_ge in W. apply Z.ltb_ge. lia.
Qed.

(** ** [readIntegerToken] *)

Lemma push_tok_shape (bufSize : Z) (outBuf : list ascii) (c : ascii) :
  exists t : list ascii,
    push_tok bufSize outBuf c = outBuf ++ t /\ (t = [] \/ t = [c]) /\
    (Z.of_nat (length outBuf) < bufSize - 1 -> t = [c]) /\
    Z.of_nat (length (push_tok bufSize outBuf c))
    <= Z.max (Z.of_nat (length outBuf)) (bufSize - 1).
Proof.
  unfold push_tok. destruct (Z.of_nat (length outBuf) <? bufSize - 1) eqn:E.
  - apply Z.ltb_lt in E. exists [c]. rewrite length_app. simpl length.
    repeat split; auto; lia.
  - apply Z.ltb_ge in E. exists []. rewrite app_nil_r.
    repeat split; auto; lia.
Qed.

Lemma readInteger_loop_shape (buffer : list ascii) (fuel : nat)
    (base bufSize : Z) (outBuf : list ascii) (got : bool) (ms : MemScanner) :
  let '(got', out', ms') :=
    readInteger_loop buffer fuel base bufSize outBuf got ms in
  exists digits : list ascii,
    out' = outBuf ++ digits /\
    Forall (fun c => digit_of base c = true) digits /\
    Z.of_nat (length out') <= Z.max (Z.of_nat (length outBuf)) (bufSize - 1) /\
    got' = got || negb (ptr ms' =? ptr ms) /\
    ptr ms <= ptr ms' /\
    (Z.of_nat (length outBuf) < bufSize - 1 ->
     ptr ms < ptr ms' -> digits <> []) /\
    (digits <> [] -> ptr ms < ptr ms') /\
    ((remaining ms <= fuel)%nat ->
     ms_eof ms' = true \/ digit_of base (deref buffer (ptr ms')) = false).
Proof.
  revert outBuf got ms.
  assert (Hstay : forall (outBuf : list ascii) (got : bool) (ms : MemScanner),
    ms_eof ms = true \/ digit_of base (deref buffer (ptr ms)) = false ->
    exists digits : list ascii,
      outBuf = outBuf ++ digits /\
      Forall (fun c => digit_of base c = true) digits /\
      Z.of_nat (length outBuf)
      <= Z.max (Z.of_nat (length outBuf)) (bufSize - 1) /\
      got = got || negb (ptr ms =? ptr ms) /\
      ptr ms <= ptr ms /\
      (Z.of_nat (length outBuf) < bufSize - 1 ->
       ptr ms < ptr ms -> digits <> []) /\
      (digits <> [] -> ptr ms < ptr ms) /\
      (ms_eof ms = true \/ digit_of base (deref buffer (ptr ms)) = false)).
  { intros outBuf got ms H. exists [].
    rewrite app_nil_r, Z.eqb_refl, orb_false_r.
    split; [reflexivity |]. split; [constructor |]. split; [lia |].
    split; [reflexivity |]. split; [lia |]. split; [lia |].
    split; [congruence | exact H]. }
  induction fuel as [| f IH]; intros outBuf got ms; simpl.
  - destruct (ms_eof ms) eqn:E.
    + destruct (Hstay outBuf got ms (or_introl E))
        as (ds & H1 & H2 & H3 & H4 & H5 & H6 & H7 & H8).
      exists ds. auto 10.
    + exists []. rewrite app_nil_r, Z.eqb_refl, orb_false_r.
      split; [reflexivity |]. split; [constructor |]. split; [lia |].
      split; [reflexivity |]. split; [lia |]. split; [lia |].
      split; [congruence |]. intro H. apply remaining_zero_eof in H.
      congruence.
  - destruct (ms_eof ms) eqn:E.
    { destruct (Hstay outBuf got ms (or_introl E))
        as (ds & H1 & H2 & H3 & H4 & H5 & H6 & H7 & H8).
      exists ds. auto 10. }
    unfold ms_peek. rewrite E.
    fold (digit_of base (deref buffer (ptr ms))).
    destruct (digit_of base (deref buffer (ptr ms))) eqn:V; simpl negb;
      cbv iota.
    + rewrite (ms_getc_not_eof _ _ E). simpl snd.
      specialize (IH (push_tok bufSize outBuf (deref buffer (ptr ms))) true
                     (set_ptr ms (ptr ms + 1))).
      destruct (readInteger_loop _ _ _ _ _ _ _) as [[got' out'] ms'].
      destruct IH as (ds & Ho & Hd & Hl & Hg & Hle & _ & _ & Hstop).
      simpl in Hle.
      destruct (push_tok_shape bufSize outBuf (deref buffer (ptr ms)))
        as (t & Hpush & Ht & Hroom & Hlen).
      exists (t ++ ds). rewrite Ho, Hpush, <- app_assoc.
      split; [reflexivity |].
      split.
      { apply Forall_app. split; [| exact Hd].
        destruct Ht as [-> | ->]; repeat constructor. exact V. }
      split.
      { rewrite Ho, Hpush in Hl. rewrite Hpush in Hlen.
        rewrite !length_app in *. lia. }
      split.
      { rewrite Hg, orb_true_l.
        replace (ptr ms' =? ptr ms) with false
          by (symmetry; apply Z.eqb_neq; lia).
        now rewrite orb_true_r. }
      split; [lia |].
      split; [intros Hr _; rewrite (Hroom Hr); discriminate |].
      split; [intros _; lia |].
      intro Hf. apply Hstop. apply remaining_next, Hf.
    + destruct (Hstay outBuf got ms (or_intror V))
        as (ds & H1 & H2 & H3 & H4 & H5 & H6 & H7 & H8).
      exists ds. auto 10.
Qed.

(** X4.  The token [readIntegerToken] hands over is an optional sign, present
    only with sign permission, followed by digits of the base, at most 127
    characters in all; the function reports success exactly when there is a
    digit, and leaves the cursor at the end of the buffer or on a character
    that is not a digit of the base. *)
Theorem readIntegerToken_token (buffer : list ascii) (ms : MemScanner)
    (allowSign : bool) (base : Z) :
  let '(got, tok, ms') := readIntegerToken buffer ms allowSign base 128 in
  exists sign digits : list ascii,
    tok = sign ++ digits /\
    (sign = [] \/ (allowSign = true /\ (sign = str "+" \/ sign = str "-"))) /\
    Forall (fun c => digit_of base c = true) digits /\
    (length tok <= 127)%nat /\
    got = negb (Nat.eqb (length digits) 0) /\
    (ms_eof ms' = true \/ digit_of base (deref buffer (ptr ms')) = false).
Proof.
  unfold readIntegerToken. simpl (128 <? 2). cbv beta iota zeta.
  set (ms1 := ms_skip_whitespace buffer ms).
  assert (Hmain : forall (sign : list ascii) (ms2 : MemScanner),
    (length sign <= 1)%nat ->
    let '(got, tok, ms') :=
      readInteger_loop buffer (remaining ms2) base 128 sign false ms2 in
    exists digits : list ascii,
      tok = sign ++ digits /\
      Forall (fun c => digit_of base c = true) digits /\
      (length tok <= 127)%nat /\
      got = negb (Nat.eqb (length digits) 0) /\
      (ms_eof ms' = true \/ digit_of base (deref buffer (ptr ms')) = false)).
  { intros sign ms2 Hs.
    pose proof (readInteger_loop_shape buffer (remaining ms2) base 128 sign
                  false ms2) as H.
    destruct (readInteger_loop _ _ _ _ _ _ _) as [[got tok] ms'].
    destruct H as (ds & Ho & Hd & Hl & Hg & Hle & Hne & Hne' & Hstop).
    exists ds. split; [exact Ho |]. split; [exact Hd |].
    split; [lia |]. split; [| apply Hstop; lia].
    rewrite Hg. simpl orb.
    destruct ds as [| d ds].
    - simpl. destruct (ptr ms' =? ptr ms2) eqn:Eq; [reflexivity |].
      apply Z.eqb_neq in Eq. exfalso.
      apply (Hne ltac:(lia) ltac:(lia)). reflexivity.
    - simpl. assert (Hlt : ptr ms2 < ptr ms') by (apply Hne'; discriminate).
      replace (ptr ms' =? ptr ms2) with false
        by (symmetry; apply Z.eqb_neq; lia).
      reflexivity. }
  destruct allowSign.
  - destruct (chr (ms_peek buffer ms1) "+" || chr (ms_peek buffer ms1) "-")
      eqn:Sg.
    + specialize (Hmain [ms_peek buffer ms1] (snd (ms_getc buffer ms1))
                        (le_n _)).
      destruct (readInteger_loop _ _ _ _ _ _ _) as [[got tok] ms'].
      destruct Hmain as (ds & H1 & H2 & H3 & H4 & H5).
      exists [ms_peek buffer ms1], ds.
      repeat split; try assumption.
      right. split; [reflexivity |].
      apply orb_prop in Sg as [Sg | Sg]; apply chr_eq in Sg; rewrite Sg;
        [left | right]; reflexivity.
    + specialize (Hmain [] ms1 (Nat.le_0_l _)).
      destruct (readInteger_loop _ _ _ _ _ _ _) as [[got tok] ms'].
      destruct Hmain as (ds & H1 & H2 & H3 & H4 & H5).
      exists [], ds. repeat split; try assumption. now left.
  - specialize (Hmain [] ms1 (Nat.le_0_l _)).
    destruct (readInteger_loop _ _ _ _ _ _ _) as [[got tok] ms'].
    destruct Hmain as (ds & H1 & H2 & H3 & H4 & H5).
    exists [], ds. repeat split; try assumption. now left.
Qed.

(** ** The numeric conversions on a scanner token *)





Lemma conv_d_plus (buffer : list ascii) (isShort isLong : bool) (s : Scan) :
  ms_peek buffer (ms_skip_whitespace buffer (sc_ms s)) = "+"%char ->
  exists s' : Scan,
    conv_d buffer isShort isLong s = (false, s') /\
    sc_slots s' = sc_slots s /\
    sc_matched s' = sc_matched s /\
    ptr (ms_skip_whitespace buffer (sc_ms s)) < ptr (sc_ms s').
Proof.
  intro Hp. unfold conv_d, readIntegerToken.
  change (128 <? 2) with false. cbv beta iota zeta.
  set (ms1 := ms_skip_whitespace buffer (sc_ms s)) in *.
  rewrite Hp. change (chr "+" "+" || chr "+" "-") with true. cbv iota.
  assert (E : ms_eof ms1 = false).
  { destruct (ms_eof ms1) eqn:E; [| reflexivity].
    rewrite (ms_peek_eof _ _ E) in Hp. discriminate Hp. }
  rewrite (ms_getc_not_eof _ _ E). simpl snd.
  pose proof (readInteger_loop_shape buffer
                (remaining (set_ptr ms1 (ptr ms1 + 1))) 10 128 (str "+")
                false (set_ptr ms1 (ptr ms1 + 1))) as H.
  change ["+"%char] with (str "+").
  destruct (readInteger_loop _ _ _ _ _ _ _) as [[got tok] ms'].
  destruct H as (ds & -> & _ & _ & _ & Hle & _).
  simpl in Hle.
  assert (Hfc : from_chars_long (str "+" ++ ds) 10 = None) by reflexivity.
  rewrite Hfc.
  destruct got; [destruct isShort, isLong |];
    eexists; (split; [reflexivity |]); simpl; repeat split; lia.
Qed.

(** X6.  A signed decimal directive in front of a plus sign fails: the scanner
    takes the sign and the digits, [std::from_chars] accepts no plus sign,
    and the scan halts with the cursor past the sign, nothing stored and
    nothing counted. *)
Theorem signed_rejects_plus (buffer : list ascii) (s : Scan)
    (d rest : list ascii) :
  signed_directive d ->
  ms_peek buffer (ms_skip_whitespace buffer (sc_ms s)) = "+"%char ->
  exists s' : Scan,
    step buffer s (d ++ rest) = Break s' /\
    sc_slots s' = sc_slots s /\
    sc_matched s' = sc_matched s /\
    ptr (ms_skip_whitespace buffer (sc_ms s)) < ptr (sc_ms s').
Proof.
  intros Hd Hp.
  unfold signed_directive in Hd. simpl in Hd.
  repeat (destruct Hd as [<- | Hd]); try contradiction;
    (rewrite step_percent by reflexivity);
    match goal with
    | |- context [directive_header ?f] =>
        let h := eval vm_compute in (directive_header f) in
        change (directive_header f) with h
    end;
    unfold step_conversion; cbv zeta;
    change (cur ("d"%char :: rest)) with "d"%char;
    change (chr "d" NUL) with false; cbv iota;
    change (convert buffer "d") with
      (fun a b (_ : bool) (_ : Z) => conv_d buffer a b);
    cbv beta;
    match goal with
    | |- context [conv_d buffer ?a ?b s] =>
        destruct (conv_d_plus buffer a b s Hp) as (s' & -> & H1 & H2 & H3)
    end;
    exists s'; auto.
Qed.

Lemma signed_rejects_plus_witness :
  exists s' : Scan,
    step (str " +5") (scan_init 3 0 [VShort 7]) (str "%hd") = Break s' /\
    sc_slots s' = [VShort 7] /\ sc_matched s' = 0 /\ 1 < ptr (sc_ms s').
Proof.
  assert (Hd : signed_directive (str "%hd")).
  { unfold signed_directive. simpl. right. left. reflexivity. }
  assert (Hp : ms_peek (str " +5")
                 (ms_skip_whitespace (str " +5")
                    (sc_ms (scan_init 3 0 [VShort 7]))) = "+"%char)
    by (vm_compute; reflexivity).
  destruct (signed_rejects_plus (str " +5") (scan_init 3 0 [VShort 7])
              (str "%hd") [] Hd Hp) as (s' & H1 & H2 & H3 & H4).
  exists s'. auto.
Defined.

(** ** Directives the interpreter has no case for *)

Lemma convert_unsupported (buffer : list ascii) (spec : ascii)
    (a b c : bool) (w : Z) (s : Scan) :
  supported spec = false ->
  convert buffer spec a b c w s = (false, s).
Proof.
  unfold supported, convert. intro H.
  repeat (apply orb_false_elim in H as [H ?]).
  repeat match goal with
  | E : chr spec _ = false |- _ => rewrite E; clear E
  end.
  reflexivity.
Qed.

(** X7.  A ['%'] that is followed, after the optional digits, points and length
    modifier, by a character other than [d u x f g e c s], or by the end of
    the format, halts the scan at once: the cursor does not move, not even
    over whitespace, nothing is stored and nothing is counted.  So ["%%"]
    matches no percent sign, and a star, [o], [i] or [n] halts the scan. *)
Theorem unsupported_directive_halts (buffer : list ascii) (s : Scan)
    (format : list ascii) :
  supported (cur (snd (directive_header format))) = false ->
  step buffer s ("%"%char :: format) = Break s.
Proof.
  intro H. rewrite step_percent by reflexivity.
  change (advance ("%"%char :: format)) with format.
  unfold step_conversion.
  destruct (directive_header format) as [[[[a b] c] w] r]. simpl in H.
  cbv zeta. destruct (chr (cur r) NUL); [reflexivity |].
  now rewrite (convert_unsupported _ _ _ _ _ _ _ H).
Qed.

Lemma unsupported_directive_halts_witness :
  step (str "%") (scan_init 1 0 []) (str "%%") = Break (scan_init 1 0 []) /\
  step (str " 7") (scan_init 2 0 [VInt 0]) (str "%*d")
  = Break (scan_init 2 0 [VInt 0]) /\
  step (str " 7") (scan_init 2 0 [VInt 0]) (str "%5")
  = Break (scan_init 2 0 [VInt 0]).
Proof.
  split; [| split].
  - apply (unsupported_directive_halts (str "%") (scan_init 1 0 [])
             (str "%")). reflexivity.
  - apply (unsupported_directive_halts (str " 7") (scan_init 2 0 [VInt 0])
             (str "*d")). reflexivity.
  - apply (unsupported_directive_halts (str " 7") (scan_init 2 0 [VInt 0])
             (str "5")). reflexivity.
Defined.

(** ** The character directive *)

(** X8.  [%c] stores the very next character of the buffer, whitespace included,
    moves the cursor by one and counts one match; at the end of the buffer
    it halts the scan with nothing stored. *)
Theorem char_directive (buffer : list ascii) (s : Scan) (rest : list ascii) :
  step buffer s (str "%c" ++ rest) =
  if ms_eof (sc_ms s) then
    Break (mkScan (sc_ms s) (S (sc_va s)) (sc_matched s) (sc_slots s))
  else
    Continue
      (mkScan (set_ptr (sc_ms s) (ptr (sc_ms s) + 1)) (S (sc_va s))
         (sc_matched s + 1)
         (store (sc_va s) (VChar (deref buffer (ptr (sc_ms s))))
                (sc_slots s)))
      rest.
Proof.
  rewrite step_percent by reflexivity.
  change (directive_header (advance (str "%c" ++ rest)))
    with (false, false, false, 0, "c"%char :: rest).
  unfold step_conversion. cbv zeta.
  change (cur ("c"%char :: rest)) with "c"%char.
  change (chr "c" NUL) with false. cbv iota.
  change (convert buffer "c" false false false 0 s) with (conv_c buffer s).
  unfold conv_c, readChar, va_arg. cbv beta iota zeta.
  cbn [sc_ms sc_va sc_matched sc_slots].
  destruct (ms_eof (sc_ms s)) eqn:E; [reflexivity |].
  rewrite (ms_getc_not_eof _ _ E). reflexivity.
Qed.

(** ** Invariants of the main loop *)

(** A property of the loop state that every conversion and every cursor
    advance preserve is preserved by an iteration. *)
Lemma step_preserves (buffer : list ascii) (P : Scan -> Prop) (s : Scan)
    (format : list ascii) :
  (forall ms : MemScanner, advances (sc_ms s) ms -> P (with_ms s ms)) ->
  (forall (spec : ascii) (a b c : bool) (w : Z),
     let r := convert buffer spec a b c w s in
     if fst r
     then P (mkScan (sc_ms (snd r)) (sc_va (snd r)) (sc_matched (snd r) + 1)
                    (sc_slots (snd r)))
     else P (snd r)) ->
  P s ->
  match step buffer s format with
  | Continue s' _ => P s'
  | Break s' => P s'
  end.
Proof.
  intros Hms Hconv Hs. destruct (chr (cur format) "%") eqn:E.
  - rewrite (step_percent _ _ _ E). unfold step_conversion.
    destruct (directive_header _) as [[[[a b] c] w] r]. cbv zeta.
    destruct (chr (cur r) NUL); [exact Hs |].
    specialize (Hconv (cur r) a b c w). cbv zeta in Hconv.
    destruct (convert _ _ _ _ _ _ _) as [ok s0]. simpl in Hconv.
    destruct ok; exact Hconv.
  - rewrite (step_other _ _ _ E).
    destruct (isspace (cur format));
      [apply Hms, ms_skip_whitespace_advances |].
    destruct (chr (cur format) LF); [apply Hms, newline_loop_advances |].
    cbv zeta.
    pose proof (ms_skip_whitespace_advances buffer (sc_ms s)) as A.
    destruct (ms_eof _) eqn:Eo; [apply Hms, A |].
    rewrite (ms_getc_not_eof _ _ Eo).
    assert (A2 : advances (sc_ms s)
                   (set_ptr (ms_skip_whitespace buffer (sc_ms s))
                      (ptr (ms_skip_whitespace buffer (sc_ms s)) + 1))).
    { eapply advances_trans; [exact A |].
      apply advances_one, ms_eof_false, Eo. }
    destruct (negb _); [| apply Hms, A2].
    rewrite ms_ungetc_in_range; [apply Hms, A2 |].
    apply ms_eof_false in Eo. simpl. lia.
Qed.

Lemma scan_loop_preserves (buffer : list ascii) (P : Scan -> Prop) :
  (forall (s : Scan) (format : list ascii),
     P s ->
     match step buffer s format with
     | Continue s' _ => P s'
     | Break s' => P s'
     end) ->
  forall (fuel : nat) (s : Scan) (format : list ascii) (s' : Scan),
    P s -> scan_loop buffer fuel s format = Some s' -> P s'.
Proof.
  intros Hstep fuel. induction fuel as [| f IH]; intros s format s' Hs Hrun;
    simpl in Hrun.
  - destruct (chr (cur format) NUL); [| discriminate Hrun].
    injection Hrun as <-. exact Hs.
  - destruct (chr (cur format) NUL); [injection Hrun as <-; exact Hs |].
    specialize (Hstep s format Hs).
    destruct (step buffer s format) as [s1 f1 | s1].
    + exact (IH s1 f1 s' Hstep Hrun).
    + injection Hrun as <-. exact Hstep.
Qed.

Lemma wrap_signed_range (bits v : Z) :
  0 < bits ->
  - 2 ^ (bits - 1) <= wrap_signed bits v < 2 ^ (bits - 1).
Proof.
  intro Hb. unfold wrap_signed.
  assert (Hp : 2 ^ bits = 2 * 2 ^ (bits - 1)).
  { replace bits with (Z.succ (bits - 1)) at 1 by lia.
    rewrite Z.pow_succ_r by lia. reflexivity. }
  assert (Hpos : 0 < 2 ^ (bits - 1)) by (apply Z.pow_pos_nonneg; lia).
  pose proof (Z.mod_pos_bound v (2 ^ bits) ltac:(lia)) as Hm.
  destruct (v mod 2 ^ bits <? 2 ^ (bits - 1)) eqn:E.
  - apply Z.ltb_lt in E. lia.
  - apply Z.ltb_ge in E. lia.
Qed.

Lemma wrap_unsigned_range (bits v : Z) :
  0 <= bits -> 0 <= wrap_unsigned bits v < 2 ^ bits.
Proof.
  intro Hb. unfold wrap_unsigned. apply Z.mod_pos_bound.
  apply Z.pow_pos_nonneg; lia.
Qed.

Lemma from_chars_long_range (tok : list ascii) (base r : Z) :
  from_chars_long tok base = Some r ->
  - 2 ^ (LONG_BITS - 1) <= r < 2 ^ (LONG_BITS - 1).
Proof.
  unfold from_chars_long.
  destruct (match tok with
            | [] => (false, tok)
            | c :: r0 => if chr c "-" then (true, r0) else (false, tok)
            end) as [neg body].
  destruct (digits_prefix base 0 0 body) as [v n].
  destruct n; [discriminate |].
  destruct (_ && _) eqn:E; [| discriminate].
  intro H. injection H as <-.
  apply andb_prop in E as [E1 E2]. apply Z.leb_le in E1, E2. lia.
Qed.

Lemma digit_val_nonneg (c : ascii) (d : Z) :
  digit_val c = Some d -> 0 <= d.
Proof.
  unfold digit_val. cbv zeta.
  destruct ((48 <=? code c) && (code c <=? 57)) eqn:E1.
  { intro H. injection H as <-. apply andb_prop in E1 as [E _].
    apply Z.leb_le in E. lia. }
  destruct ((97 <=? code c) && (code c <=? 122)) eqn:E2.
  { intro H. injection H as <-. apply andb_prop in E2 as [E _].
    apply Z.leb_le in E. lia. }
  destruct ((65 <=? code c) && (code c <=? 90)) eqn:E3; [| discriminate].
  intro H. injection H as <-. apply andb_prop in E3 as [E _].
  apply Z.leb_le in E. lia.
Qed.

Lemma digits_prefix_nonneg (base acc : Z) (n : nat) (l : list ascii) :
  0 <= base -> 0 <= acc -> 0 <= fst (digits_prefix base acc n l).
Proof.
  intro Hb. revert acc n. induction l as [| c r IH]; intros acc n Ha; simpl;
    [exact Ha |].
  destruct (digit_val c) as [d |] eqn:D; [| exact Ha].
  destruct (d <? base); [| exact Ha].
  apply IH. apply digit_val_nonneg in D. nia.
Qed.

Lemma from_chars_ulong_range (tok : list ascii) (base v : Z) :
  0 <= base ->
  from_chars_ulong tok base = Some v -> 0 <= v < 2 ^ LONG_BITS.
Proof.
  intro Hb. unfold from_chars_ulong.
  pose proof (digits_prefix_nonneg base 0 0 tok Hb (Z.le_refl 0)) as Hn.
  destruct (digits_prefix base 0 0 tok) as [x n]. simpl in Hn.
  destruct n; [discriminate |].
  destruct (x <=? 2 ^ LONG_BITS - 1) eqn:E; [| discriminate].
  intro H. injection H as <-. apply Z.leb_le in E. lia.
Qed.

Lemma store_in_range (i : nat) (v : Value) (slots : list Value) :
  in_range v -> Forall in_range slots -> Forall in_range (store i v slots).
Proof.
  intros Hv H. revert i. induction H as [| x r Hx Hr IH]; intro i; simpl;
    [constructor |].
  destruct i; constructor; auto.
Qed.

Lemma convert_in_range (buffer : list ascii) (spec : ascii) (a b c : bool)
    (w : Z) (s : Scan) :
  Forall in_range (sc_slots s) ->
  Forall in_range (sc_slots (snd (convert buffer spec a b c w s))).
Proof.
  intro H.
  assert (H16 : 0 < 16) by lia. assert (H32 : 0 < 32) by lia.
  unfold convert.
  destruct (chr spec "d").
  { unfold conv_d.
    destruct (readIntegerToken _ _ _ _ _) as [[got tok] ms].
    destruct got; [| exact H]. unfold va_arg. cbv beta iota zeta.
    pose proof (from_chars_long_range tok 10) as Hr.
    destruct a, b, (from_chars_long tok 10) as [r |]; simpl; try exact H;
      apply store_in_range; try exact H; simpl;
      try apply (wrap_signed_range 16 r H16);
      try apply (wrap_signed_range 32 r H32);
      apply Hr; reflexivity. }
  assert (Hu : forall base : Z, 0 <= base ->
    Forall in_range (sc_slots (snd (conv_unsigned buffer base a b s)))).
  { intros base Hb. unfold conv_unsigned.
    destruct (readIntegerToken _ _ _ _ _) as [[got tok] ms].
    destruct got; [| exact H]. unfold va_arg. cbv beta iota zeta.
    pose proof (from_chars_ulong_range tok base) as Hr.
    destruct a, b, (from_chars_ulong tok base) as [r |]; simpl;
      try exact H; apply store_in_range; try exact H; simpl;
      try apply (wrap_unsigned_range 16 r); try apply (wrap_unsigned_range 32 r);
      try lia; apply Hr; auto. }
  destruct (chr spec "u"); [apply Hu; lia |].
  destruct (chr spec "x"); [apply Hu; lia |].
  destruct (chr spec "f" || chr spec "g" || chr spec "e").
  { unfold conv_f.
    destruct (readFloatToken _ _ _) as [[got tok] ms].
    destruct got; [| exact H]. unfold va_arg. cbv beta iota zeta.
    destruct c, b, (from_chars_double tok), (strtod tok); simpl;
      try exact H; apply store_in_range; try exact H; exact I. }
  destruct (chr spec "c").
  { unfold conv_c, va_arg. cbv beta iota zeta.
    destruct (readChar _ _) as [[ch |] ms]; simpl; [| exact H].
    apply store_in_range; [exact I | exact H]. }
  destruct (chr spec "s"); [| exact H].
  unfold conv_s, va_arg. cbv beta iota zeta.
  destruct (readString _ _ _) as [[got dest] ms].
  destruct got; simpl; [| exact H].
  apply store_in_range; [exact I | exact H].
Qed.

(** X9.  Every value a call stores lies in the range of the C type of its
    directive: if the output slots hold values in range before a call, they
    do after it, whatever the buffer and the format. *)
Theorem stored_values_in_range (buffer : list ascii) (size offset : Z)
    (format : list ascii) (slots : list Value) :
  Forall in_range slots ->
  exists (n off' : Z) (slots' : list Value),
    fast_fscanf_mem buffer size offset format slots = Some (n, off', slots')
    /\ Forall in_range slots'.
Proof.
  intro H.
  destruct (run_effect buffer size offset format slots)
    as (s' & vals & k & Hrun & _).
  unfold fast_fscanf_mem. rewrite Hrun.
  exists (sc_matched s'), (ptr (sc_ms s')), (sc_slots s').
  split; [reflexivity |].
  unfold fast_fscanf_run in Hrun.
  refine (scan_loop_preserves buffer
            (fun s => Forall in_range (sc_slots s)) _ _
            (scan_init size offset slots) _ _ H Hrun).
  intros s f Hs. apply step_preserves; [intros; exact Hs | | exact Hs].
  intros spec a b c w. cbv zeta.
  pose proof (convert_in_range buffer spec a b c w s Hs) as Hc.
  destruct (fst _); exact Hc.
Qed.

Lemma stored_values_in_range_witness :
  exists (n off' : Z) (slots' : list Value),
    fast_fscanf_mem (str "70000 -1") 8 0 (str "%hd %hu")
      [VShort 0; VUShort 0]
    = Some (n, off', slots') /\ Forall in_range slots'.
Proof.
  apply (stored_values_in_range (str "70000 -1") 8 0 (str "%hd %hu")
           [VShort 0; VUShort 0]).
  repeat constructor; simpl; lia.
Defined.

(** ** Every match consumes a character *)

Lemma readIntegerToken_progress (buffer : list ascii) (ms : MemScanner)
    (allowSign : bool) (base : Z) :
  let '(got, tok, ms') := readIntegerToken buffer ms allowSign base 128 in
  got = true -> ptr ms < ptr ms'.
Proof.
  unfold readIntegerToken. change (128 <? 2) with false.
  cbv beta iota zeta.
  pose proof (advances_le _ _ (ms_skip_whitespace_advances buffer ms)) as H1.
  set (ms1 := ms_skip_whitespace buffer ms) in *.
  assert (Hmain : forall (sign : list ascii) (ms2 : MemScanner),
    ptr ms <= ptr ms2 ->
    let '(got, tok, ms') :=
      readInteger_loop buffer (remaining ms2) base 128 sign false ms2 in
    got = true -> ptr ms < ptr ms').
  { intros sign ms2 Hle.
    pose proof (readInteger_loop_shape buffer (remaining ms2) base 128 sign
                  false ms2) as H.
    destruct (readInteger_loop _ _ _ _ _ _ _) as [[got tok] ms'].
    destruct H as (ds & _ & _ & _ & Hg & Hle' & _).
    intros ->. simpl in Hg. symmetry in Hg.
    apply negb_true_iff, Z.eqb_neq in Hg. lia. }
  pose proof (advances_le _ _ (ms_getc_advances buffer ms1)) as H2.
  destruct allowSign; [destruct (chr _ _ || chr _ _) |];
    apply Hmain; lia.
Qed.

Lemma float_classify_invalid (st : FloatSt) (c : ascii) :
  snd (float_classify st c) = false ->
  fs_gotAny (fst (float_classify st c)) = fs_gotAny st.
Proof.
  unfold float_classify.
  destruct (isdigit c); [discriminate |].
  destruct (negb (fs_seenDot st) && chr c "."); [discriminate |].
  destruct (negb (fs_seenExponent st) && _); [discriminate |].
  destruct ((chr c "+" || chr c "-") && _); [| reflexivity].
  destruct (float_last_is_e _); [discriminate | reflexivity].
Qed.

Lemma readFloat_loop_progress (buffer : list ascii) (fuel : nat)
    (bufSize : Z) (st : FloatSt) (ms : MemScanner) :
  let '(st', ms') := readFloat_loop buffer fuel bufSize st ms in
  ptr ms <= ptr ms' /\
  (fs_gotAny st' = true -> fs_gotAny st = true \/ ptr ms < ptr ms').
Proof.
  revert st ms. induction fuel as [| f IH]; intros st ms; simpl;
    [split; [lia | auto] |].
  destruct (ms_eof ms) eqn:E; [split; [lia | auto] |].
  pose proof (float_classify_invalid st (ms_peek buffer ms)) as Hinv.
  destruct (float_classify st (ms_peek buffer ms)) as [st1 valid].
  simpl in Hinv. destruct valid; simpl.
  - rewrite (ms_getc_not_eof _ _ E). simpl snd.
    match goal with
    | |- context [readFloat_loop buffer f bufSize ?st2 ?ms2] =>
        specialize (IH st2 ms2);
        destruct (readFloat_loop buffer f bufSize st2 ms2) as [st' ms']
    end.
    simpl in IH. destruct IH as [Hle _]. split; [lia |]. intros _. right. lia.
  - split; [lia |]. rewrite (Hinv eq_refl). auto.
Qed.

Lemma readFloatToken_progress (buffer : list ascii) (ms : MemScanner) :
  let '(got, tok, ms') := readFloatToken buffer ms 256 in
  got = true -> ptr ms < ptr ms'.
Proof.
  unfold readFloatToken. change (256 <? 2) with false.
  cbv beta iota zeta.
  pose proof (advances_le _ _ (ms_skip_whitespace_advances buffer ms)) as H1.
  set (ms1 := ms_skip_whitespace buffer ms) in *.
  destruct (chr _ _ || chr _ _) eqn:Sg.
  - assert (E : ms_eof ms1 = false).
    { destruct (ms_eof ms1) eqn:E; [| reflexivity].
      rewrite (ms_peek_eof _ _ E) in Sg. discriminate Sg. }
    rewrite (ms_getc_not_eof _ _ E). simpl snd.
    match goal with
    | |- context [readFloat_loop buffer ?f ?b ?st2 ?ms2] =>
        pose proof (readFloat_loop_progress buffer f b st2 ms2) as H;
        destruct (readFloat_loop buffer f b st2 ms2) as [st' ms']
    end.
    simpl in H. destruct H as [Hle _]. intros _. lia.
  - match goal with
    | |- context [readFloat_loop buffer ?f ?b ?st2 ?ms2] =>
        pose proof (readFloat_loop_progress buffer f b st2 ms2) as H;
        destruct (readFloat_loop buffer f b st2 ms2) as [st' ms']
    end.
    simpl in H. destruct H as [Hle Hg]. intro G.
    destruct (Hg G) as [Hf | Hlt]; [discriminate Hf | lia].
Qed.

Lemma readString_progress (buffer : list ascii) (ms : MemScanner) (w : Z) :
  let '(got, dest, ms') := readString buffer ms w in
  got = true -> ptr ms < ptr ms'.
Proof.
  destruct (readString_takes_token buffer ms w)
    as (tok & ms' & _ & _ & _ & -> & Hp).
  pose proof (advances_le _ _ (ms_skip_whitespace_advances buffer ms)) as H1.
  intro G. apply Z.ltb_lt in G.
  destruct tok as [| c tok]; [rewrite firstn_nil in G; simpl in G; lia |].
  simpl length in Hp. lia.
Qed.

Lemma convert_progress (buffer : list ascii) (spec : ascii) (a b c : bool)
    (w : Z) (s : Scan) :
  fst (convert buffer spec a b c w s) = true ->
  ptr (sc_ms s) < ptr (sc_ms (snd (convert buffer spec a b c w s))).
Proof.
  unfold convert.
  destruct (chr spec "d").
  { unfold conv_d.
    pose proof (readIntegerToken_progress buffer (sc_ms s) true 10) as H.
    destruct (readIntegerToken _ _ _ _ _) as [[got tok] ms].
    destruct got; [| discriminate]. specialize (H eq_refl).
    unfold va_arg. cbv beta iota zeta.
    destruct a, b, (from_chars_long tok 10); simpl; intros; try discriminate;
      exact H. }
  assert (Hu : forall base : Z,
    fst (conv_unsigned buffer base a b s) = true ->
    ptr (sc_ms s) < ptr (sc_ms (snd (conv_unsigned buffer base a b s)))).
  { intro base. unfold conv_unsigned.
    pose proof (readIntegerToken_progress buffer (sc_ms s) false base) as H.
    destruct (readIntegerToken _ _ _ _ _) as [[got tok] ms].
    destruct got; [| discriminate]. specialize (H eq_refl).
    unfold va_arg. cbv beta iota zeta.
    destruct a, b, (from_chars_ulong tok base); simpl; intros;
      try discriminate; exact H. }
  destruct (chr spec "u"); [apply Hu |].
  destruct (chr spec "x"); [apply Hu |].
  destruct (chr spec "f" || chr spec "g" || chr spec "e").
  { unfold conv_f.
    pose proof (readFloatToken_progress buffer (sc_ms s)) as H.
    destruct (readFloatToken _ _ _) as [[got tok] ms].
    destruct got; [| discriminate]. specialize (H eq_refl).
    unfold va_arg. cbv beta iota zeta.
    destruct c, b, (from_chars_double tok), (strtod tok); simpl; intros;
      try discriminate; exact H. }
  destruct (chr spec "c").
  { unfold conv_c, va_arg, readChar. cbv beta iota zeta.
    cbn [sc_ms sc_va sc_matched sc_slots].
    destruct (ms_eof (sc_ms s)) eqn:E; [discriminate |].
    rewrite (ms_getc_not_eof _ _ E). simpl. intros _. lia. }
  destruct (chr spec "s"); [| discriminate].
  unfold conv_s, va_arg. cbv beta iota zeta.
  cbn [sc_ms sc_va sc_matched sc_slots].
  pose proof (readString_progress buffer (sc_ms s)
                (if 0 <? w then w else 1024)) as H.
  destruct (readString _ _ _) as [[got dest] ms].
  destruct got; [| discriminate]. intros _. simpl. exact (H eq_refl).
Qed.

(** X10.  Each matched conversion consumes at least one character: the return
    value of a call is at most the number of bytes the offset has advanced
    by.  A call that matches something returns a larger offset, so a caller
    that loops on a full match always makes progress; and with the offset
    within the buffer the return value is at most the number of bytes
    left. *)
Theorem matches_bounded_by_progress (buffer : list ascii) (size offset : Z)
    (format : list ascii) (slots : list Value) :
  exists (n off' : Z) (slots' : list Value),
    fast_fscanf_mem buffer size offset format slots = Some (n, off', slots')
    /\ 0 <= n <= off' - offset
    /\ (offset <= size -> n <= size - offset).
Proof.
  destruct (run_effect buffer size offset format slots)
    as (s' & vals & k & Hrun & Hp & _ & Hle & M & _).
  unfold fast_fscanf_mem. rewrite Hrun.
  exists (sc_matched s'), (ptr (sc_ms s')), (sc_slots s').
  split; [reflexivity |].
  assert (Hb : sc_matched s' - 0 <= ptr (sc_ms s') - offset).
  { unfold fast_fscanf_run in Hrun.
    refine (scan_loop_preserves buffer
              (fun s => sc_matched s - 0 <= ptr (sc_ms s) - offset) _ _
              (scan_init size offset slots) _ _ _ Hrun); [| simpl; lia].
    intros s f Hs. apply step_preserves; [| | exact Hs].
    - intros ms A. apply advances_le in A. simpl. lia.
    - intros spec a b c w. cbv zeta.
      pose proof (convert_progress buffer spec a b c w s) as Hpr.
      pose proof (convert_effect buffer spec a b c w s) as (A & Hm & _).
      apply advances_le in A.
      destruct (fst _); simpl; [specialize (Hpr eq_refl) |]; lia. }
  split; [lia |]. intro H. specialize (Hle H). lia.
Qed.

Lemma matches_bounded_by_progress_witness :
  exists (n off' : Z) (slots' : list Value),
    fast_fscanf_mem (str "1 2") 3 0 (str "%d%d%d") [VInt 0; VInt 0; VInt 0]
    = Some (n, off', slots') /\ 0 <= n <= off' - 0 /\ n <= 3.
Proof.
  destruct (matches_bounded_by_progress (str "1 2") 3 0 (str "%d%d%d")
              [VInt 0; VInt 0; VInt 0])
    as (n & off' & slots' & Hrun & Hb & Hs).
  exists n, off', slots'. split; [exact Hrun |]. split; [exact Hb |].
  assert (H : n <= 3 - 0) by (apply Hs; lia). lia.
Defined.

(** ** [readFloatToken] *)

Lemma count_occ_snoc (l : list ascii) (c x : ascii) :
  count_occ ascii_dec (l ++ [c]) x
  = (count_occ ascii_dec l x + if ascii_dec c x then 1 else 0)%nat.
Proof.
  rewrite count_occ_app. simpl. destruct (ascii_dec c x); reflexivity.
Qed.

Lemma float_step_inv (bufSize : Z) (st : FloatSt) (c : ascii) :
  float_inv bufSize st ->
  snd (float_classify st c) = true ->
  let st1 := fst (float_classify st c) in
  float_inv bufSize
    (mkFS (push_tok bufSize (fs_out st1) c) (fs_gotAny st1)
          (fs_seenExponent st1) (fs_seenDot st1)).
Proof.
  intros (Hall & Hdot & Hexp & Hlen) Hv.
  assert (Hcase :
    exists sd se : bool,
      fs_out (fst (float_classify st c)) = fs_out st /\
      fs_seenDot (fst (float_classify st c)) = sd /\
      fs_seenExponent (fst (float_classify st c)) = se /\
      float_char c = true /\
      (count_occ ascii_dec (fs_out st) "."%char
       + (if ascii_dec c "." then 1 else 0) <= if sd then 1 else 0)%nat /\
      (count_occ ascii_dec (fs_out st) "e"%char
       + count_occ ascii_dec (fs_out st) "E"%char
       + (if ascii_dec c "e" then 1 else 0)
       + (if ascii_dec c "E" then 1 else 0) <= if se then 1 else 0)%nat).
  { unfold float_classify in *. unfold float_char.
    destruct (isdigit c) eqn:D.
    { exists (fs_seenDot st), (fs_seenExponent st). simpl.
      repeat split; try reflexivity.
      - destruct (ascii_dec c "."); [subst c; discriminate D | lia].
      - destruct (ascii_dec c "e"); [subst c; discriminate D |].
        destruct (ascii_dec c "E"); [subst c; discriminate D | lia]. }
    destruct (negb (fs_seenDot st) && chr c ".") eqn:B2.
    { apply andb_prop in B2 as [Hsd Hc]. apply chr_eq in Hc. subst c.
      apply negb_true_iff in Hsd. rewrite Hsd in Hdot.
      exists true, (fs_seenExponent st). simpl.
      repeat split; try reflexivity; lia. }
    destruct (negb (fs_seenExponent st) && (chr c "e" || chr c "E")) eqn:B3.
    { apply andb_prop in B3 as [Hse Hc].
      apply negb_true_iff in Hse. rewrite Hse in Hexp.
      exists (fs_seenDot st), true. simpl.
      apply orb_prop in Hc as [Hc | Hc]; apply chr_eq in Hc; subst c;
        repeat split; try reflexivity; simpl; lia. }
    destruct ((chr c "+" || chr c "-") && fs_seenExponent st) eqn:B4;
      [| discriminate Hv].
    destruct (float_last_is_e (fs_out st)); [| discriminate Hv].
    apply andb_prop in B4 as [Hc _].
    exists (fs_seenDot st), (fs_seenExponent st). simpl.
    apply orb_prop in Hc as [Hc | Hc]; apply chr_eq in Hc; subst c;
      repeat split; try reflexivity; simpl; lia. }
  destruct Hcase as (sd & se & Ho & Hsd & Hse & Hfc & Hd & He).
  cbv zeta. unfold float_inv. simpl. rewrite Ho, Hsd, Hse.
  destruct (push_tok_shape bufSize (fs_out st) c)
    as (t & Hpush & Ht & _ & Hl).
  rewrite Hpush in *.
  destruct Ht as [-> | ->];
    [rewrite app_nil_r in * | rewrite !count_occ_snoc];
    (split;
     [first [exact Hall
            | apply Forall_app; split;
              [exact Hall | repeat constructor; exact Hfc]]
     | repeat split; lia]).
Qed.

Lemma readFloat_loop_inv (buffer : list ascii) (fuel : nat) (bufSize : Z)
    (st : FloatSt) (ms : MemScanner) :
  float_inv bufSize st ->
  float_inv bufSize (fst (readFloat_loop buffer fuel bufSize st ms)).
Proof.
  revert st ms. induction fuel as [| f IH]; intros st ms H; simpl;
    [exact H |].
  destruct (ms_eof ms); [exact H |].
  pose proof (float_step_inv bufSize st (ms_peek buffer ms) H) as Hs.
  pose proof (float_classify_invalid st (ms_peek buffer ms)) as Hi.
  assert (Hout : snd (float_classify st (ms_peek buffer ms)) = false ->
                 fst (float_classify st (ms_peek buffer ms)) = st).
  { unfold float_classify.
    destruct (isdigit _); [discriminate |].
    destruct (negb (fs_seenDot st) && _); [discriminate |].
    destruct (negb (fs_seenExponent st) && _); [discriminate |].
    destruct ((chr _ "+" || chr _ "-") && _); [| reflexivity].
    destruct (float_last_is_e _); [discriminate | reflexivity]. }
  destruct (float_classify st (ms_peek buffer ms)) as [st1 valid].
  simpl in Hs, Hout. destruct valid; simpl.
  - apply IH. apply Hs. reflexivity.
  - rewrite (Hout eq_refl). exact H.
Qed.

(** X11.  The token [readFloatToken] hands over holds only signs, digits, points
    and exponent markers, with at most one point and at most one exponent
    marker, and at most 255 characters in all. *)
Theorem readFloatToken_token (buffer : list ascii) (ms : MemScanner) :
  let '(got, tok, ms') := readFloatToken buffer ms 256 in
  Forall (fun c => float_char c = true) tok /\
  (count_occ ascii_dec tok "."%char <= 1)%nat /\
  (count_occ ascii_dec tok "e"%char + count_occ ascii_dec tok "E"%char
   <= 1)%nat /\
  (length tok <= 255)%nat.
Proof.
  unfold readFloatToken. change (256 <? 2) with false.
  cbv beta iota zeta.
  set (ms1 := ms_skip_whitespace buffer ms).
  assert (Hfin : forall (st : FloatSt) (ms2 : MemScanner),
    float_inv 256 st ->
    let '(st', ms') := readFloat_loop buffer (remaining ms2) 256 st ms2 in
    Forall (fun c => float_char c = true) (fs_out st') /\
    (count_occ ascii_dec (fs_out st') "."%char <= 1)%nat /\
    (count_occ ascii_dec (fs_out st') "e"%char
     + count_occ ascii_dec (fs_out st') "E"%char <= 1)%nat /\
    (length (fs_out st') <= 255)%nat).
  { intros st ms2 H.
    pose proof (readFloat_loop_inv buffer (remaining ms2) 256 st ms2 H)
      as (H1 & H2 & H3 & H4).
    destruct (readFloat_loop _ _ _ _ _) as [st' ms']. simpl in *.
    split; [exact H1 |].
    split; [destruct (fs_seenDot st'); lia |].
    split; [destruct (fs_seenExponent st'); lia | lia]. }
  destruct (chr (ms_peek buffer ms1) "+" || chr (ms_peek buffer ms1) "-")
    eqn:Sg.
  - match goal with
    | |- context [readFloat_loop buffer ?f ?b ?st2 ?ms2] =>
        assert (Hi : float_inv 256 st2)
    end.
    { unfold float_inv. simpl.
      assert (Hc : ms_peek buffer ms1 = "+"%char \/
                   ms_peek buffer ms1 = "-"%char).
      { apply orb_prop in Sg as [Sg | Sg]; apply chr_eq in Sg; auto. }
      destruct Hc as [-> | ->]; repeat split; simpl; try lia;
        repeat constructor. }
    specialize (Hfin _ (snd (ms_getc buffer ms1)) Hi).
    destruct (readFloat_loop _ _ _ _ _) as [st' ms']. exact Hfin.
  - assert (Hi : float_inv 256 (mkFS [] false false false)).
    { unfold float_inv. simpl. repeat split; try lia. constructor. }
    specialize (Hfin _ ms1 Hi).
    destruct (readFloat_loop _ _ _ _ _) as [st' ms']. exact Hfin.
Qed.

(** ** Formats in pieces *)

(** More fuel than the length of the format changes nothing. *)
Lemma scan_loop_fuel (buffer : list ascii) (f1 f2 : nat) (s : Scan)
    (format : list ascii) :
  (length format <= f1)%nat -> (length format <= f2)%nat ->
  scan_loop buffer f1 s format = scan_loop buffer f2 s format.
Proof.
  revert f2 s format.
  induction f1 as [| f1 IH]; intros [| f2] s format H1 H2; simpl;
    try reflexivity;
    try (destruct format; [reflexivity | simpl in *; lia]).
  destruct (chr (cur format) NUL) eqn:Hnz; [reflexivity |].
  pose proof (step_effect_holds buffer s format) as Hst.
  pose proof (cur_advance format Hnz) as Hcur.
  destruct (step buffer s format) as [s1 g | s1]; [| reflexivity].
  destruct Hst as (Hsuf & _). apply suffix_length in Hsuf.
  rewrite Hcur in H1, H2. simpl in H1, H2.
  apply IH; lia.
Qed.

Lemma cur_percent_cons (X : list ascii) :
  chr (cur X) "%" = true -> exists X' : list ascii, X = "%"%char :: X'.
Proof.
  destruct X as [| c X']; [discriminate |].
  intro H. apply chr_eq in H. simpl in H. subst c. now exists X'.
Qed.

Lemma skip_precision_app (q X : list ascii) :
  skip_precision q <> [] \/ chr (cur X) "%" = true ->
  skip_precision (q ++ X) = skip_precision q ++ X.
Proof.
  induction q as [| c q IH]; intro H.
  - destruct H as [H | H]; [now elim H |].
    destruct (cur_percent_cons X H) as [X' ->]. reflexivity.
  - simpl in *. destruct (chr c "." || isdigit c); [apply IH, H |].
    reflexivity.
Qed.

Lemma gather_width_app (w q X : list ascii) :
  snd (gather_width w q) <> [] \/ chr (cur X) "%" = true ->
  gather_width w (q ++ X)
  = (fst (gather_width w q), snd (gather_width w q) ++ X).
Proof.
  revert w. induction q as [| c q IH]; intros w H.
  - destruct H as [H | H]; [now elim H |].
    destruct (cur_percent_cons X H) as [X' ->]. reflexivity.
  - simpl in *. destruct (isdigit c && _); [apply IH, H | reflexivity].
Qed.

Lemma cur_app (q X : list ascii) : q <> [] -> cur (q ++ X) = cur q.
Proof. destruct q; [intro H; now elim H | reflexivity]. Qed.

Lemma advance_app (q X : list ascii) :
  q <> [] -> advance (q ++ X) = advance q ++ X.
Proof. destruct q; [intro H; now elim H | reflexivity]. Qed.

Lemma cur_percent_not_modifier (X : list ascii) :
  chr (cur X) "%" = true ->
  chr (cur X) "h" = false /\ chr (cur X) "l" = false /\
  chr (cur X) "L" = false /\ isdigit (cur X) = false /\
  chr (cur X) NUL = false /\ supported (cur X) = false.
Proof.
  intro H. apply chr_eq in H. rewrite H. repeat split; reflexivity.
Qed.

(** The header of a directive is read off the characters before the type
    letter: what follows the type letter, or a ['%'] that cuts the header
    short, is left untouched. *)
Lemma directive_header_app (q X : list ascii) :
  snd (directive_header q) <> [] \/ chr (cur X) "%" = true ->
  directive_header (q ++ X)
  = (fst (directive_header q), snd (directive_header q) ++ X).
Proof.
  unfold directive_header. cbv zeta. intro H.
  assert (Hw : forall (a b c : bool) (g : list ascii),
    snd (let '(strWidth, format) :=
           if isdigit (cur g)
           then let '(widthStr, format) := gather_width [] g in
                (atoi widthStr, format)
           else (0, g) in (a, b, c, strWidth, format)) <> []
    \/ chr (cur X) "%" = true ->
    (let '(strWidth, format) :=
       if isdigit (cur (g ++ X))
       then let '(widthStr, format) := gather_width [] (g ++ X) in
            (atoi widthStr, format)
       else (0, g ++ X) in (a, b, c, strWidth, format))
    = (fst (let '(strWidth, format) :=
              if isdigit (cur g)
              then let '(widthStr, format) := gather_width [] g in
                   (atoi widthStr, format)
              else (0, g) in (a, b, c, strWidth, format)),
       snd (let '(strWidth, format) :=
              if isdigit (cur g)
              then let '(widthStr, format) := gather_width [] g in
                   (atoi widthStr, format)
              else (0, g) in (a, b, c, strWidth, format)) ++ X)).
  { intros a b c g Hg. destruct g as [| x g].
    - destruct Hg as [Hg | Hg]; [now elim Hg |].
      destruct (cur_percent_not_modifier X Hg) as (_ & _ & _ & Hd & _).
      simpl app. rewrite Hd. reflexivity.
    - change (cur ((x :: g) ++ X)) with (cur (x :: g)).
      destruct (isdigit (cur (x :: g))); [| reflexivity].
      assert (Hg' : snd (gather_width [] (x :: g)) <> []
                    \/ chr (cur X) "%" = true).
      { destruct Hg as [Hg | Hg]; [left | now right].
        destruct (gather_width [] (x :: g)); exact Hg. }
      rewrite (gather_width_app [] (x :: g) X Hg').
      destruct (gather_width [] (x :: g)). reflexivity. }
  assert (Hsp : skip_precision q <> [] \/ chr (cur X) "%" = true).
  { destruct H as [H | H]; [left | now right].
    intro E. rewrite E in H. apply H. reflexivity. }
  rewrite (skip_precision_app q X Hsp).
  destruct (skip_precision q) as [| x g] eqn:Eg.
  - destruct Hsp as [Hsp | Hsp]; [now elim Hsp |].
    destruct (cur_percent_not_modifier X Hsp) as (Hh & Hl & HL & Hd & _).
    simpl app. rewrite Hh, Hl, HL, Hd. reflexivity.
  - change (cur ((x :: g) ++ X)) with (cur (x :: g)).
    change (advance ((x :: g) ++ X)) with (g ++ X).
    change (advance (x :: g)) with g in *.
    destruct (chr (cur (x :: g)) "h"); [apply Hw, H |].
    destruct (chr (cur (x :: g)) "l"); [apply Hw, H |].
    destruct (chr (cur (x :: g)) "L"); [apply Hw, H |].
    apply (Hw false false false (x :: g)), H.
Qed.

(** An iteration that goes on has read only characters of the format it
    has passed: with more format appended, it does the same. *)
Lemma step_app (buffer : list ascii) (s s1 : Scan) (f1 g f2 : list ascii) :
  chr (cur f1) NUL = false ->
  step buffer s f1 = Continue s1 g ->
  step buffer s (f1 ++ f2) = Continue s1 (g ++ f2).
Proof.
  intros Hnz Hst.
  assert (Hne : f1 <> []).
  { intro E. subst f1. discriminate Hnz. }
  destruct (chr (cur f1) "%") eqn:E.
  - rewrite step_percent in Hst by exact E.
    rewrite step_percent by (rewrite cur_app; assumption).
    rewrite advance_app by exact Hne.
    unfold step_conversion in *.
    assert (Hr : snd (directive_header (advance f1)) <> []).
    { destruct (directive_header (advance f1)) as [[[[a b] c] w] r].
      simpl. intro Er. subst r. discriminate Hst. }
    rewrite (directive_header_app _ f2 (or_introl Hr)).
    destruct (directive_header (advance f1)) as [[[[a b] c] w] r].
    simpl in Hr. simpl fst. simpl snd. cbv zeta in *.
    rewrite cur_app, advance_app by exact Hr.
    destruct (chr (cur r) NUL); [discriminate Hst |].
    destruct (convert _ _ _ _ _ _ _) as [ok s0].
    destruct ok; [| discriminate Hst].
    injection Hst as <- <-. reflexivity.
  - rewrite step_other in Hst by exact E.
    rewrite step_other by (rewrite cur_app; assumption).
    rewrite cur_app, advance_app by exact Hne.
    destruct (isspace (cur f1)); [injection Hst as <- <-; reflexivity |].
    destruct (chr (cur f1) LF); [injection Hst as <- <-; reflexivity |].
    cbv zeta in *. destruct (ms_eof _); [discriminate Hst |].
    destruct (ms_getc _ _) as [c ms].
    destruct (negb _); [discriminate Hst |].
    injection Hst as <- <-. reflexivity.
Qed.

(** ** Digits and points after ['%'] *)

Lemma skip_precision_digits (ds f : list ascii) :
  forallb (fun c => chr c "." || isdigit c) ds = true ->
  skip_precision (ds ++ f) = skip_precision f.
Proof.
  induction ds as [| c ds IH]; [reflexivity |].
  simpl. intro H. apply andb_prop in H as [Hc Hr]. rewrite Hc. apply IH, Hr.
Qed.

Lemma step_precision_ignored (buffer : list ascii) (s : Scan)
    (ds f : list ascii) :
  forallb (fun c => chr c "." || isdigit c) ds = true ->
  step buffer s ("%"%char :: ds ++ f) = step buffer s ("%"%char :: f).
Proof.
  intro H. rewrite !step_percent by reflexivity.
  change (advance ("%"%char :: ds ++ f)) with (ds ++ f).
  change (advance ("%"%char :: f)) with f.
  unfold directive_header. now rewrite (skip_precision_digits ds f H).
Qed.

Lemma step_before_percent (buffer : list ascii) (s : Scan)
    (q X1 X2 : list ascii) :
  q <> [] ->
  match step buffer s (q ++ "%"%char :: X1),
        step buffer s (q ++ "%"%char :: X2) with
  | Break a, Break b => a = b
  | Continue a g1, Continue b g2 =>
      a = b /\
      exists q' : list ascii,
        g1 = q' ++ "%"%char :: X1 /\ g2 = q' ++ "%"%char :: X2
  | _, _ => False
  end.
Proof.
  intro Hne. destruct (chr (cur q) "%") eqn:E.
  - rewrite !step_percent by (rewrite cur_app; assumption).
    rewrite !advance_app by exact Hne.
    rewrite !directive_header_app by (right; reflexivity).
    unfold step_conversion.
    destruct (directive_header (advance q)) as [[[[a b] c] w] r].
    simpl fst. simpl snd. cbv zeta.
    destruct r as [| x r].
    + simpl app. change (cur ("%"%char :: X1)) with "%"%char.
      change (cur ("%"%char :: X2)) with "%"%char.
      change (chr "%" NUL) with false. cbv iota.
      rewrite convert_unsupported by reflexivity. reflexivity.
    + change (cur ((x :: r) ++ "%"%char :: X1)) with x.
      change (cur ((x :: r) ++ "%"%char :: X2)) with x.
      destruct (chr x NUL); [reflexivity |].
      destruct (convert _ _ _ _ _ _ _) as [ok s0].
      destruct ok; [| reflexivity].
      split; [reflexivity |]. exists r. split; reflexivity.
  - rewrite !step_other by (rewrite cur_app; assumption).
    rewrite !cur_app, !advance_app by exact Hne.
    destruct (isspace (cur q)).
    { split; [reflexivity |]. exists (advance q). split; reflexivity. }
    destruct (chr (cur q) LF).
    { split; [reflexivity |]. exists (advance q). split; reflexivity. }
    cbv zeta. destruct (ms_eof _); [reflexivity |].
    destruct (ms_getc _ _) as [c ms].
    destruct (negb _); [reflexivity |].
    split; [reflexivity |]. exists (advance q). split; reflexivity.
Qed.

Lemma scan_loop_precision_ignored (buffer : list ascii) (fuel : nat)
    (s : Scan) (p ds f : list ascii) :
  forallb (fun c => chr c "." || isdigit c) ds = true ->
  scan_loop buffer fuel s (p ++ "%"%char :: ds ++ f)
  = scan_loop buffer fuel s (p ++ "%"%char :: f).
Proof.
  intro H. revert s p. induction fuel as [| k IH]; intros s p.
  - destruct p; reflexivity.
  - destruct p as [| c p].
    + simpl app. simpl scan_loop.
      change (chr (cur ("%"%char :: ds ++ f)) NUL) with false.
      change (chr (cur ("%"%char :: f)) NUL) with false. cbv iota.
      now rewrite (step_precision_ignored buffer s ds f H).
    + simpl scan_loop.
      change (cur ((c :: p) ++ "%"%char :: ds ++ f)) with c.
      change (cur ((c :: p) ++ "%"%char :: f)) with c.
      destruct (chr c NUL); [reflexivity |].
      pose proof (step_before_percent buffer s (c :: p) (ds ++ f) f
                    ltac:(discriminate)) as Hst.
      simpl app in Hst |- *.
      destruct (step buffer s (c :: p ++ "%"%char :: ds ++ f))
        as [a g1 | a],
        (step buffer s (c :: p ++ "%"%char :: f)) as [b g2 | b];
        try contradiction.
      * destruct Hst as (-> & q' & -> & ->). apply IH.
      * now subst.
Qed.

(** X12.  Digits and points written straight after a ['%'], anywhere in a
    format, have no effect on a call: they are passed over before the
    length modifier and the type letter are read.  A field width or a
    precision put there bounds nothing, for the numeric conversions as for
    the others. *)
Theorem precision_digits_ignored (buffer : list ascii) (size offset : Z)
    (p ds f : list ascii) (slots : list Value) :
  forallb (fun c => chr c "." || isdigit c) ds = true ->
  fast_fscanf_mem buffer size offset (p ++ "%"%char :: ds ++ f) slots
  = fast_fscanf_mem buffer size offset (p ++ "%"%char :: f) slots.
Proof.
  intro H. unfold fast_fscanf_mem, fast_fscanf_run.
  rewrite (scan_loop_fuel buffer (length (p ++ "%"%char :: f))
             (length (p ++ "%"%char :: ds ++ f)) _ (p ++ "%"%char :: f));
    [| lia | rewrite !length_app; simpl; rewrite length_app; lia].
  now rewrite (scan_loop_precision_ignored buffer _ _ p ds f H).
Qed.

Lemma precision_digits_ignored_witness :
  fast_fscanf_mem (str "12345 1.5") 9 0 (str "%2d %.1f") [VInt 0; VFloat []]
  = fast_fscanf_mem (str "12345 1.5") 9 0 (str "%2d %f") [VInt 0; VFloat []].
Proof.
  apply (precision_digits_ignored (str "12345 1.5") 9 0 (str "%2d ")
           (str ".1") (str "f") [VInt 0; VFloat []]).
  reflexivity.
Defined.

(** ** The scanners do not depend on the ghost history *)

Section SamePosition.

Variable buffer : list ascii.

Lemma same_pos_refl (a : MemScanner) : same_pos a a.
Proof. split; reflexivity. Qed.

Lemma same_pos_eof (a b : MemScanner) :
  same_pos a b -> ms_eof a = ms_eof b.
Proof. intros [Hp He]. unfold ms_eof. now rewrite Hp, He. Qed.

Lemma same_pos_remaining (a b : MemScanner) :
  same_pos a b -> remaining a = remaining b.
Proof. intros [Hp He]. unfold remaining. now rewrite Hp, He. Qed.

Lemma same_pos_peek (a b : MemScanner) :
  same_pos a b -> ms_peek buffer a = ms_peek buffer b.
Proof.
  intro H. unfold ms_peek. rewrite (same_pos_eof _ _ H).
  destruct H as [-> _]. reflexivity.
Qed.

Lemma same_pos_next (a b : MemScanner) :
  same_pos a b ->
  same_pos (set_ptr a (ptr a + 1)) (set_ptr b (ptr b + 1)).
Proof. intros [Hp He]. split; simpl; [now rewrite Hp | exact He]. Qed.

Lemma same_pos_getc (a b : MemScanner) :
  same_pos a b ->
  fst (ms_getc buffer a) = fst (ms_getc buffer b) /\
  same_pos (snd (ms_getc buffer a)) (snd (ms_getc buffer b)).
Proof.
  intro H. unfold ms_getc. rewrite (same_pos_eof _ _ H).
  destruct (ms_eof b); simpl; [split; [reflexivity | exact H] |].
  split; [destruct H as [-> _]; reflexivity | apply same_pos_next, H].
Qed.

Lemma same_pos_ungetc (a b : MemScanner) :
  same_pos a b -> same_pos (ms_ungetc a) (ms_ungetc b).
Proof.
  intros [Hp He]. unfold ms_ungetc. rewrite !ungetc_test_false, Hp, He.
  destruct (ptr b >? end_ b); split; simpl; auto.
Qed.

Lemma same_pos_skip_loop (fuel : nat) (a b : MemScanner) :
  same_pos a b ->
  same_pos (skip_whitespace_loop buffer fuel a)
           (skip_whitespace_loop buffer fuel b).
Proof.
  revert a b. induction fuel as [| f IH]; intros a b H; simpl; [exact H |].
  rewrite (same_pos_eof _ _ H). replace (ptr a) with (ptr b) by (symmetry; apply H).
  destruct (negb (ms_eof b) && isspace (deref buffer (ptr b)));
    [| exact H].
  apply IH. destruct H as [Hp He]. split; simpl; [reflexivity | exact He].
Qed.

Lemma same_pos_skip (a b : MemScanner) :
  same_pos a b ->
  same_pos (ms_skip_whitespace buffer a) (ms_skip_whitespace buffer b).
Proof.
  intro H. unfold ms_skip_whitespace. rewrite (same_pos_remaining _ _ H).
  apply same_pos_skip_loop, H.
Qed.

Lemma same_pos_readString_loop (fuel : nat) (w : Z) (dest : list ascii)
    (a b : MemScanner) :
  same_pos a b ->
  fst (readString_loop buffer fuel w dest a)
  = fst (readString_loop buffer fuel w dest b) /\
  same_pos (snd (readString_loop buffer fuel w dest a))
           (snd (readString_loop buffer fuel w dest b)).
Proof.
  revert dest a b. induction fuel as [| f IH]; intros dest a b H; simpl;
    [split; [reflexivity | exact H] |].
  rewrite (same_pos_eof _ _ H), (same_pos_peek _ _ H).
  destruct (ms_eof b); [split; [reflexivity | exact H] |].
  destruct (isspace _); [split; [reflexivity | exact H] |].
  apply IH, same_pos_getc, H.
Qed.

Lemma same_pos_readString (w : Z) (a b : MemScanner) :
  same_pos a b ->
  fst (readString buffer a w) = fst (readString buffer b w) /\
  same_pos (snd (readString buffer a w)) (snd (readString buffer b w)).
Proof.
  intro H. unfold readString. cbv zeta.
  pose proof (same_pos_skip _ _ H) as H1.
  rewrite (same_pos_remaining _ _ H1).
  match goal with
  | |- context [readString_loop buffer ?f ?w' [] _] =>
      pose proof (same_pos_readString_loop f w' [] _ _ H1) as [Hf Hs]
  end.
  destruct (readString_loop _ _ _ _ (ms_skip_whitespace buffer a)),
           (readString_loop _ _ _ _ (ms_skip_whitespace buffer b)).
  simpl in *. subst. split; [reflexivity | exact Hs].
Qed.

Lemma same_pos_readInteger_loop (fuel : nat) (base bufSize : Z)
    (outBuf : list ascii) (got : bool) (a b : MemScanner) :
  same_pos a b ->
  fst (readInteger_loop buffer fuel base bufSize outBuf got a)
  = fst (readInteger_loop buffer fuel base bufSize outBuf got b) /\
  same_pos (snd (readInteger_loop buffer fuel base bufSize outBuf got a))
           (snd (readInteger_loop buffer fuel base bufSize outBuf got b)).
Proof.
  revert outBuf got a b.
  induction fuel as [| f IH]; intros outBuf got a b H; simpl;
    [split; [reflexivity | exact H] |].
  rewrite (same_pos_eof _ _ H), (same_pos_peek _ _ H).
  destruct (ms_eof b); [split; [reflexivity | exact H] |].
  destruct (negb _); [split; [reflexivity | exact H] |].
  apply IH, same_pos_getc, H.
Qed.

Lemma same_pos_readIntegerToken (allowSign : bool) (base bufSize : Z)
    (a b : MemScanner) :
  same_pos a b ->
  fst (readIntegerToken buffer a allowSign base bufSize)
  = fst (readIntegerToken buffer b allowSign base bufSize) /\
  same_pos (snd (readIntegerToken buffer a allowSign base bufSize))
           (snd (readIntegerToken buffer b allowSign base bufSize)).
Proof.
  intro H. unfold readIntegerToken.
  destruct (bufSize <? 2); [split; [reflexivity | exact H] |].
  cbv zeta. pose proof (same_pos_skip _ _ H) as H1.
  rewrite (same_pos_peek _ _ H1).
  pose proof (same_pos_getc _ _ H1) as [_ H2].
  destruct allowSign; [destruct (chr _ _ || chr _ _) |]; cbv iota beta;
    first [ rewrite (same_pos_remaining _ _ H2);
            apply same_pos_readInteger_loop, H2
          | rewrite (same_pos_remaining _ _ H1);
            apply same_pos_readInteger_loop, H1 ].
Qed.

Lemma same_pos_readFloat_loop (fuel : nat) (bufSize : Z) (st : FloatSt)
    (a b : MemScanner) :
  same_pos a b ->
  fst (readFloat_loop buffer fuel bufSize st a)
  = fst (readFloat_loop buffer fuel bufSize st b) /\
  same_pos (snd (readFloat_loop buffer fuel bufSize st a))
           (snd (readFloat_loop buffer fuel bufSize st b)).
Proof.
  revert st a b. induction fuel as [| f IH]; intros st a b H; simpl;
    [split; [reflexivity | exact H] |].
  rewrite (same_pos_eof _ _ H), (same_pos_peek _ _ H).
  destruct (ms_eof b); [split; [reflexivity | exact H] |].
  destruct (float_classify _ _) as [st1 valid].
  destruct (negb valid); [split; [reflexivity | exact H] |].
  apply IH, same_pos_getc, H.
Qed.

Lemma same_pos_readFloatToken (bufSize : Z) (a b : MemScanner) :
  same_pos a b ->
  fst (readFloatToken buffer a bufSize)
  = fst (readFloatToken buffer b bufSize) /\
  same_pos (snd (readFloatToken buffer a bufSize))
           (snd (readFloatToken buffer b bufSize)).
Proof.
  intro H. unfold readFloatToken.
  destruct (bufSize <? 2); [split; [reflexivity | exact H] |].
  cbv zeta. pose proof (same_pos_skip _ _ H) as H1.
  rewrite (same_pos_peek _ _ H1).
  pose proof (same_pos_getc _ _ H1) as [_ H2].
  assert (Hfin : forall (st : FloatSt) (x y : MemScanner),
    same_pos x y ->
    fst (let '(st', ms') :=
           readFloat_loop buffer (remaining x) bufSize st x in
         (fs_gotAny st', fs_out st', ms'))
    = fst (let '(st', ms') :=
             readFloat_loop buffer (remaining y) bufSize st y in
           (fs_gotAny st', fs_out st', ms')) /\
    same_pos (snd (let '(st', ms') :=
                     readFloat_loop buffer (remaining x) bufSize st x in
                   (fs_gotAny st', fs_out st', ms')))
             (snd (let '(st', ms') :=
                     readFloat_loop buffer (remaining y) bufSize st y in
                   (fs_gotAny st', fs_out st', ms')))).
  { intros st x y Hxy. rewrite (same_pos_remaining _ _ Hxy).
    pose proof (same_pos_readFloat_loop (remaining y) bufSize st _ _ Hxy)
      as [Hf Hs].
    destruct (readFloat_loop buffer (remaining y) bufSize st x),
             (readFloat_loop buffer (remaining y) bufSize st y).
    simpl in *. subst. split; [reflexivity | exact Hs]. }
  destruct (chr _ _ || chr _ _); cbv iota beta;
    [apply Hfin, H2 | apply Hfin, H1].
Qed.

Lemma same_pos_readChar (a b : MemScanner) :
  same_pos a b ->
  fst (readChar buffer a) = fst (readChar buffer b) /\
  same_pos (snd (readChar buffer a)) (snd (readChar buffer b)).
Proof.
  intro H. unfold readChar. rewrite (same_pos_eof _ _ H).
  destruct (ms_eof b); [split; [reflexivity | exact H] |].
  pose proof (same_pos_getc _ _ H) as [Hf Hs].
  destruct (ms_getc buffer a), (ms_getc buffer b). simpl in *. subst.
  split; [reflexivity | exact Hs].
Qed.

Lemma same_pos_newline_loop (fuel : nat) (a b : MemScanner) :
  same_pos a b ->
  same_pos (newline_loop buffer fuel a) (newline_loop buffer fuel b).
Proof.
  revert a b. induction fuel as [| f IH]; intros a b H; simpl; [exact H |].
  rewrite (same_pos_eof _ _ H).
  destruct (ms_eof b); [exact H |].
  pose proof (same_pos_getc _ _ H) as [Hf Hs].
  destruct (ms_getc buffer a) as [c x], (ms_getc buffer b) as [c' y].
  simpl in *. subst c'.
  destruct (chr c LF); [exact Hs |].
  destruct (negb _); [apply same_pos_ungetc, Hs | apply IH, Hs].
Qed.

End SamePosition.

(** ** A call resumed where another stopped *)

Lemma store_shift (pre slots : list Value) (i : nat) (v : Value) :
  store (length pre + i) v (pre ++ slots) = pre ++ store i v slots.
Proof.
  induction pre as [| x pre IH]; simpl; [reflexivity | now rewrite IH].
Qed.

Section Shifted.

Variables (buffer : list ascii) (pre : list Value) (m : Z).

Ltac shifted_done Hs Hva Hm Hsl :=
  split; [reflexivity |]; unfold shifted; simpl;
  split; [exact Hs |];
  split; [lia |];
  split; [lia |];
  rewrite ?Hva, ?Hsl, ?store_shift; reflexivity.

Lemma convert_shifted (spec : ascii) (a b c : bool) (w : Z) (s s0 : Scan) :
  shifted pre m s s0 ->
  fst (convert buffer spec a b c w s) = fst (convert buffer spec a b c w s0)
  /\ shifted pre m (snd (convert buffer spec a b c w s))
                   (snd (convert buffer spec a b c w s0)).
Proof.
  intros (Hpos & Hva & Hm & Hsl). unfold convert.
  destruct (chr spec "d").
  { unfold conv_d.
    pose proof (same_pos_readIntegerToken buffer true 10 128 _ _ Hpos)
      as [Hf Hs].
    destruct (readIntegerToken buffer (sc_ms s) true 10 128) as [[g t] x],
      (readIntegerToken buffer (sc_ms s0) true 10 128) as [[g' t'] y].
    simpl in Hf, Hs. injection Hf as -> ->.
    destruct g', a, b, (from_chars_long t' 10);
      shifted_done Hs Hva Hm Hsl. }
  assert (Hu : forall base : Z,
    fst (conv_unsigned buffer base a b s)
    = fst (conv_unsigned buffer base a b s0) /\
    shifted pre m (snd (conv_unsigned buffer base a b s))
                  (snd (conv_unsigned buffer base a b s0))).
  { intro base. unfold conv_unsigned.
    pose proof (same_pos_readIntegerToken buffer false base 128 _ _ Hpos)
      as [Hf Hs].
    destruct (readIntegerToken buffer (sc_ms s) false base 128)
      as [[g t] x],
      (readIntegerToken buffer (sc_ms s0) false base 128) as [[g' t'] y].
    simpl in Hf, Hs. injection Hf as -> ->.
    destruct g', a, b, (from_chars_ulong t' base);
      shifted_done Hs Hva Hm Hsl. }
  destruct (chr spec "u"); [apply Hu |].
  destruct (chr spec "x"); [apply Hu |].
  destruct (chr spec "f" || chr spec "g" || chr spec "e").
  { unfold conv_f.
    pose proof (same_pos_readFloatToken buffer 256 _ _ Hpos) as [Hf Hs].
    destruct (readFloatToken buffer (sc_ms s) 256) as [[g t] x],
      (readFloatToken buffer (sc_ms s0) 256) as [[g' t'] y].
    simpl in Hf, Hs. injection Hf as -> ->.
    destruct g', c, b, (from_chars_double t'), (strtod t');
      shifted_done Hs Hva Hm Hsl. }
  destruct (chr spec "c").
  { unfold conv_c, va_arg. cbv beta iota zeta.
    cbn [sc_ms sc_va sc_matched sc_slots].
    pose proof (same_pos_readChar buffer _ _ Hpos) as [Hf Hs].
    destruct (readChar buffer (sc_ms s)) as [o x],
      (readChar buffer (sc_ms s0)) as [o' y].
    simpl in Hf, Hs. subst o'.
    destruct o; shifted_done Hs Hva Hm Hsl. }
  destruct (chr spec "s").
  { unfold conv_s, va_arg. cbv beta iota zeta.
    cbn [sc_ms sc_va sc_matched sc_slots].
    pose proof (same_pos_readString buffer (if 0 <? w then w else 1024)
                  _ _ Hpos) as [Hf Hs].
    destruct (readString buffer (sc_ms s) _) as [[g t] x],
      (readString buffer (sc_ms s0) _) as [[g' t'] y].
    simpl in Hf, Hs. injection Hf as -> ->.
    destruct g'; shifted_done Hs Hva Hm Hsl. }
  split; [reflexivity |]. unfold shifted. simpl. auto.
Qed.

Lemma shifted_with_ms (s s0 : Scan) (x y : MemScanner) :
  shifted pre m s s0 -> same_pos x y ->
  shifted pre m (with_ms s x) (with_ms s0 y).
Proof. intros (_ & H) Hxy. split; [exact Hxy | exact H]. Qed.

Lemma step_shifted (s s0 : Scan) (format : list ascii) :
  shifted pre m s s0 ->
  match step buffer s format, step buffer s0 format with
  | Continue a g, Continue b g' => g = g' /\ shifted pre m a b
  | Break a, Break b => shifted pre m a b
  | _, _ => False
  end.
Proof.
  intro H. destruct (chr (cur format) "%") eqn:E.
  - rewrite !step_percent by exact E. unfold step_conversion.
    destruct (directive_header _) as [[[[a b] c] w] r]. cbv zeta.
    destruct (chr (cur r) NUL); [exact H |].
    pose proof (convert_shifted (cur r) a b c w s s0 H) as [Hf Hs].
    destruct (convert buffer (cur r) a b c w s) as [ok x],
      (convert buffer (cur r) a b c w s0) as [ok' y].
    simpl in Hf, Hs. subst ok'.
    destruct ok; [| exact Hs].
    split; [reflexivity |].
    destruct Hs as (H1 & H2 & H3 & H4).
    unfold shifted. simpl. repeat split; try apply H1; auto; lia.
  - rewrite !step_other by exact E.
    pose proof H as (Hpos & _).
    pose proof (same_pos_skip buffer _ _ Hpos) as Hsk.
    destruct (isspace (cur format)).
    { split; [reflexivity |]. apply shifted_with_ms; assumption. }
    destruct (chr (cur format) LF).
    { split; [reflexivity |]. apply shifted_with_ms; [assumption |].
      rewrite (same_pos_remaining _ _ Hpos).
      apply same_pos_newline_loop, Hpos. }
    cbv zeta. rewrite (same_pos_eof _ _ Hsk).
    destruct (ms_eof _); [apply shifted_with_ms; assumption |].
    pose proof (same_pos_getc buffer _ _ Hsk) as [Hf Hs].
    destruct (ms_getc buffer (ms_skip_whitespace buffer (sc_ms s)))
      as [ch x],
      (ms_getc buffer (ms_skip_whitespace buffer (sc_ms s0))) as [ch' y].
    simpl in Hf, Hs. subst ch'.
    destruct (negb _).
    + apply shifted_with_ms; [assumption | apply same_pos_ungetc, Hs].
    + split; [reflexivity |]. apply shifted_with_ms; assumption.
Qed.

Lemma scan_loop_shifted (fuel : nat) (s s0 : Scan) (format : list ascii) :
  shifted pre m s s0 ->
  match scan_loop buffer fuel s format, scan_loop buffer fuel s0 format with
  | Some a, Some b => shifted pre m a b
  | None, None => True
  | _, _ => False
  end.
Proof.
  revert s s0 format. induction fuel as [| f IH]; intros s s0 format H;
    simpl.
  - destruct (chr (cur format) NUL); [exact H | exact I].
  - destruct (chr (cur format) NUL); [exact H |].
    pose proof (step_shifted s s0 format H) as Hst.
    destruct (step buffer s format) as [a g | a],
      (step buffer s0 format) as [b g' | b]; try contradiction.
    + destruct Hst as [<- Hab]. apply IH, Hab.
    + exact Hst.
Qed.

End Shifted.

Lemma scan_through_loop (buffer : list ascii) (fuel : nat) (s s1 : Scan)
    (format : list ascii) :
  scan_through buffer fuel s format = Some s1 ->
  scan_loop buffer fuel s format = Some s1 /\
  advances (sc_ms s) (sc_ms s1) /\
  (sc_va s = Z.to_nat (sc_matched s) -> 0 <= sc_matched s ->
   sc_va s1 = Z.to_nat (sc_matched s1) /\ 0 <= sc_matched s1) /\
  length (sc_slots s1) = length (sc_slots s).
Proof.
  revert s format. induction fuel as [| f IH]; intros s format H.
  - destruct format as [| c r]; simpl in H.
    + injection H as <-. simpl. auto using adv_refl.
    + destruct (chr _ NUL); discriminate H.
  - destruct format as [| c r].
    + simpl in H. injection H as <-. simpl. auto using adv_refl.
    + simpl in H. simpl scan_loop.
      destruct (chr (cur (c :: r)) NUL) eqn:Hnz;
        [simpl in Hnz; rewrite Hnz in H; discriminate H |].
      simpl in Hnz; rewrite Hnz in H.
      pose proof (step_effect_holds buffer s (c :: r)) as Hst.
      destruct (step buffer s (c :: r)) as [a g | a]; [| discriminate H].
      destruct (IH a g H) as (Hrun & A & Hinv & Hlen).
      destruct Hst as (_ & A0 & Hcase).
      split; [rewrite Hnz; exact Hrun |].
      split; [eapply advances_trans; eassumption |].
      split.
      * intros Hva Hm. apply Hinv;
          destruct Hcase as [(E1 & E2 & _) | (E1 & E2 & _)]; lia.
      * rewrite Hlen.
        destruct Hcase as [(_ & _ & ->) | (_ & _ & _ & _ & v & ->)];
          [reflexivity | apply store_length].
Qed.

Lemma scan_through_app (buffer : list ascii) (fuel F : nat) (s s1 : Scan)
    (f1 f2 : list ascii) :
  scan_through buffer fuel s f1 = Some s1 ->
  (length (f1 ++ f2) <= F)%nat ->
  scan_loop buffer F s (f1 ++ f2) = scan_loop buffer F s1 f2.
Proof.
  revert F s f1. induction fuel as [| k IH]; intros F s f1 H HF.
  - destruct f1 as [| c r]; simpl in H.
    + injection H as <-. reflexivity.
    + destruct (chr _ NUL); discriminate H.
  - destruct f1 as [| c r].
    + simpl in H. injection H as <-. reflexivity.
    + simpl in H.
      destruct (chr (cur (c :: r)) NUL) eqn:Hnz;
        [simpl in Hnz; rewrite Hnz in H; discriminate H |].
      pose proof Hnz as Hnz'. simpl in Hnz'. rewrite Hnz' in H.
      pose proof (step_effect_holds buffer s (c :: r)) as Hst.
      destruct (step buffer s (c :: r)) as [a g | a] eqn:Est;
        [| discriminate H].
      destruct Hst as (Hsuf & _). apply suffix_length in Hsuf.
      simpl in Hsuf.
      destruct F as [| F']; [simpl in HF; lia |].
      change (scan_loop buffer (S F') s ((c :: r) ++ f2))
        with (if chr (cur (c :: r)) NUL then Some s
              else match step buffer s ((c :: r) ++ f2) with
                   | Continue s' format' => scan_loop buffer F' s' format'
                   | Break s' => Some s'
                   end).
      rewrite Hnz, (step_app buffer s a (c :: r) g f2 Hnz Est).
      assert (Hl : (length (g ++ f2) <= F')%nat).
      { rewrite length_app in *. simpl in HF. lia. }
      rewrite (IH F' a g H Hl).
      apply scan_loop_fuel; [rewrite length_app in Hl; lia |].
      rewrite length_app in HF. simpl in HF. lia.
Qed.

(** X13.  Two calls threaded through the offset do the work of one.  When a call
    with format [f1] runs to the end of its format, a second call with
    format [f2], started at the offset the first returned and given the
    output pointers the first did not use, returns the same offset and
    leaves the same output variables as a single call with the format
    [f1 ++ f2], whose return value is the sum of the two return values. *)
Theorem calls_compose (buffer : list ascii) (size offset : Z)
    (f1 f2 : list ascii) (slots : list Value) (s1 : Scan) :
  scan_through buffer (length f1) (scan_init size offset slots) f1
  = Some s1 ->
  (Z.to_nat (sc_matched s1) <= length slots)%nat ->
  let n1 := sc_matched s1 in
  let off1 := ptr (sc_ms s1) in
  let slots1 := sc_slots s1 in
  fast_fscanf_mem buffer size offset f1 slots = Some (n1, off1, slots1) /\
  exists (n2 off2 : Z) (slots2 : list Value),
    fast_fscanf_mem buffer size off1 f2 (skipn (Z.to_nat n1) slots1)
    = Some (n2, off2, slots2) /\
    fast_fscanf_mem buffer size offset (f1 ++ f2) slots
    = Some (n1 + n2, off2, firstn (Z.to_nat n1) slots1 ++ slots2).
Proof.
  intros H Hk n1 off1 slots1.
  destruct (scan_through_loop buffer _ _ _ _ H) as (Hrun1 & A & Hinv & Hlen).
  destruct (Hinv eq_refl (Z.le_refl 0)) as [Hva Hn1].
  simpl in Hlen.
  split; [unfold fast_fscanf_mem, fast_fscanf_run; now rewrite Hrun1 |].
  set (k := Z.to_nat n1). set (pre := firstn k slots1).
  destruct (run_effect buffer size off1 f2 (skipn k slots1))
    as (s2 & vals & j & Hrun2 & _).
  exists (sc_matched s2), (ptr (sc_ms s2)), (sc_slots s2).
  split; [unfold fast_fscanf_mem; now rewrite Hrun2 |].
  assert (Hsh : shifted pre n1 s1 (scan_init size off1 (skipn k slots1))).
  { unfold shifted, same_pos. simpl.
    split; [split; [reflexivity | apply (advances_end _ _ A)] |].
    split.
    { unfold pre. rewrite length_firstn. fold n1 in Hva. fold k in Hva.
      unfold slots1. fold n1 k in Hk. lia. }
    split; [lia |]. unfold pre. symmetry. apply firstn_skipn. }
  pose proof (scan_loop_shifted buffer pre n1 (length (f1 ++ f2)) _ _ f2 Hsh)
    as Hloop.
  unfold fast_fscanf_run in Hrun2.
  rewrite (scan_loop_fuel buffer (length (f1 ++ f2)) (length f2)
             (scan_init size off1 (skipn k slots1)) f2) in Hloop
    by (rewrite ?length_app; lia).
  rewrite Hrun2 in Hloop.
  unfold fast_fscanf_mem, fast_fscanf_run.
  rewrite (scan_through_app buffer _ _ _ _ _ f2 H (le_n _)).
  destruct (scan_loop buffer (length (f1 ++ f2)) s1 f2) as [a |];
    [| contradiction].
  destruct Hloop as ((Hp & _) & _ & Hm & Hs).
  now rewrite Hp, Hm, Hs.
Qed.

Lemma calls_compose_witness :
  fast_fscanf_mem (str "12 ab") 5 0 (str "%d") [VInt 0; VString []]
  = Some (1, 2, [VInt 12; VString []]) /\
  exists (n2 off2 : Z) (slots2 : list Value),
    fast_fscanf_mem (str "12 ab") 5 2 (str " %s") [VString []]
    = Some (n2, off2, slots2) /\
    fast_fscanf_mem (str "12 ab") 5 0 (str "%d %s") [VInt 0; VString []]
    = Some (1 + n2, off2, [VInt 12] ++ slots2).
Proof.
  assert (H : scan_through (str "12 ab") (length (str "%d"))
                (scan_init 5 0 [VInt 0; VString []]) (str "%d")
              = Some (mkScan (mkMS 2 5 [2; 1; 0]) 1 1
                             [VInt 12; VString []]))
    by (vm_compute; reflexivity).
  exact (calls_compose (str "12 ab") 5 0 (str "%d") (str " %s")
           [VInt 0; VString []] _ H ltac:(simpl; lia)).
Defined.

(** ** Whitespace of the format in front of a directive that skips it *)









(** ** Bytes before the offset are never read *)

Lemma within_advances_from (lo size : Z) (ms ms' : MemScanner) :
  within_from lo size ms -> advances ms ms' -> within_from lo size ms'.
Proof.
  intros [He Hp] A. split.
  - now rewrite (advances_end _ _ A).
  - pose proof (advances_le _ _ A). lia.
Qed.

Section AgreementFrom.

Variables (lo size : Z) (b1 b2 : list ascii).
Hypothesis Hagree : agree_from lo size b1 b2.

Lemma ms_peek_agree_from (ms : MemScanner) :
  within_from lo size ms -> ms_peek b1 ms = ms_peek b2 ms.
Proof.
  intros [He Hp]. unfold ms_peek. destruct (ms_eof ms) eqn:E;
    [reflexivity |].
  apply Hagree. apply ms_eof_false in E. lia.
Qed.

Lemma ms_getc_agree_from (ms : MemScanner) :
  within_from lo size ms -> ms_getc b1 ms = ms_getc b2 ms.
Proof.
  intros [He Hp]. unfold ms_getc. destruct (ms_eof ms) eqn:E;
    [reflexivity |].
  f_equal. apply Hagree. apply ms_eof_false in E. lia.
Qed.

Lemma within_getc_from (ms : MemScanner) :
  within_from lo size ms -> within_from lo size (snd (ms_getc b2 ms)).
Proof. intro W. eapply within_advances_from, ms_getc_advances. exact W. Qed.

Lemma skip_whitespace_loop_agree_from (fuel : nat) (ms : MemScanner) :
  within_from lo size ms ->
  skip_whitespace_loop b1 fuel ms = skip_whitespace_loop b2 fuel ms.
Proof.
  revert ms. induction fuel as [| f IH]; intros ms W; simpl;
    [reflexivity |].
  destruct (ms_eof ms) eqn:E; simpl; [reflexivity |].
  destruct W as [He Hp]. pose proof (ms_eof_false _ E) as Hlt.
  rewrite (Hagree (ptr ms)) by lia.
  destruct (isspace _); [| reflexivity].
  apply IH. split; simpl; lia.
Qed.

Lemma ms_skip_whitespace_agree_from (ms : MemScanner) :
  within_from lo size ms -> ms_skip_whitespace b1 ms = ms_skip_whitespace b2 ms.
Proof. apply skip_whitespace_loop_agree_from. Qed.

Lemma within_skip_from (ms : MemScanner) :
  within_from lo size ms -> within_from lo size (ms_skip_whitespace b2 ms).
Proof.
  intro W. eapply within_advances_from, ms_skip_whitespace_advances. exact W.
Qed.

Lemma readString_loop_agree_from (fuel : nat) (w : Z) (dest : list ascii)
    (ms : MemScanner) :
  within_from lo size ms ->
  readString_loop b1 fuel w dest ms = readString_loop b2 fuel w dest ms.
Proof.
  revert dest ms. induction fuel as [| f IH]; intros dest ms W; simpl;
    [reflexivity |].
  destruct (ms_eof ms); [reflexivity |].
  rewrite (ms_peek_agree_from _ W), (ms_getc_agree_from _ W).
  destruct (isspace _); [reflexivity |].
  apply IH, within_getc_from, W.
Qed.

Lemma readString_agree_from (ms : MemScanner) (w : Z) :
  within_from lo size ms -> readString b1 ms w = readString b2 ms w.
Proof.
  intro W. unfold readString. cbv zeta.
  rewrite (ms_skip_whitespace_agree_from _ W).
  now rewrite (readString_loop_agree_from _ _ _ _ (within_skip_from _ W)).
Qed.

Lemma readInteger_loop_agree_from (fuel : nat) (base bufSize : Z)
    (outBuf : list ascii) (got : bool) (ms : MemScanner) :
  within_from lo size ms ->
  readInteger_loop b1 fuel base bufSize outBuf got ms =
  readInteger_loop b2 fuel base bufSize outBuf got ms.
Proof.
  revert outBuf got ms.
  induction fuel as [| f IH]; intros outBuf got ms W; simpl;
    [reflexivity |].
  destruct (ms_eof ms); [reflexivity |].
  rewrite (ms_peek_agree_from _ W), (ms_getc_agree_from _ W).
  destruct (negb _); [reflexivity |].
  apply IH, within_getc_from, W.
Qed.

Lemma readIntegerToken_agree_from (ms : MemScanner) (allowSign : bool)
    (base bufSize : Z) :
  within_from lo size ms ->
  readIntegerToken b1 ms allowSign base bufSize =
  readIntegerToken b2 ms allowSign base bufSize.
Proof.
  intro W. unfold readIntegerToken.
  destruct (bufSize <? 2); [reflexivity |]. cbv zeta.
  rewrite (ms_skip_whitespace_agree_from _ W).
  pose proof (within_skip_from _ W) as W1.
  rewrite (ms_peek_agree_from _ W1), (ms_getc_agree_from _ W1).
  destruct allowSign; [destruct (chr _ _ || chr _ _) |];
    apply readInteger_loop_agree_from;
    try exact W1; apply within_getc_from, W1.
Qed.

Lemma readFloat_loop_agree_from (fuel : nat) (bufSize : Z) (st : FloatSt)
    (ms : MemScanner) :
  within_from lo size ms ->
  readFloat_loop b1 fuel bufSize st ms = readFloat_loop b2 fuel bufSize st ms.
Proof.
  revert st ms. induction fuel as [| f IH]; intros st ms W; simpl;
    [reflexivity |].
  destruct (ms_eof ms); [reflexivity |].
  rewrite (ms_peek_agree_from _ W), (ms_getc_agree_from _ W).
  destruct (float_classify _ _) as [st1 valid].
  destruct (negb valid); [reflexivity |].
  apply IH, within_getc_from, W.
Qed.

Lemma readFloatToken_agree_from (ms : MemScanner) (bufSize : Z) :
  within_from lo size ms ->
  readFloatToken b1 ms bufSize = readFloatToken b2 ms bufSize.
Proof.
  intro W. unfold readFloatToken.
  destruct (bufSize <? 2); [reflexivity |]. cbv zeta.
  rewrite (ms_skip_whitespace_agree_from _ W).
  pose proof (within_skip_from _ W) as W1.
  rewrite (ms_peek_agree_from _ W1), (ms_getc_agree_from _ W1).
  destruct (chr _ _ || chr _ _).
  - now rewrite (readFloat_loop_agree_from _ _ _ _ (within_getc_from _ W1)).
  - now rewrite (readFloat_loop_agree_from _ _ _ _ W1).
Qed.

Lemma readChar_agree_from (ms : MemScanner) :
  within_from lo size ms -> readChar b1 ms = readChar b2 ms.
Proof.
  intro W. unfold readChar. now rewrite (ms_getc_agree_from _ W).
Qed.

Lemma newline_loop_agree_from (fuel : nat) (ms : MemScanner) :
  within_from lo size ms -> newline_loop b1 fuel ms = newline_loop b2 fuel ms.
Proof.
  revert ms. induction fuel as [| f IH]; intros ms W; simpl;
    [reflexivity |].
  destruct (ms_eof ms); [reflexivity |].
  rewrite (ms_getc_agree_from _ W).
  pose proof (within_getc_from _ W) as W1.
  destruct (ms_getc b2 ms) as [c ms']. simpl in W1.
  destruct (chr c LF); [reflexivity |].
  destruct (negb _); [reflexivity | apply IH, W1].
Qed.

Lemma convert_agree_from (spec : ascii) (isShort isLong isLongDouble : bool)
    (w : Z) (s : Scan) :
  within_from lo size (sc_ms s) ->
  convert b1 spec isShort isLong isLongDouble w s =
  convert b2 spec isShort isLong isLongDouble w s.
Proof.
  intro W.
  unfold convert, conv_u, conv_x, conv_d, conv_unsigned, conv_f, conv_c,
    conv_s, va_arg. cbv zeta. simpl sc_ms.
  rewrite !(readIntegerToken_agree_from _ _ _ _ W), (readFloatToken_agree_from _ _ W),
    (readChar_agree_from _ W), (readString_agree_from _ _ W).
  reflexivity.
Qed.

Lemma step_agree_from (s : Scan) (format : list ascii) :
  within_from lo size (sc_ms s) -> step b1 s format = step b2 s format.
Proof.
  intro W. destruct (chr (cur format) "%") eqn:E.
  - rewrite !(step_percent _ _ _ E). unfold step_conversion.
    destruct (directive_header _) as [[[[a b] c] w] f].
    now rewrite (convert_agree_from _ _ _ _ _ _ W).
  - rewrite !(step_other _ _ _ E). cbv zeta.
    rewrite (ms_skip_whitespace_agree_from _ W), (newline_loop_agree_from _ _ W).
    now rewrite (ms_getc_agree_from _ (within_skip_from _ W)).
Qed.

Lemma scan_loop_agree_from (fuel : nat) (s : Scan) (format : list ascii) :
  within_from lo size (sc_ms s) ->
  scan_loop b1 fuel s format = scan_loop b2 fuel s format.
Proof.
  revert s format. induction fuel as [| f IH]; intros s format W; simpl;
    [reflexivity |].
  destruct (chr (cur format) NUL); [reflexivity |].
  rewrite (step_agree_from _ _ W).
  pose proof (step_effect_holds b2 s format) as Hst.
  destruct (step b2 s format) as [s1 f1 | s1]; [| reflexivity].
  destruct Hst as (_ & A & _).
  apply IH. eapply within_advances_from; eassumption.
Qed.

End AgreementFrom.
(** X15.  A call reads the buffer from the offset passed up to [size] only: two
    memories that hold the same bytes there give the same count, offset and
    output slots, whatever they hold before the offset and from [size] on. *)
Theorem reads_only_from_offset (buffer buffer' : list ascii)
    (size offset : Z) (format : list ascii) (slots : list Value) :
  agree_from offset size buffer buffer' ->
  fast_fscanf_mem buffer' size offset format slots
  = fast_fscanf_mem buffer size offset format slots.
Proof.
  intro H. unfold fast_fscanf_mem, fast_fscanf_run.
  rewrite (scan_loop_agree_from offset size buffer buffer' H
             (length format) (scan_init size offset slots) format);
    [reflexivity |].
  split; simpl; [reflexivity | lia].
Qed.

Lemma reads_only_from_offset_witness :
  fast_fscanf_mem (str "zz 42;9") 6 2 (str "%d;") [VInt 0]
  = fast_fscanf_mem (str "17 42;0") 6 2 (str "%d;") [VInt 0].
Proof.
  apply (reads_only_from_offset (str "17 42;0") (str "zz 42;9") 6 2
           (str "%d;") [VInt 0]).
  intros p Hp.
  assert (Hc : p = 2 \/ p = 3 \/ p = 4 \/ p = 5) by lia.
  destruct Hc as [-> | [-> | [-> | ->]]]; reflexivity.
Defined.

(** * [src/fscanfasta.c] *)

(** ** [stripQuotes] *)

Lemma nth_last_app (l : list ascii) (c : ascii) :
  nth (length (l ++ [c]) - 1) (l ++ [c]) NUL = c.
Proof.
  rewrite length_app. simpl length.
  replace (length l + 1 - 1)%nat with (length l) by lia.
  rewrite app_nth2 by lia. now rewrite Nat.sub_diag.
Qed.

Lemma firstn_all_but_last (l : list ascii) (c : ascii) :
  firstn (length (l ++ [c]) - 1) (l ++ [c]) = l.
Proof.
  rewrite length_app. simpl length.
  replace (length l + 1 - 1)%nat with (length l + 0)%nat by lia.
  rewrite firstn_app_2. simpl. apply app_nil_r.
Qed.

(** X17.  [stripQuotes] undoes quoting: it takes one quote character, single or
    double, off each end of a string, whether or not the two are the same
    kind; it leaves unchanged a string that has a quote at neither end; and
    it removes at most two characters. *)
Theorem stripQuotes_spec (body : list ascii) (q q' : ascii) :
  (is_quote q = true -> is_quote q' = true ->
   stripQuotes (q :: body ++ [q']) = body) /\
  (is_quote (nth 0 body NUL) = false ->
   is_quote (nth (length body - 1) body NUL) = false ->
   stripQuotes body = body) /\
  (length body - 2 <= length (stripQuotes body) <= length body)%nat.
Proof.
  split; [| split].
  - intros Hq Hq'. unfold stripQuotes.
    change (nth 0 (q :: body ++ [q']) NUL) with q. rewrite Hq.
    simpl length. simpl Nat.eqb. cbv iota. simpl tl.
    assert (Hpos : (0 < length (body ++ [q']))%nat)
      by (rewrite length_app; simpl; lia).
    replace (Nat.ltb 0 (S (length (body ++ [q'])) - 1)) with true
      by (symmetry; apply Nat.ltb_lt; lia).
    replace (Nat.ltb 0 (length (body ++ [q']))) with true
      by (symmetry; apply Nat.ltb_lt; lia).
    rewrite nth_last_app, Hq'. simpl andb. cbv iota.
    apply firstn_all_but_last.
  - intros H0 Hl. unfold stripQuotes.
    destruct (Nat.eqb (length body) 0); [reflexivity |].
    rewrite H0. destruct (Nat.ltb 0 (length body)); [| reflexivity].
    rewrite Hl, andb_false_r. reflexivity.
  - unfold stripQuotes. destruct body as [| c r]; [simpl; lia |].
    change (Nat.eqb (length (c :: r)) 0) with false. cbv iota.
    change (nth 0 (c :: r) NUL) with c.
    destruct (is_quote c); cbv iota; simpl tl;
      repeat match goal with
      | |- context [if ?b then _ else _] => destruct b
      end;
      rewrite ?length_firstn; simpl length; lia.
Qed.

Lemma stripQuotes_spec_witness :
  stripQuotes (str "'token" ++ [DQUOTE]) = str "token" /\
  stripQuotes (str "token") = str "token".
Proof.
  split.
  - apply (proj1 (stripQuotes_spec (str "token") "'"%char DQUOTE));
      reflexivity.
  - apply (proj1 (proj2 (stripQuotes_spec (str "token") "'"%char DQUOTE)));
      reflexivity.
Defined.

(** ** [ioSkipLine] and [ioReadToken] in memory mode *)

Lemma io_remaining_zero (io : MyIO) :
  (io_remaining io <= 0)%nat -> (io_ptr io <? io_end io) = false.
Proof. unfold io_remaining. intro H. apply Z.ltb_ge. lia. Qed.

Lemma io_remaining_next (io : MyIO) (f : nat) :
  (io_remaining io <= S f)%nat ->
  (io_remaining (io_set_ptr io (io_ptr io + 1)) <= f)%nat.
Proof. unfold io_remaining. simpl. lia. Qed.

Lemma skip_line_loop_spec (buffer : list ascii) (fuel : nat) (io : MyIO) :
  (io_remaining io <= fuel)%nat ->
  let io' := skip_line_loop buffer fuel io in
  io_end io' = io_end io /\
  io_ptr io <= io_ptr io' /\
  (io_ptr io <= io_end io -> io_ptr io' <= io_end io) /\
  (forall p : Z, io_ptr io <= p < io_ptr io' ->
                 chr (deref buffer p) LF = false) /\
  ((io_ptr io' <? io_end io') = false \/
   chr (deref buffer (io_ptr io')) LF = true).
Proof.
  revert io. induction fuel as [| f IH]; intros io Hf; simpl.
  - repeat split; try lia; left; apply io_remaining_zero, Hf.
  - destruct (io_ptr io <? io_end io) eqn:E; simpl.
    + destruct (chr (deref buffer (io_ptr io)) LF) eqn:C; simpl.
      * repeat split; try lia; now right.
      * destruct (IH _ (io_remaining_next io f Hf))
          as (H1 & H2 & H3 & H4 & H5).
        simpl in *. apply Z.ltb_lt in E.
        split; [exact H1 |]. split; [lia |]. split; [intros _; apply H3; lia |].
        split; [| exact H5].
        intros p Hp. destruct (Z.eq_dec p (io_ptr io)) as [-> | Hne];
          [exact C | apply H4; lia].
    + repeat split; try lia; now left.
Qed.

(** X18.  In memory mode [ioSkipLine] moves the cursor just past the first
    newline at or after it, or to the end of the buffer when there is none,
    and returns whether bytes are left: it returns false after skipping a
    last line, terminated or not. *)
Theorem ioSkipLine_memory (buffer : list ascii)
    (file_skip_line : MyIO -> bool * MyIO) (io : MyIO) :
  useFile io = false ->
  io_ptr io <= io_end io ->
  let '(r, io') := ioSkipLine buffer file_skip_line io in
  io_end io' = io_end io /\
  r = (io_ptr io' <? io_end io) /\
  ((exists n : Z,
      io_ptr io <= n < io_end io /\
      chr (deref buffer n) LF = true /\
      (forall p : Z, io_ptr io <= p < n -> chr (deref buffer p) LF = false)
      /\ io_ptr io' = n + 1) \/
   ((forall p : Z, io_ptr io <= p < io_end io ->
                   chr (deref buffer p) LF = false) /\
    io_ptr io' = io_end io)).
Proof.
  intros Hm Hle. unfold ioSkipLine. rewrite Hm. cbv zeta.
  destruct (skip_line_loop_spec buffer _ io (le_n _))
    as (H1 & H2 & H3 & H4 & H5).
  set (io1 := skip_line_loop buffer (io_remaining io) io) in *.
  specialize (H3 Hle).
  destruct (io_ptr io1 <? io_end io1) eqn:E; simpl.
  - destruct H5 as [H5 | H5]; [discriminate H5 |]. rewrite H5. simpl.
    apply Z.ltb_lt in E.
    split; [exact H1 |]. split; [now rewrite H1 |]. left.
    exists (io_ptr io1). repeat split; try lia; assumption.
  - apply Z.ltb_ge in E.
    split; [exact H1 |]. split.
    { rewrite ?H1 in *.
      first [reflexivity | symmetry; apply Z.ltb_ge; lia]. }
    right. split; [| lia]. intros p Hp. apply H4. lia.
Qed.

Lemma ioSkipLine_memory_witness :
  ioSkipLine (str "ab" ++ [LF]) (fun io => (false, io)) (mkIO false 0 3)
  = (false, mkIO false 3 3).
Proof.
  pose proof (ioSkipLine_memory (str "ab" ++ [LF]) (fun io => (false, io))
                (mkIO false 0 3) eq_refl ltac:(simpl; lia)) as H.
  destruct (ioSkipLine _ _ _) as [r io'] eqn:E.
  vm_compute in E. injection E as <- <-. reflexivity.
Defined.

Lemma io_skip_space_loop_spec (buffer : list ascii) (fuel : nat)
    (io : MyIO) :
  (io_remaining io <= fuel)%nat ->
  let io' := io_skip_space_loop buffer fuel io in
  io_end io' = io_end io /\ useFile io' = useFile io /\
  io_ptr io <= io_ptr io' /\
  ((io_ptr io' <? io_end io') = false \/
   isspace (deref buffer (io_ptr io')) = false).
Proof.
  revert io. induction fuel as [| f IH]; intros io Hf; simpl.
  - repeat split; try lia; left; apply io_remaining_zero, Hf.
  - destruct (io_ptr io <? io_end io) eqn:E; simpl.
    + destruct (isspace (deref buffer (io_ptr io))) eqn:C.
      * destruct (IH _ (io_remaining_next io f Hf)) as (H1 & H2 & H3 & H4).
        simpl in *. repeat split; auto; lia.
      * repeat split; try lia; now right.
    + repeat split; try lia; now left.
Qed.

Lemma read_token_loop_spec (buffer : list ascii) (fuel : nat) (maxLen : Z)
    (out : list ascii) (io : MyIO) :
  (io_remaining io <= fuel)%nat ->
  let '(out', io') := read_token_loop buffer fuel maxLen out io in
  exists added : list ascii,
    out' = out ++ added /\
    added = map (fun i => deref buffer (io_ptr io + Z.of_nat i))
                (seq 0 (length added)) /\
    Forall (fun c => isspace c = false) added /\
    io_ptr io' = io_ptr io + Z.of_nat (length added) /\
    io_end io' = io_end io /\
    Z.of_nat (length out') <= Z.max (Z.of_nat (length out)) (maxLen - 1) /\
    ((io_ptr io' <? io_end io') = false \/
     isspace (deref buffer (io_ptr io')) = true \/
     maxLen - 1 <= Z.of_nat (length out')).
Proof.
  revert out io.
  assert (Hstay : forall (out : list ascii) (io : MyIO),
    (io_ptr io <? io_end io) = false \/
    isspace (deref buffer (io_ptr io)) = true \/
    maxLen - 1 <= Z.of_nat (length out) ->
    exists added : list ascii,
      out = out ++ added /\
      added = map (fun i => deref buffer (io_ptr io + Z.of_nat i))
                  (seq 0 (length added)) /\
      Forall (fun c => isspace c = false) added /\
      io_ptr io = io_ptr io + Z.of_nat (length added) /\
      io_end io = io_end io /\
      Z.of_nat (length out) <= Z.max (Z.of_nat (length out)) (maxLen - 1) /\
      ((io_ptr io <? io_end io) = false \/
       isspace (deref buffer (io_ptr io)) = true \/
       maxLen - 1 <= Z.of_nat (length out))).
  { intros out io H. exists []. rewrite app_nil_r. simpl.
    split; [reflexivity |]. split; [reflexivity |]. split; [constructor |].
    split; [lia |]. split; [reflexivity |]. split; [lia | exact H]. }
  induction fuel as [| f IH]; intros out io Hf; simpl.
  - apply Hstay. left. apply io_remaining_zero, Hf.
  - destruct (io_ptr io <? io_end io) eqn:E; simpl;
      [| apply Hstay; now left].
    destruct (isspace (deref buffer (io_ptr io))) eqn:C; simpl;
      [apply Hstay; right; now left |].
    destruct (Z.of_nat (length out) <? maxLen - 1) eqn:L;
      [| apply Hstay; right; right; apply Z.ltb_ge in L; lia].
    apply Z.ltb_lt in L.
    specialize (IH (out ++ [deref buffer (io_ptr io)])
                   (io_set_ptr io (io_ptr io + 1))
                   (io_remaining_next io f Hf)).
    destruct (read_token_loop _ _ _ _ _) as [out' io'].
    destruct IH as (added & Ho & Hmap & Hns & Hp & He & Hlen & Hstop).
    simpl in Hmap, Hp, He.
    exists (deref buffer (io_ptr io) :: added).
    split; [rewrite Ho, <- app_assoc; reflexivity |].
    split.
    { simpl. f_equal; [f_equal; lia |].
      rewrite <- seq_shift, map_map. rewrite Hmap at 1.
      apply map_ext. intro i. f_equal. lia. }
    split; [constructor; assumption |].
    split; [simpl length; lia |].
    split; [exact He |].
    split; [rewrite length_app in Hlen; simpl in Hlen; lia |].
    exact Hstop.
Qed.

(** X19.  In memory mode, with room for one byte at least, [ioReadToken] skips
    the leading whitespace and copies characters that are not whitespace,
    at most [maxLen - 1] of them, moving the cursor by the number copied:
    it stops at the end of the buffer, on whitespace, or when the room is
    used up, in which case the rest of the token stays in the buffer unread.
    It leaves [stripQuotes] of what it copied in the output buffer and
    returns whether it copied anything. *)
Theorem ioReadToken_memory (buffer : list ascii)
    (file_scan_string : MyIO -> option (list ascii) * MyIO) (io : MyIO)
    (maxLen : Z) :
  useFile io = false ->
  1 <= maxLen ->
  let io1 := io_skip_space_loop buffer (io_remaining io) io in
  let '(r, out, io') := ioReadToken buffer file_scan_string io maxLen in
  exists copied : list ascii,
    out = Some (stripQuotes (c_string copied)) /\
    r = (0 <? Z.of_nat (length copied)) /\
    copied = map (fun i => deref buffer (io_ptr io1 + Z.of_nat i))
                 (seq 0 (length copied)) /\
    Forall (fun c => isspace c = false) copied /\
    Z.of_nat (length copied) <= maxLen - 1 /\
    io_ptr io' = io_ptr io1 + Z.of_nat (length copied) /\
    ((io_ptr io' <? io_end io) = false \/
     isspace (deref buffer (io_ptr io')) = true \/
     Z.of_nat (length copied) = maxLen - 1).
Proof.
  intros Hm Hlen io1. unfold ioReadToken.
  replace (maxLen <? 1) with false by (symmetry; apply Z.ltb_ge; lia).
  rewrite Hm. cbv zeta. fold io1.
  destruct (io_skip_space_loop_spec buffer _ io (le_n _))
    as (He & _ & _ & _). fold io1 in He.
  destruct (io_ptr io1 >=? io_end io1) eqn:E.
  - exists []. simpl. rewrite Z.geb_leb in E. apply Z.leb_le in E.
    split; [reflexivity |]. split; [reflexivity |]. split; [reflexivity |].
    split; [constructor |]. split; [lia |]. split; [lia |].
    left. apply Z.ltb_ge. lia.
  - pose proof (read_token_loop_spec buffer _ maxLen [] io1 (le_n _)) as H.
    destruct (read_token_loop _ _ _ _ _) as [out io'].
    destruct H as (added & Ho & Hmap & Hns & Hp & He' & Hl & Hstop).
    simpl in Ho. subst out. simpl length in Hl.
    exists added. split; [reflexivity |]. split; [reflexivity |].
    split; [exact Hmap |]. split; [exact Hns |].
    split; [lia |]. split; [exact Hp |].
    rewrite He', He in Hstop.
    destruct Hstop as [Hs | [Hs | Hs]]; [now left | right; now left |].
    right. right. lia.
Qed.

Lemma ioReadToken_memory_witness :
  ioReadToken (str " 'abcdef' x") (fun io => (None, io)) (mkIO false 0 11) 4
  = (true, Some (str "ab"), mkIO false 4 11).
Proof.
  pose proof (ioReadToken_memory (str " 'abcdef' x") (fun io => (None, io))
                (mkIO false 0 11) 4 eq_refl ltac:(lia)) as H.
  destruct (ioReadToken _ _ _ _) as [[r out] io'] eqn:E.
  vm_compute in E. injection E as <- <- <-. reflexivity.
Defined.

(** * The floating-point directives *)

Lemma float_prefix_body (sign body : list ascii) :
  match
    (let '(ip, r1) := span_digits body in
     let '(dot, fp, r2) :=
       match r1 with
       | c :: r =>
           if chr c "." then let '(d, rest) := span_digits r in ([c], d, rest)
           else ([], [], r1)
       | [] => ([], [], r1)
       end in
     match ip ++ fp with
     | [] => None
     | _ :: _ =>
         let expo :=
           match r2 with
           | e :: r =>
               if chr e "e" || chr e "E" then
                 let '(es, r3) :=
                   match r with
                   | c :: r' =>
                       if chr c "+" || chr c "-" then ([c], r') else ([], r)
                   | [] => ([], r)
                   end in
                 match fst (span_digits r3) with
                 | [] => []
                 | ds => e :: es ++ ds
                 end
               else []
           | [] => []
           end in
         Some (sign ++ ip ++ dot ++ fp ++ expo)
     end)
  with
  | Some _ => true
  | None => false
  end = starts_mantissa body.
Proof.
  destruct body as [| c r]; [reflexivity |]. simpl span_digits.
  unfold starts_mantissa.
  destruct (isdigit c) eqn:D.
  - destruct (span_digits r) as [d rest]. cbv beta iota zeta.
    destruct (match rest with
              | [] => ([], [], rest)
              | c0 :: r0 =>
                  if chr c0 "."
                  then let '(d0, rest0) := span_digits r0 in ([c0], d0, rest0)
                  else ([], [], rest)
              end) as [[dot fp] r2].
    reflexivity.
  - cbv beta iota zeta. simpl orb.
    destruct (chr c ".") eqn:P; [| reflexivity]. simpl andb.
    destruct r as [| d r']; [reflexivity |]. simpl span_digits.
    destruct (isdigit d); [| reflexivity].
    destruct (span_digits r') as [ds rest]. reflexivity.
Qed.

Lemma strtod_mantissa (tok : list ascii) :
  match strtod tok with Some _ => true | None => false end
  = has_mantissa tok.
Proof.
  unfold strtod, float_prefix, has_mantissa.
  destruct tok as [| c r]; [reflexivity |].
  simpl andb. destruct (chr c "-" || chr c "+"); cbv beta iota zeta;
    apply float_prefix_body.
Qed.

Lemma from_chars_double_mantissa (tok : list ascii) :
  match from_chars_double tok with Some _ => true | None => false end = true
  -> has_mantissa tok = true.
Proof.
  unfold from_chars_double, float_prefix, has_mantissa.
  destruct tok as [| c r]; [discriminate |].
  simpl andb. rewrite orb_false_r.
  destruct (chr c "-") eqn:M; cbv beta iota zeta; simpl orb.
  - now rewrite float_prefix_body.
  - rewrite float_prefix_body.
    destruct (chr c "+") eqn:P; [| auto].
    apply chr_eq in P. subst c. discriminate.
Qed.

(** X16.  A floating-point directive succeeds exactly when the scanner captured
    something and the token is an optional sign followed by a digit, or by a
    point and a digit: a lone sign, a lone point, or a token that starts
    with an exponent marker halts the scan, although the scanner reported
    a capture. *)
Theorem float_conversion_outcome (buffer : list ascii)
    (isLong isLongDouble : bool) (s : Scan) :
  let '(got, tok, ms') := readFloatToken buffer (sc_ms s) 256 in
  fst (conv_f buffer isLong isLongDouble s) = got && has_mantissa tok.
Proof.
  unfold conv_f.
  destruct (readFloatToken buffer (sc_ms s) 256) as [[got tok] ms'].
  destruct got; [| reflexivity]. simpl andb.
  unfold va_arg. cbv beta iota zeta.
  pose proof (strtod_mantissa tok) as Hs.
  pose proof (from_chars_double_mantissa tok) as Hf.
  destruct isLongDouble, isLong, (from_chars_double tok), (strtod tok);
    simpl in *; try exact Hs; try (symmetry; apply Hf; reflexivity).
Qed.
